(** * fix-logger-errors: the rule-based rewriter of [logger.error] call sites

    A shallow embedding of [fix-logger-errors.py]: the rule table
    [PATTERNS], the per-file engine [fix_file], the selector
    [find_files_with_logger_errors] and the driver [main], together with the
    fragment of Python's [re] module the rule table relies on
    ([re.findall] and [re.sub] over literals, character sets, greedy [*] and
    [+], capturing groups and back-references). *)

From Stdlib Require Import String Ascii List NArith Arith Bool Lia DecimalString.
Import ListNotations.


(** ** Text

    A Python [str] is a sequence of Unicode code points. *)

Definition char := N.
Definition text := list char.

Definition ch (a : ascii) : char := N_of_ascii a.
Definition str (s : string) : text := List.map ch (list_ascii_of_string s).

Definition char_eqb (a b : char) : bool := N.eqb a b.

Fixpoint text_eqb (a b : text) : bool :=
  match a, b with
  | [], [] => true
  | x :: a', y :: b' => char_eqb x y && text_eqb a' b'
  | _, _ => false
  end.

(** [s.startswith(l)] *)
Fixpoint starts_with (l s : text) : bool :=
  match l, s with
  | [], _ => true
  | x :: l', y :: s' => char_eqb x y && starts_with l' s'
  | _ :: _, [] => false
  end.

(** [needle in hay] on strings *)
Fixpoint contains (needle hay : text) : bool :=
  starts_with needle hay ||
  match hay with
  | [] => false
  | _ :: hay' => contains needle hay'
  end.

(** [s.endswith(l)] *)
Definition ends_with (l s : text) : bool :=
  starts_with (rev l) (rev s).

(** [a <= b] on strings: code point by code point. *)
Fixpoint text_leb (a b : text) : bool :=
  match a, b with
  | [], _ => true
  | _ :: _, [] => false
  | x :: a', y :: b' => N.ltb x y || (char_eqb x y && text_leb a' b')
  end.

(** [sorted(l)] on a list of strings. *)
Fixpoint insert_sorted (x : text) (l : list text) : list text :=
  match l with
  | [] => [x]
  | y :: l' => if text_leb x y then x :: l else y :: insert_sorted x l'
  end.

Definition sorted (l : list text) : list text := fold_right insert_sorted [] l.

(** A number as an f-string prints it. *)
Definition dec (n : nat) : text := str (NilZero.string_of_uint (Nat.to_uint n)).

(** ** Character tables of the interpreter

    [\s] and [\w] in a [str] pattern follow the Unicode database, and so
    does [str.isprintable], by which [repr] decides what to escape. Below
    128 all three are fixed; above, the interpreter's tables decide. The
    development is parametric in those tables. *)

Class CharTables := {
  uni_space : char -> bool;
  uni_alnum : char -> bool;
  uni_printable : char -> bool
}.

Definition in_range (lo hi c : char) : bool := N.leb lo c && N.leb c hi.

Definition ascii_space (c : char) : bool :=
  in_range 9%N 13%N c || in_range 28%N 32%N c.

Definition ascii_word (c : char) : bool :=
  in_range 97%N 122%N c || in_range 65%N 90%N c || in_range 48%N 57%N c
  || char_eqb c 95%N.

Section Program.
Context {T : CharTables}.

Definition is_space (c : char) : bool :=
  if N.ltb c 128%N then ascii_space c else uni_space c.

Definition is_word (c : char) : bool :=
  if N.ltb c 128%N then ascii_word c else uni_alnum c.

(** ** Regular expressions: the fragment used by the rule table *)

Inductive citem :=
| CChar (c : char)
| CRange (lo hi : char)
| CSpace
| CWord.

Record cset := mkset { negated : bool; items : list citem }.

Definition item_mem (i : citem) (c : char) : bool :=
  match i with
  | CChar x => char_eqb c x
  | CRange lo hi => in_range lo hi c
  | CSpace => is_space c
  | CWord => is_word c
  end.

Definition mem (cs : cset) (c : char) : bool :=
  xorb (negated cs) (existsb (fun i => item_mem i c) (items cs)).

(** Pieces without groups: a literal run, one character of a set, a greedy
    [*] or [+] over a set, a back-reference. *)
Inductive atom :=
| Lit (l : text)
| Set1 (cs : cset)
| Star (cs : cset)
| Plus (cs : cset)
| Ref (n : nat).

(** A pattern is a sequence of atoms and capturing groups; groups are
    numbered from 1 in the order they open, and none nests in another. *)
Inductive token :=
| A (a : atom)
| Grp (body : list atom).

Definition regex := list token.

(** *** Backtracking matcher

    Every function returns the successes in the order the backtracking
    engine tries them, so the engine's answer is the head of the list. A
    success is the text left after the match. *)

(** Greedy repetition: the longest run first, then one character less. *)
Fixpoint star_alts (cs : cset) (s : text) : list text :=
  match s with
  | c :: r => if mem cs c then star_alts cs r ++ [s] else [s]
  | [] => [[]]
  end.

Definition step_atom (a : atom) (gs : list text) (s : text) : list text :=
  match a with
  | Lit l => if starts_with l s then [skipn (length l) s] else []
  | Set1 cs =>
      match s with
      | c :: r => if mem cs c then [r] else []
      | [] => []
      end
  | Star cs => star_alts cs s
  | Plus cs =>
      match s with
      | c :: r => if mem cs c then star_alts cs r else []
      | [] => []
      end
  | Ref n =>
      match n with
      | O => []
      | S k =>
          match nth_error gs k with
          | Some g => if starts_with g s then [skipn (length g) s] else []
          | None => []
          end
      end
  end.

Fixpoint run_atoms (p : list atom) (gs : list text) (s : text) : list text :=
  match p with
  | [] => [s]
  | a :: p' => flat_map (run_atoms p' gs) (step_atom a gs s)
  end.

(** The text a match consumed, given the subject and what is left. *)
Definition consumed (s r : text) : text := firstn (length s - length r) s.

(** State of a match in progress: the text left and the groups closed so
    far, group 1 first. *)
Definition mstate := (text * list text)%type.

Definition step_token (t : token) (st : mstate) : list mstate :=
  let '(s, gs) := st in
  match t with
  | A a => List.map (fun r => (r, gs)) (step_atom a gs s)
  | Grp body => List.map (fun r => (r, gs ++ [consumed s r])) (run_atoms body gs s)
  end.

Fixpoint run (p : regex) (st : mstate) : list mstate :=
  match p with
  | [] => [st]
  | t :: p' => flat_map (run p') (step_token t st)
  end.

(** A match object: the text after the match and the captured groups. *)
Record match_obj := mkmatch { m_rest : text; m_groups : list text }.

(** [m.group(n)] for [n >= 1]. *)
Definition group (m : match_obj) (n : nat) : text := nth (n - 1) (m_groups m) [].

(** The pattern matched at the start of [s] (the engine's [match]). *)
Definition match_at (p : regex) (s : text) : option match_obj :=
  match run p (s, []) with
  | (r, gs) :: _ => Some (mkmatch r gs)
  | [] => None
  end.

(** *** Scanning: what [re.findall] and [re.sub] share

    The leftmost match is taken, the scan resumes where it ended, and a
    character no match starts at is passed over. [skip] counts the
    characters still inside the match taken last. Every pattern of the rule
    table opens with a literal and matches no empty word ([PATTERNS_nonempty]
    below), so what [re] does around empty matches is left out. *)

Inductive seg :=
| Skip (c : char)
| Hit (m : match_obj).

Fixpoint scan (p : regex) (s : text) (skip : nat) : list seg :=
  match s with
  | [] => []
  | c :: s' =>
      match skip with
      | S k => scan p s' k
      | O =>
          match match_at p s with
          | Some m => Hit m :: scan p s' (length s - length (m_rest m) - 1)
          | None => Skip c :: scan p s' 0
          end
      end
  end.

Definition finditer (p : regex) (s : text) : list seg := scan p s 0.

(** [re.findall(p, s)]: one entry per match. *)
Definition findall (p : regex) (s : text) : list match_obj :=
  flat_map (fun g => match g with Hit m => [m] | Skip _ => [] end) (finditer p s).

(** [re.sub(p, repl, s)] with a callable [repl]. *)
Definition sub (p : regex) (repl : match_obj -> text) (s : text) : text :=
  flat_map (fun g => match g with Hit m => repl m | Skip c => [c] end) (finditer p s).

(** ** The rule table *)

Record pattern := mkpattern {
  search : regex;
  replace : match_obj -> text;
  description : string
}.

Definition not_comma : cset := mkset true [CChar (ch ",")].
Definition space : cset := mkset false [CSpace].
Definition ident : cset :=
  mkset false [CRange (ch "a") (ch "z"); CRange (ch "A") (ch "Z"); CChar (ch "_")].
Definition word : cset := mkset false [CWord].
Definition not_comma_brace : cset := mkset true [CChar (ch ","); CChar (ch "}")].

Definition L (s : string) : token := A (Lit (str s)).
Definition ws : token := A (Star space).
Definition ws1 : token := A (Plus space).

Definition PATTERNS : list pattern := [
  (* Pattern 1: { error: errorMessage } where errorMessage is a string *)
  mkpattern
    [L "logger.error("; Grp [Plus not_comma]; L ","; ws; L "{"; ws;
     L "error:"; ws; L "errorMessage"; ws; L ","]
    (fun m => str "logger.error(" ++ group m 1 ++ str ", new Error(errorMessage), {")
    "Fix { error: errorMessage } pattern";
  mkpattern
    [L "logger.error("; Grp [Plus not_comma]; L ","; ws; L "{"; ws;
     L "error:"; ws; L "errorMessage"; ws; L "}"; ws; L ")"]
    (fun m => str "logger.error(" ++ group m 1 ++ str ", new Error(errorMessage))")
    "Fix { error: errorMessage } (only property) pattern";
  (* Pattern 2: { error: error.message } where error is Supabase error *)
  mkpattern
    [L "logger.error("; Grp [Plus not_comma]; L ","; ws; L "{"; ws;
     L "error:"; ws; Grp [Plus ident]; L ".message"; ws; L ","]
    (fun m => str "logger.error(" ++ group m 1 ++ str ", new Error(" ++ group m 2
              ++ str ".message), {")
    "Fix { error: supabaseError.message } pattern";
  mkpattern
    [L "logger.error("; Grp [Plus not_comma]; L ","; ws; L "{"; ws;
     L "error:"; ws; Grp [Plus ident]; L ".message"; ws; L "}"; ws; L ")"]
    (fun m => str "logger.error(" ++ group m 1 ++ str ", new Error(" ++ group m 2
              ++ str ".message))")
    "Fix { error: supabaseError.message } (only property) pattern";
  (* Pattern 3: { error: result.error } where result.error is a string *)
  mkpattern
    [L "logger.error("; Grp [Plus not_comma]; L ","; ws; L "{"; ws;
     L "error:"; ws; L "result.error"; ws; L "}"; ws; L ")"]
    (fun m => str "logger.error(" ++ group m 1 ++ str ", new Error(result.error))")
    "Fix { error: result.error } pattern";
  (* Pattern 4: { error: err.message } in catch blocks *)
  mkpattern
    [L "logger.error("; Grp [Plus not_comma]; L ","; ws; L "{"; ws;
     L "error:"; ws; L "err"; ws1; L "instanceof"; ws1; L "Error"; ws; L "?"; ws;
     L "err.message"; ws; L ":"; ws; A (Plus not_comma_brace); ws; L "}"; ws; L ")"]
    (fun m => str "logger.error(" ++ group m 1
              ++ str ", err instanceof Error ? err : new Error(String(err)))")
    "Fix { error: err instanceof Error ? err.message : ... } pattern";
  (* Pattern 5: { postError: error.message } *)
  mkpattern
    [L "logger.error("; Grp [Plus not_comma]; L ","; ws; L "{"; ws;
     Grp [Plus word; Lit (str "Error")]; L ":"; ws; Grp [Plus word]; L ".message";
     ws; L ","]
    (fun m => str "logger.error(" ++ group m 1 ++ str ", new Error(" ++ group m 3
              ++ str ".message), { " ++ group m 2 ++ str "Type: '" ++ group m 2
              ++ str "',")
    "Fix { namedError: error.message } pattern";
  (* Pattern 6: Complex error with stack *)
  mkpattern
    [L "logger.error("; Grp [Plus not_comma]; L ","; ws; L "{"; ws;
     L "error:"; ws; Grp [Plus ident]; L ".message"; ws; L ","; ws;
     L "stack:"; ws; A (Ref 2); L ".stack"; ws; L ","]
    (fun m => str "logger.error(" ++ group m 1 ++ str ", " ++ group m 2 ++ str ", {")
    "Fix { error: err.message, stack: err.stack } pattern"
].

(** ** The engine on one file's content

    The loop of [fix_file] over [PATTERNS]: the state is the current content
    and [fixes_count]. *)

Definition apply_pattern (st : text * nat) (p : pattern) : text * nat :=
  let '(content, fixes_count) := st in
  let matches := findall (search p) content in
  match matches with
  | [] => (content, fixes_count)
  | _ :: _ => (sub (search p) (replace p) content, fixes_count + length matches)
  end.

Definition apply_patterns (ps : list pattern) (content : text) : text * nat :=
  fold_left apply_pattern ps (content, 0).

Definition fix_content (content : text) : text * nat := apply_patterns PATTERNS content.

(** ** Files

    The tree the script walks, as the list of its files in the order the
    walk yields them. A file is what reading it gives (its text, or the
    exception [open]/[read] raises) and what writing to it does: [None] when
    a write succeeds, or the exception raised together with what the file
    reads as afterwards. *)

Definition path := text.

Inductive exn := Exception (msg : text).

Definition exn_str (e : exn) : text := let 'Exception msg := e in msg.

Inductive result (A : Type) :=
| Ok (a : A)
| Raise (e : exn).

Arguments Ok {A} a.
Arguments Raise {A} e.

Record file := mkfile {
  on_read : result text;
  on_write : option (exn * result text)
}.

Definition world := list (path * file).

Fixpoint lookup (w : world) (p : path) : option file :=
  match w with
  | [] => None
  | (q, f) :: w' => if text_eqb q p then Some f else lookup w' p
  end.

(** [repr(s)] of a [str]: between single quotes, or between double quotes
    when the text holds a single quote and no double one; the quote in use
    and the backslash escaped, tab, line feed and carriage return by
    letter, and what is not printable by its code in hexadecimal. *)
Definition hex_digit (n : N) : char :=
  if N.ltb n 10%N then (48 + n)%N else (87 + n)%N.

Fixpoint hex (digits : nat) (n : N) : text :=
  match digits with
  | O => []
  | S d => hex d (N.div n 16%N) ++ [hex_digit (N.modulo n 16%N)]
  end.

Definition backslash : char := 92%N.

Definition repr_char (quote c : char) : text :=
  if char_eqb c quote || char_eqb c backslash then [backslash; c]
  else if char_eqb c 9%N then [backslash; 116%N]
  else if char_eqb c 10%N then [backslash; 110%N]
  else if char_eqb c 13%N then [backslash; 114%N]
  else if N.ltb c 32%N || char_eqb c 127%N then backslash :: 120%N :: hex 2 c
  else if N.ltb c 127%N then [c]
  else if uni_printable c then [c]
  else if N.leb c 255%N then backslash :: 120%N :: hex 2 c
  else if N.leb c 65535%N then backslash :: 117%N :: hex 4 c
  else backslash :: 85%N :: hex 8 c.

Definition repr (s : text) : text :=
  let quote :=
    if existsb (char_eqb 39%N) s && negb (existsb (char_eqb 34%N) s)
    then 34%N else 39%N in
  quote :: flat_map (repr_char quote) s ++ [quote].

(** [open(p, 'r', encoding='utf-8').read()]; for a path that is not in the
    tree, the [FileNotFoundError] the interpreter raises, whose text ends
    with the [repr] of the name. *)
Definition read_file (w : world) (p : path) : result text :=
  match lookup w p with
  | Some f => on_read f
  | None => Raise (Exception (str "[Errno 2] No such file or directory: " ++ repr p))
  end.

(** [open(p, 'w', encoding='utf-8').write(c)] *)
Fixpoint write_file (w : world) (p : path) (c : text) : world * result unit :=
  match w with
  | [] => ([(p, mkfile (Ok c) None)], Ok tt)
  | (q, f) :: w' =>
      if text_eqb q p then
        match on_write f with
        | None => ((q, mkfile (Ok c) None) :: w', Ok tt)
        | Some (e, residue) => ((q, mkfile residue (on_write f)) :: w', Raise e)
        end
      else
        let '(w'', r) := write_file w' p c in ((q, f) :: w'', r)
  end.

(** ** [should_skip_file] *)

Definition skip_patterns : list text := [
  str "node_modules";
  str ".git";
  str "coverage";
  str "dist";
  str "build";
  str ".next";
  str "DEBUG.md";
  str "fix-logger-errors.py";
  str "logger.ts"
].

Definition should_skip_file (filepath : text) : bool :=
  existsb (fun pattern => contains pattern filepath) skip_patterns.

(** ** [fix_file]

    Returns the tree afterwards, the lines printed, and the pair the
    function returns. *)

Definition error_line (filepath : path) (e : exn) : text :=
  str "Error processing " ++ filepath ++ str ": " ++ exn_str e.

Definition fix_file (w : world) (filepath : path) : world * list text * (bool * nat) :=
  match read_file w filepath with
  | Raise e => (w, [error_line filepath e], (false, 0))
  | Ok original_content =>
      let '(content, fixes_count) := fix_content original_content in
      if negb (text_eqb content original_content) then
        match write_file w filepath content with
        | (w', Ok _) => (w', [], (true, fixes_count))
        | (w', Raise e) => (w', [error_line filepath e], (false, 0))
        end
      else (w, [], (false, 0))
  end.

(** ** [find_files_with_logger_errors]

    [root_path.rglob('*.ts')]: the files below the root whose name ends in
    the extension, in the order of the walk. *)

Definition under (root p : path) : bool := starts_with (root ++ str "/") p.

Definition rglob (w : world) (root : path) (ext : text) : list path :=
  filter (fun p => under root p && ends_with ext p) (List.map fst w).

Definition trigger : text := str "logger.error(".

Definition find_files_with_logger_errors (w : world) (root_dir : path) : list path :=
  flat_map
    (fun ext =>
       flat_map
         (fun filepath =>
            if should_skip_file filepath then []
            else
              match read_file w filepath with
              | Ok content => if contains trigger content then [filepath] else []
              | Raise _ => []
              end)
         (rglob w root_dir ext))
    [str ".ts"; str ".tsx"].

(** ** [main]

    [script_dir] is [Path(__file__).parent]. *)

(** [filepath.relative_to(base)], for a path below [base] (every path the
    selector returns is). *)
Definition relative_to (base p : path) : path :=
  if under base p then skipn (length base + 1) p else p.

Record run_state := mkstate {
  st_world : world;
  fixed_files : list text;
  total_fixes : nat;
  st_out : list text
}.

(** The mark the script prints before "Fixed", as its source has it. *)
Definition fixed_mark : text := [226%N; 339%N; 8220%N].

(** One turn of the loop over [files]. *)
Definition fix_step (script_dir : path) (st : run_state) (filepath : path) : run_state :=
  let rel_path := relative_to script_dir filepath in
  let '(w', printed, (modified, fixes)) := fix_file (st_world st) filepath in
  if modified then
    mkstate w' (fixed_files st ++ [rel_path]) (total_fixes st + fixes)
      (st_out st ++ printed
       ++ [fixed_mark ++ str " Fixed " ++ dec fixes ++ str " issue(s) in " ++ rel_path])
  else
    mkstate w' (fixed_files st) (total_fixes st) (st_out st ++ printed).

Definition banner : text := repeat (ch "=") 80.

(** The files selected and the state after the loop. *)
Definition run_fixes (w : world) (script_dir : path) : list path * run_state :=
  let root_dir := script_dir ++ str "/src" in
  let files := find_files_with_logger_errors w root_dir in
  let out :=
    [banner; str "Logger.error() API Fix Script"; banner; [];
     str "Scanning " ++ root_dir ++ str " for files with logger.error() calls...";
     str "Found " ++ dec (length files) ++ str " files with logger.error() calls";
     []] in
  (files, fold_left (fix_step script_dir) files (mkstate w [] 0 out)).

Definition summary_lines (files : list path) (st : run_state) : list text :=
  [[]; banner; str "Summary"; banner;
   str "Total files scanned: " ++ dec (length files);
   str "Total files fixed: " ++ dec (length (fixed_files st));
   str "Total fixes applied: " ++ dec (total_fixes st);
   []].

Definition main (w : world) (script_dir : path) : world * list text :=
  let '(files, st) := run_fixes w script_dir in
  let listing :=
    match fixed_files st with
    | [] => [str "No files needed fixing (or all already fixed manually)"]
    | _ :: _ => str "Fixed files:" :: List.map (fun f => str "  - " ++ f) (sorted (fixed_files st))
    end in
  (st_world st,
   st_out st ++ summary_lines files st ++ listing
   ++ [[]; str "Next steps:";
       str "1. Review the changes with git diff";
       str "2. Run: npx tsc --noEmit";
       str "3. Run tests: npm test";
       str "4. Commit changes"]).

End Program.

(** * Properties of the matcher *)

Section MatcherFacts.
Context {T : CharTables}.

Lemma char_eqb_eq (a b : char) : char_eqb a b = true <-> a = b.
Proof. apply N.eqb_eq. Qed.

Lemma text_eqb_eq (a b : text) : text_eqb a b = true <-> a = b.
Proof.
  revert b; induction a as [|x a IH]; intros [|y b]; simpl; split; try easy.
  - rewrite andb_true_iff, char_eqb_eq, IH. now intros [-> ->].
  - intros E; injection E as -> ->. rewrite andb_true_iff, char_eqb_eq, IH. easy.
Qed.

Lemma text_eqb_neq (a b : text) : text_eqb a b = false <-> a <> b.
Proof.
  rewrite <- text_eqb_eq. destruct (text_eqb a b); split; congruence.
Qed.

Lemma starts_with_spec (l s : text) :
  starts_with l s = true <-> exists r, s = l ++ r.
Proof.
  revert s; induction l as [|x l IH]; intros s; simpl.
  - split; [intros _; now exists s | easy].
  - destruct s as [|y s].
    + split; [easy | intros [r E]; discriminate].
    + rewrite andb_true_iff, char_eqb_eq, IH. split.
      * intros [-> [r ->]]. now exists r.
      * intros [r E]. injection E as -> ->. split; [easy | now exists r].
Qed.

Lemma starts_with_app (l r : text) : starts_with l (l ++ r) = true.
Proof. apply starts_with_spec. now exists r. Qed.

Lemma skipn_length_app (l r : text) : skipn (length l) (l ++ r) = r.
Proof. induction l; simpl; auto. Qed.

Lemma consumed_app (w r : text) : consumed (w ++ r) r = w.
Proof.
  unfold consumed. rewrite length_app.
  replace (length w + length r - length r) with (length w) by lia.
  induction w; simpl; [now destruct r | now f_equal].
Qed.

(** ** What a pattern spans

    The words a pattern can consume, whatever the order the engine tries
    them in. *)

Definition atom_spans (a : atom) (gs : list text) (w : text) : Prop :=
  match a with
  | Lit l => w = l
  | Set1 cs => exists c, w = [c] /\ mem cs c = true
  | Star cs => forallb (mem cs) w = true
  | Plus cs => w <> [] /\ forallb (mem cs) w = true
  | Ref n => exists k, n = S k /\ nth_error gs k = Some w
  end.

Fixpoint atoms_span (p : list atom) (gs : list text) (w : text) : Prop :=
  match p with
  | [] => w = []
  | a :: p' =>
      exists w1 w2, w = w1 ++ w2 /\ atom_spans a gs w1 /\ atoms_span p' gs w2
  end.

Definition token_spans (t : token) (gs : list text) (w : text) (gs' : list text) : Prop :=
  match t with
  | A a => atom_spans a gs w /\ gs' = gs
  | Grp body => atoms_span body gs w /\ gs' = gs ++ [w]
  end.

Fixpoint spans (p : regex) (gs : list text) (w : text) (gs' : list text) : Prop :=
  match p with
  | [] => w = [] /\ gs' = gs
  | t :: p' =>
      exists w1 w2 g1,
        w = w1 ++ w2 /\ token_spans t gs w1 g1 /\ spans p' g1 w2 gs'
  end.

Lemma In_star_alts (cs : cset) (s r : text) :
  In r (star_alts cs s) <-> exists w, s = w ++ r /\ forallb (mem cs) w = true.
Proof.
  revert r; induction s as [|c s IH]; intros r; simpl.
  - split.
    + intros [<- | []]. now exists [].
    + intros [w [E _]]. symmetry in E. apply app_eq_nil in E. left. easy.
  - destruct (mem cs c) eqn:M.
    + rewrite in_app_iff, IH. simpl. split.
      * intros [[w [-> F]] | [<- | []]].
        -- exists (c :: w). simpl. now rewrite M.
        -- now exists [].
      * intros [[|x w] [E F]]; simpl in *.
        -- right. left. easy.
        -- injection E as <- ->. apply andb_true_iff in F. left. now exists w.
    + simpl. split.
      * intros [<- | []]. now exists [].
      * intros [[|x w] [E F]]; simpl in *.
        -- left. easy.
        -- injection E as <- ->. rewrite M in F. discriminate.
Qed.

Lemma In_step_atom (a : atom) (gs : list text) (s r : text) :
  In r (step_atom a gs s) <-> exists w, s = w ++ r /\ atom_spans a gs w.
Proof.
  destruct a as [l | cs | cs | cs | n]; simpl.
  - destruct (starts_with l s) eqn:E.
    + apply starts_with_spec in E as [r' ->]. rewrite skipn_length_app. simpl. split.
      * intros [<- | []]. now exists l.
      * intros [w [E ->]]. apply app_inv_head in E. now left.
    + split; [easy|]. intros [w [-> ->]]. now rewrite starts_with_app in E.
  - destruct s as [|c s]; simpl.
    + split; [easy|]. intros [w [E [c [-> _]]]]. discriminate.
    + destruct (mem cs c) eqn:M; simpl; split.
      * intros [<- | []]. exists [c]. split; [easy | now exists c].
      * intros [w [E [c' [-> _]]]]. injection E as -> ->. now left.
      * easy.
      * intros [w [E [c' [-> M']]]]. injection E as -> ->. congruence.
  - apply In_star_alts.
  - destruct s as [|c s]; simpl.
    + split; [easy|]. intros [w [E [N _]]]. symmetry in E. apply app_eq_nil in E. easy.
    + destruct (mem cs c) eqn:M.
      * rewrite In_star_alts. split.
        -- intros [w [-> F]]. exists (c :: w). simpl. now rewrite M.
        -- intros [[|x w] [E [N F]]]; [easy|]. simpl in *. injection E as <- ->.
           apply andb_true_iff in F. now exists w.
      * split; [easy|]. intros [[|x w] [E [N F]]]; [easy|]. simpl in *.
        injection E as <- ->. rewrite M in F. discriminate.
  - destruct n as [|k].
    + split; [easy|]. intros [w [_ [k [E _]]]]. discriminate.
    + destruct (nth_error gs k) as [g|] eqn:G.
      * destruct (starts_with g s) eqn:E.
        -- apply starts_with_spec in E as [r' ->]. rewrite skipn_length_app. simpl. split.
           ++ intros [<- | []]. exists g. split; [easy | now exists k].
           ++ intros [w [E [k' [K G']]]]. injection K as <-. rewrite G in G'.
              injection G' as <-. apply app_inv_head in E. now left.
        -- split; [easy|]. intros [w [-> [k' [K G']]]]. injection K as <-.
           rewrite G in G'. injection G' as <-. now rewrite starts_with_app in E.
      * split; [easy|]. intros [w [_ [k' [K G']]]]. injection K as <-. congruence.
Qed.

Lemma In_run_atoms (p : list atom) (gs : list text) (s r : text) :
  In r (run_atoms p gs s) <-> exists w, s = w ++ r /\ atoms_span p gs w.
Proof.
  revert s; induction p as [|a p IH]; intros s; simpl.
  - split.
    + intros [<- | []]. now exists [].
    + intros [w [-> ->]]. now left.
  - rewrite in_flat_map. split.
    + intros [s1 [H1 H2]]. apply In_step_atom in H1 as [w1 [-> S1]].
      apply IH in H2 as [w2 [-> S2]]. exists (w1 ++ w2). rewrite app_assoc.
      split; [easy|]. now exists w1, w2.
    + intros [w [-> [w1 [w2 [-> [S1 S2]]]]]]. exists (w2 ++ r). split.
      * apply In_step_atom. exists w1. now rewrite app_assoc.
      * apply IH. now exists w2.
Qed.

Lemma In_step_token (t : token) (s r : text) (gs gs' : list text) :
  In (r, gs') (step_token t (s, gs)) <->
  exists w, s = w ++ r /\ token_spans t gs w gs'.
Proof.
  destruct t as [a | body]; simpl; rewrite in_map_iff.
  - split.
    + intros [r' [E H]]. injection E as -> <-. apply In_step_atom in H as [w [-> H]].
      now exists w.
    + intros [w [-> [H ->]]]. exists r. split; [easy|]. apply In_step_atom. now exists w.
  - split.
    + intros [r' [E H]]. injection E as -> <-. apply In_run_atoms in H as [w [-> H]].
      exists w. now rewrite consumed_app.
    + intros [w [-> [H ->]]]. exists r. rewrite consumed_app. split; [easy|].
      apply In_run_atoms. now exists w.
Qed.

Lemma In_run (p : regex) (s r : text) (gs gs' : list text) :
  In (r, gs') (run p (s, gs)) <-> exists w, s = w ++ r /\ spans p gs w gs'.
Proof.
  revert s gs; induction p as [|t p IH]; intros s gs; simpl.
  - split.
    + intros [E | []]. injection E as <- <-. now exists [].
    + intros [w [-> [-> ->]]]. now left.
  - rewrite in_flat_map. split.
    + intros [[s1 g1] [H1 H2]]. apply In_step_token in H1 as [w1 [-> S1]].
      apply IH in H2 as [w2 [-> S2]]. exists (w1 ++ w2). rewrite app_assoc.
      split; [easy|]. now exists w1, w2, g1.
    + intros [w [-> [w1 [w2 [g1 [-> [S1 S2]]]]]]]. exists (w2 ++ r, g1). split.
      * apply In_step_token. exists w1. now rewrite app_assoc.
      * apply IH. now exists w2.
Qed.

(** A match the engine reports spans a prefix of the subject. *)
Lemma match_at_sound (p : regex) (s : text) (m : match_obj) :
  match_at p s = Some m ->
  exists w, s = w ++ m_rest m /\ spans p [] w (m_groups m).
Proof.
  unfold match_at. destruct (run p (s, [])) as [|[r gs] l] eqn:E; [easy|].
  intros H; injection H as <-. simpl. apply In_run. rewrite E. now left.
Qed.

(** Whenever the pattern spans a prefix, the engine reports some match. *)
Lemma match_at_complete (p : regex) (w r : text) (gs : list text) :
  spans p [] w gs -> exists m, match_at p (w ++ r) = Some m.
Proof.
  intros H. unfold match_at.
  assert (I : In (r, gs) (run p (w ++ r, []))) by (apply In_run; now exists w).
  destruct (run p _) as [|[r' gs'] l]; [destruct I|].
  eexists; reflexivity.
Qed.

Lemma match_at_none (p : regex) (s : text) :
  match_at p s = None ->
  forall w r gs, s = w ++ r -> ~ spans p [] w gs.
Proof.
  intros N w r gs -> H. destruct (@match_at_complete p w r gs H) as [m E]. congruence.
Qed.

End MatcherFacts.

(** * Properties of the scan *)

Section ScanFacts.
Context {T : CharTables}.

(** A pattern that never matches the empty word. *)
Definition nonempty (p : regex) : Prop :=
  forall w gs, spans p [] w gs -> w <> [].

Lemma scan_skipn (p : regex) (s : text) (k : nat) :
  scan p s k = scan p (skipn k s) 0.
Proof.
  revert k; induction s as [|c s IH]; intros [|k]; simpl; auto.
Qed.

Lemma finditer_nil (p : regex) : finditer p [] = [].
Proof. reflexivity. Qed.

Lemma finditer_skip (p : regex) (c : char) (s : text) :
  match_at p (c :: s) = None -> finditer p (c :: s) = Skip c :: finditer p s.
Proof. unfold finditer. simpl. now intros ->. Qed.

Lemma finditer_hit (p : regex) (s w : text) (m : match_obj) :
  match_at p s = Some m -> s = w ++ m_rest m -> w <> [] ->
  finditer p s = Hit m :: finditer p (m_rest m).
Proof.
  intros M E N. destruct w as [|c w]; [easy|]. unfold finditer. subst s.
  change ((c :: w) ++ m_rest m) with (c :: (w ++ m_rest m)) in *.
  cbn [scan]. rewrite M. f_equal. rewrite scan_skipn. f_equal.
  cbn [length]. rewrite length_app.
  replace (S (length w + length (m_rest m)) - length (m_rest m) - 1) with (length w) by lia.
  apply skipn_length_app.
Qed.

Lemma sub_nil (p : regex) (R : match_obj -> text) : sub p R [] = [].
Proof. reflexivity. Qed.

Lemma sub_skip (p : regex) (R : match_obj -> text) (c : char) (s : text) :
  match_at p (c :: s) = None -> sub p R (c :: s) = c :: sub p R s.
Proof. intros M. unfold sub. now rewrite finditer_skip. Qed.

Lemma sub_hit (p : regex) (R : match_obj -> text) (s w : text) (m : match_obj) :
  match_at p s = Some m -> s = w ++ m_rest m -> w <> [] ->
  sub p R s = R m ++ sub p R (m_rest m).
Proof. intros M E N. unfold sub. now rewrite (finditer_hit p s w m M E N). Qed.

Lemma findall_skip (p : regex) (c : char) (s : text) :
  match_at p (c :: s) = None -> findall p (c :: s) = findall p s.
Proof. intros M. unfold findall. now rewrite finditer_skip. Qed.

Lemma findall_hit (p : regex) (s w : text) (m : match_obj) :
  match_at p s = Some m -> s = w ++ m_rest m -> w <> [] ->
  findall p s = m :: findall p (m_rest m).
Proof. intros M E N. unfold findall. now rewrite (finditer_hit p s w m M E N). Qed.

(** Induction along the scan of a pattern that never matches the empty
    word: a character passed over, or a match taken and the scan resumed
    after it. *)
Lemma scan_ind (p : regex) (Q : text -> Prop) :
  nonempty p ->
  Q [] ->
  (forall c s, match_at p (c :: s) = None -> Q s -> Q (c :: s)) ->
  (forall s w m, match_at p s = Some m -> s = w ++ m_rest m -> w <> [] ->
                 spans p [] w (m_groups m) -> Q (m_rest m) -> Q s) ->
  forall s, Q s.
Proof.
  intros NE Hnil Hskip Hhit s.
  remember (length s) as n eqn:Len. revert s Len.
  induction n as [n IH] using lt_wf_ind. intros s Len.
  destruct s as [|c s]; [exact Hnil|].
  destruct (match_at p (c :: s)) as [m|] eqn:M.
  - destruct (match_at_sound _ _ _ M) as [w [E S]].
    assert (N : w <> []) by exact (NE _ _ S).
    apply (Hhit _ w m M E N S).
    apply (IH (length (m_rest m))); [|reflexivity].
    subst n. rewrite E, length_app. destruct w; [easy | simpl; lia].
  - apply Hskip; [exact M|]. apply (IH (length s)); [subst n; simpl; lia | reflexivity].
Qed.

(** No match of [p] starts anywhere in [c]. *)
Definition clean (p : regex) (c : text) : Prop :=
  forall pre s, c = pre ++ s -> match_at p s = None.

Lemma clean_suffix (p : regex) (pre s : text) : clean p (pre ++ s) -> clean p s.
Proof. intros C pre' s' ->. apply (C (pre ++ pre') s'). now rewrite app_assoc. Qed.

Lemma clean_finditer (p : regex) (c : text) :
  clean p c -> finditer p c = List.map Skip c.
Proof.
  induction c as [|x c IH]; intros C; [reflexivity|].
  rewrite finditer_skip by exact (C [] _ eq_refl). simpl. f_equal.
  apply IH. exact (clean_suffix p [x] c C).
Qed.

Lemma clean_findall (p : regex) (c : text) : clean p c -> findall p c = [].
Proof.
  intros C. unfold findall. rewrite (clean_finditer p c C). clear C.
  induction c; simpl; auto.
Qed.

Lemma clean_sub (p : regex) (R : match_obj -> text) (c : text) :
  clean p c -> sub p R c = c.
Proof.
  intros C. unfold sub. rewrite (clean_finditer p c C). clear C.
  induction c; simpl; [auto | now f_equal].
Qed.

(** [re.sub] changes nothing where [re.findall] finds nothing. *)
Lemma findall_nil_sub (p : regex) (R : match_obj -> text) (c : text) :
  findall p c = [] -> sub p R c = c.
Proof.
  unfold findall, sub, finditer. change c with (skipn 0 c) at 3.
  generalize 0 as k. induction c as [|x c IH]; intros k.
  - now destruct k.
  - destruct k as [|k]; cbn [scan skipn].
    + destruct (match_at p (x :: c)) as [m|]; simpl; [discriminate|].
      intros E. f_equal. exact (IH 0 E).
    + apply IH.
Qed.

Lemma findall_nil_clean (p : regex) (c : text) :
  nonempty p -> findall p c = [] -> clean p c.
Proof.
  intros NE. revert c. apply (scan_ind p (fun c => findall p c = [] -> clean p c) NE).
  - intros _ pre s E. symmetry in E. apply app_eq_nil in E as [_ ->].
    destruct (match_at p []) as [m|] eqn:M; [|reflexivity].
    destruct (match_at_sound _ _ _ M) as [w [E S]].
    symmetry in E. apply app_eq_nil in E as [-> _]. now apply NE in S.
  - intros x s M IH F pre s' E. rewrite findall_skip in F by exact M.
    destruct pre as [|y pre]; simpl in E.
    + now subst s'.
    + injection E as <- ->. exact (IH F pre s' eq_refl).
  - intros s w m M E N _ _ F. rewrite (findall_hit p s w m M E N) in F. discriminate.
Qed.

End ScanFacts.

(** * The shape shared by the rules

    Every rule's pattern opens with [logger\.error\(([^,]+),\s*\{], and
    every replacement opens with [logger.error(<group 1>,] followed by
    something other than a brace. The facts below are stated for any rule
    of that shape and are then established for each entry of [PATTERNS]. *)

Definition LE : text := Eval cbv in str "logger.error(".
Definition comma : char := Eval cbv in ch ",".
Definition lbrace : char := Eval cbv in ch "{".
Definition lparen : char := Eval cbv in ch "(".
Definition rbrace : char := Eval cbv in ch "}".

Arguments LE : simpl never.

(** Normal form of concatenations: nested to the right, literals folded. *)
Ltac norm_app := repeat rewrite <- app_assoc; cbn [app].
Tactic Notation "norm_app" "in" hyp(H) := repeat rewrite <- app_assoc in H; cbn [app] in H.

Section ListFacts.
Variable f : char -> bool.

(** The first character outside a set splits a text in one way only. *)
Lemma split_first (u u' : text) (x x' : char) (r r' : text) :
  forallb f u = true -> forallb f u' = true -> f x = false -> f x' = false ->
  u ++ x :: r = u' ++ x' :: r' -> u = u' /\ x = x' /\ r = r'.
Proof.
  revert u'; induction u as [|a u IH]; intros [|b u']; simpl; intros F F' X X' E.
  - now injection E as -> ->.
  - injection E as -> E. apply andb_true_iff in F' as [F' _]. congruence.
  - injection E as -> E. apply andb_true_iff in F as [F _]. congruence.
  - injection E as -> E. apply andb_true_iff in F as [_ F].
    apply andb_true_iff in F' as [_ F'].
    destruct (IH u' F F' X X' E) as [-> [-> ->]]. easy.
Qed.

Lemma forallb_false_split (u : text) :
  forallb f u = false ->
  exists u1 x u2, u = u1 ++ x :: u2 /\ forallb f u1 = true /\ f x = false.
Proof.
  induction u as [|a u IH]; simpl; [discriminate|].
  destruct (f a) eqn:Fa; simpl.
  - intros F. destruct (IH F) as [u1 [x [u2 [-> [F1 X]]]]].
    exists (a :: u1), x, u2. simpl. now rewrite Fa.
  - intros _. now exists [], a, u.
Qed.

Lemma forallb_not_In (u : text) (c : char) :
  forallb f u = true -> f c = false -> ~ In c u.
Proof.
  intros F C I. rewrite forallb_forall in F. apply F in I. congruence.
Qed.

End ListFacts.

Section RuleShape.
Context {T : CharTables}.

(** [r] continues with optional whitespace and an opening brace. *)
Definition brace_next (r : text) : Prop :=
  exists w r', r = w ++ lbrace :: r' /\ forallb is_space w = true.

Lemma brace_next_app (t y : text) : brace_next t -> brace_next (t ++ y).
Proof.
  intros [w [r' [-> F]]]. exists w, (r' ++ y). now rewrite <- app_assoc.
Qed.

Definition no_comma (g : text) : Prop := forallb (mem not_comma) g = true.

Lemma no_comma_LE : no_comma LE.
Proof. reflexivity. Qed.

Lemma no_comma_app (a b : text) : no_comma (a ++ b) <-> no_comma a /\ no_comma b.
Proof. unfold no_comma. rewrite forallb_app. apply andb_true_iff. Qed.

Lemma comma_is_comma : mem not_comma comma = false.
Proof. reflexivity. Qed.

(** What any match of the pattern looks like: the call's opening, a first
    argument without comma (group 1), a comma, then a brace; and past that
    comma no parenthesis comes before a further comma. *)
Definition head_shape (P : regex) : Prop :=
  forall w gs, spans P [] w gs ->
    exists g t,
      w = LE ++ g ++ comma :: t /\ g <> [] /\ no_comma g /\ nth 0 gs [] = g /\
      brace_next t /\ (forall a b, t = a ++ comma :: b -> ~ In lparen a).

(** What any replacement looks like: the opening and group 1 kept, and after
    the comma a text [x] that does not continue with a brace and in which no
    call opens. *)
Definition repl_shape (P : regex) (R : match_obj -> text) : Prop :=
  forall w gs rest, spans P [] w gs ->
    exists x,
      R (mkmatch rest gs) = LE ++ nth 0 gs [] ++ comma :: x /\
      (forall y, ~ brace_next (x ++ y)) /\
      (forall z z' y, x = z ++ z' -> z' <> [] -> starts_with LE (z' ++ y) = false).

Definition rule_ok (p : pattern) : Prop :=
  head_shape (search p) /\ repl_shape (search p) (replace p).

Lemma head_shape_nonempty (P : regex) : head_shape P -> nonempty P.
Proof.
  intros H w gs S. destruct (H w gs S) as [g [t [-> _]]]. discriminate.
Qed.

Lemma match_shape (P : regex) (s : text) (m : match_obj) :
  head_shape P -> match_at P s = Some m ->
  exists g t,
    s = LE ++ g ++ comma :: t ++ m_rest m /\ g <> [] /\ no_comma g /\
    group m 1 = g /\ brace_next t /\
    (forall a b, t = a ++ comma :: b -> ~ In lparen a) /\
    spans P [] (LE ++ g ++ comma :: t) (m_groups m).
Proof.
  intros H M. destruct (match_at_sound _ _ _ M) as [w [E S]].
  destruct (H w _ S) as [g [t [-> [N [C [G [B F]]]]]]].
  exists g, t. repeat split; auto.
  rewrite E. repeat rewrite <- app_assoc. reflexivity.
Qed.

Lemma no_match_nil (P : regex) : head_shape P -> match_at P [] = None.
Proof.
  intros H. destruct (match_at P []) as [m|] eqn:M; [|reflexivity].
  destruct (match_shape P [] m H M) as [g [t [E _]]]. discriminate.
Qed.

(** No match of a shaped pattern starts inside a replacement. *)
Lemma repl_no_match (P Pk : regex) (R : match_obj -> text)
      (w : text) (gs : list text) (rest z z' y : text) :
  head_shape P -> repl_shape P R -> head_shape Pk ->
  spans P [] w gs -> R (mkmatch rest gs) = z ++ z' -> z' <> [] ->
  match_at Pk (z' ++ y) = None.
Proof.
  intros HP HR HK S E N.
  destruct (match_at Pk (z' ++ y)) as [m'|] eqn:M; [exfalso|reflexivity].
  destruct (match_shape Pk _ m' HK M) as [g' [t' [E1 [_ [C' [_ [B' _]]]]]]].
  destruct (HR w gs rest S) as [x [ER [NB NL]]].
  destruct (HP w gs S) as [g [t [_ [_ [C [G _]]]]]]. rewrite G in ER.
  rewrite ER in E.
  assert (SW : starts_with LE (z' ++ y) = true)
    by (rewrite E1; apply starts_with_app).
  replace (LE ++ g ++ comma :: x) with ((LE ++ g ++ [comma]) ++ x) in E
    by (repeat rewrite <- app_assoc; reflexivity).
  symmetry in E. apply app_eq_app in E as [l [[E2 E3] | [E2 E3]]].
  - rewrite (NL l z' y E3 N) in SW. discriminate.
  - destruct l as [|c0 l0].
    + simpl in E3. subst z'. rewrite (NL [] x y eq_refl N) in SW. discriminate.
    + destruct (exists_last (l:=c0 :: l0)) as [v [c Ev]]; [discriminate|].
      rewrite Ev in *. clear Ev c0 l0.
      rewrite !app_assoc in E2. apply app_inj_tail in E2 as [E2 <-].
      assert (Cv : no_comma v).
      { assert (Cz : no_comma (z ++ v)).
        { rewrite <- E2. apply no_comma_app.
          split; [apply no_comma_LE | exact C]. }
        apply no_comma_app in Cz. tauto. }
      subst z'. rewrite <- !app_assoc in E1. cbn [app] in E1.
      replace (LE ++ g' ++ comma :: t' ++ m_rest m')
        with ((LE ++ g') ++ comma :: (t' ++ m_rest m')) in E1
        by (repeat rewrite <- app_assoc; reflexivity).
      apply (split_first (mem not_comma)) in E1 as [_ [_ E1]];
        try exact comma_is_comma; try exact Cv.
      * apply (NB y). rewrite E1. now apply brace_next_app.
      * apply no_comma_app. split; [apply no_comma_LE | exact C'].
Qed.

(** Either the substitution finds nothing, or the subject and the result
    agree up to the comma of the first match, where the subject continues
    with a brace and the result does not. *)
Lemma first_hit (P : regex) (R : match_obj -> text) (c : text) :
  head_shape P -> repl_shape P R ->
  (findall P c = [] /\ sub P R c = c) \/
  (findall P c <> [] /\
   exists u g y y',
     c = u ++ LE ++ g ++ comma :: y /\
     sub P R c = u ++ LE ++ g ++ comma :: y' /\
     no_comma g /\ brace_next y /\ ~ brace_next y').
Proof.
  intros HP HR. revert c. apply (scan_ind P); [now apply head_shape_nonempty | | | ].
  - left. now split.
  - intros x s M [[F E] | [F [u [g [y [y' [E [E' [C [B NB]]]]]]]]]].
    + left. rewrite findall_skip, sub_skip by exact M. split; [exact F | now f_equal].
    + right. rewrite findall_skip, sub_skip by exact M. split; [exact F|].
      exists (x :: u), g, y, y'. cbn [app]. rewrite E at 1. rewrite E'. easy.
  - intros s w m M E N S _. right.
    rewrite (findall_hit P s w m M E N), (sub_hit P R s w m M E N).
    split; [discriminate|].
    destruct (HP w _ S) as [g [t [Ew [_ [C [G [B _]]]]]]].
    destruct m as [rest gs]. cbn [m_rest m_groups] in *.
    destruct (HR w gs rest S) as [x [ER [NB _]]]. rewrite G in ER.
    exists [], g, (t ++ rest), (x ++ sub P R rest). cbn [app]. repeat split.
    + rewrite E, Ew. repeat rewrite <- app_assoc. reflexivity.
    + rewrite ER. repeat rewrite <- app_assoc. reflexivity.
    + exact C.
    + now apply brace_next_app.
    + apply NB.
Qed.

(** A match in the result of a substitution was a match in its subject. *)
Lemma match_transfer (P Pk : regex) (R : match_obj -> text) (c : text) (m' : match_obj) :
  head_shape P -> repl_shape P R -> head_shape Pk ->
  match_at Pk (sub P R c) = Some m' -> exists m, match_at Pk c = Some m.
Proof.
  intros HP HR HK M.
  destruct (first_hit P R c HP HR) as [[_ E] | [_ [u [g [y [y' [E [E' [C [B NB]]]]]]]]]].
  { rewrite E in M. now exists m'. }
  destruct (match_shape Pk _ m' HK M) as [g' [t' [E1 [_ [C' [_ [B' [F' S']]]]]]]].
  rewrite E' in E1.
  destruct (forallb (mem not_comma) u) eqn:Cu.
  - exfalso. apply NB.
    replace (u ++ LE ++ g ++ comma :: y') with ((u ++ LE ++ g) ++ comma :: y') in E1
      by (norm_app; reflexivity).
    replace (LE ++ g' ++ comma :: t' ++ m_rest m')
      with ((LE ++ g') ++ comma :: (t' ++ m_rest m')) in E1 by (norm_app; reflexivity).
    apply (split_first (mem not_comma)) in E1 as [_ [_ E1]]; try exact comma_is_comma.
    + rewrite E1. now apply brace_next_app.
    + apply no_comma_app. split; [exact Cu|].
      apply no_comma_app. split; [apply no_comma_LE | exact C].
    + apply no_comma_app. split; [apply no_comma_LE | exact C'].
  - apply forallb_false_split in Cu as [u1 [x [u2 [-> [C1 X]]]]].
    replace ((u1 ++ x :: u2) ++ LE ++ g ++ comma :: y')
      with (u1 ++ x :: ((u2 ++ LE ++ g) ++ comma :: y')) in E1 by (norm_app; reflexivity).
    replace (LE ++ g' ++ comma :: t' ++ m_rest m')
      with ((LE ++ g') ++ comma :: (t' ++ m_rest m')) in E1 by (norm_app; reflexivity).
    apply (split_first (mem not_comma)) in E1 as [-> [-> E1]];
      try exact comma_is_comma; try exact C1; try exact X.
    2:{ apply no_comma_app. split; [apply no_comma_LE | exact C']. }
    assert (Pre : exists l, u2 ++ LE ++ g = t' ++ l).
    { apply app_eq_app in E1 as [l [[E2 _] | [E2 E3]]]; [now exists l|].
      destruct l as [|c0 l].
      - exists []. now rewrite app_nil_r in *.
      - exfalso. cbn [app] in E3. injection E3 as <- _.
        apply (F' _ _ E2). apply in_or_app. right. apply in_or_app. left.
        unfold LE, lparen. simpl. tauto. }
    destruct Pre as [l El].
    apply (match_at_complete Pk (LE ++ g' ++ comma :: t') (l ++ comma :: y) (m_groups m')) in S'.
    replace ((LE ++ g' ++ comma :: t') ++ l ++ comma :: y) with c in S'; [exact S'|].
    assert (El' : forall z, u2 ++ LE ++ g ++ z = t' ++ l ++ z).
    { intros z. rewrite (app_assoc LE g z), (app_assoc u2 (LE ++ g) z), El.
      now rewrite <- app_assoc. }
    rewrite E. norm_app. now rewrite El'.
Qed.

(** A substitution introduces no match: for the rule's own pattern the
    result is clean, and a pattern the subject was clean for stays so. *)
Lemma clean_step (P Pk : regex) (R : match_obj -> text) (c : text) :
  head_shape P -> repl_shape P R -> head_shape Pk ->
  Pk = P \/ clean Pk c -> clean Pk (sub P R c).
Proof.
  intros HP HR HK. revert c.
  apply (scan_ind P (fun c => Pk = P \/ clean Pk c -> clean Pk (sub P R c)));
    [now apply head_shape_nonempty | | | ].
  - intros _ pre s E. rewrite sub_nil in E. symmetry in E.
    apply app_eq_nil in E as [_ ->]. now apply no_match_nil.
  - intros x s M IH H pre s0 E.
    destruct pre as [|x' pre].
    + cbn [app] in E. subst s0.
      destruct (match_at Pk (sub P R (x :: s))) as [m'|] eqn:M'; [exfalso|reflexivity].
      destruct (match_transfer P Pk R (x :: s) m' HP HR HK M') as [m0 M0].
      destruct H as [-> | H]; [congruence|].
      rewrite (H [] (x :: s) eq_refl) in M0. discriminate.
    + rewrite sub_skip in E by exact M. cbn [app] in E. injection E as <- E.
      refine (IH _ pre s0 E).
      destruct H as [H | H]; [now left | right]. exact (clean_suffix Pk [x] s H).
  - intros s w m M E N S IH H pre s0 E0.
    rewrite (sub_hit P R s w m M E N) in E0.
    assert (IH' : clean Pk (sub P R (m_rest m))).
    { apply IH. destruct H as [H | H]; [now left | right].
      rewrite E in H. exact (clean_suffix Pk w _ H). }
    symmetry in E0. apply app_eq_app in E0 as [l [[E1 E2] | [E1 E2]]].
    + exact (IH' l s0 E2).
    + destruct l as [|c0 l].
      * cbn [app] in E2. exact (IH' [] s0 (eq_sym E2)).
      * rewrite E2. destruct m as [rest gs]. cbn [m_rest m_groups] in *.
        apply (repl_no_match P Pk R w gs rest pre (c0 :: l) (sub P R rest) HP HR HK S E1).
        discriminate.
Qed.

End RuleShape.

(** * One pass over a table of shaped rules *)

Section Pass.
Context {T : CharTables}.

(** The content after the rules of [ps], counts left aside. *)
Definition pass (ps : list pattern) (c : text) : text :=
  fold_left (fun c p => sub (search p) (replace p) c) ps c.

Lemma apply_pattern_fst (st : text * nat) (p : pattern) :
  fst (apply_pattern st p) = sub (search p) (replace p) (fst st).
Proof.
  destruct st as [c n]. unfold apply_pattern. cbn [fst].
  destruct (findall (search p) c) eqn:F; cbn [fst]; [|reflexivity].
  symmetry. now apply findall_nil_sub.
Qed.

Lemma fold_apply_pattern_fst (ps : list pattern) (st : text * nat) :
  fst (fold_left apply_pattern ps st) = pass ps (fst st).
Proof.
  revert st; induction ps as [|p ps IH]; intros st; [reflexivity|].
  cbn [fold_left pass]. rewrite IH, apply_pattern_fst. reflexivity.
Qed.

Lemma apply_patterns_fst (ps : list pattern) (c : text) :
  fst (apply_patterns ps c) = pass ps c.
Proof. apply fold_apply_pattern_fst. Qed.

Lemma apply_pattern_clean (p : pattern) (c : text) (n : nat) :
  clean (search p) c -> apply_pattern (c, n) p = (c, n).
Proof. intros C. unfold apply_pattern. now rewrite (clean_findall _ _ C). Qed.

Lemma fold_apply_pattern_clean (ps : list pattern) (c : text) (n : nat) :
  Forall (fun p => clean (search p) c) ps -> fold_left apply_pattern ps (c, n) = (c, n).
Proof.
  induction 1 as [|p ps C _ IH]; [reflexivity|].
  cbn [fold_left]. now rewrite apply_pattern_clean.
Qed.

Lemma pass_clean (ps done : list pattern) (c : text) :
  Forall rule_ok ps -> Forall rule_ok done ->
  Forall (fun p => clean (search p) c) done ->
  Forall (fun p => clean (search p) (pass ps c)) (done ++ ps).
Proof.
  revert done c; induction ps as [|p ps IH]; intros done c OK OKd C.
  - now rewrite app_nil_r.
  - inversion OK as [|? ? [HP HR] OK']; subst.
    cbn [pass fold_left]. change (done ++ p :: ps) with (done ++ [p] ++ ps).
    rewrite app_assoc. apply IH; [exact OK' | |].
    + apply Forall_app. split; [exact OKd | now repeat constructor].
    + apply Forall_app. split.
      * rewrite Forall_forall in *. intros q Q. destruct (OKd q Q) as [HQ _].
        apply clean_step; auto.
      * repeat constructor. apply clean_step; auto.
Qed.

(** After one pass no rule matches any more, and a second pass returns the
    content as it is, with no fix counted. *)
Theorem shaped_table_idempotent (ps : list pattern) (c : text) :
  Forall rule_ok ps ->
  Forall (fun p => findall (search p) (fst (apply_patterns ps c)) = []) ps /\
  apply_patterns ps (fst (apply_patterns ps c)) = (fst (apply_patterns ps c), 0).
Proof.
  intros OK. rewrite apply_patterns_fst.
  assert (C : Forall (fun p => clean (search p) (pass ps c)) ps).
  { apply (pass_clean ps [] c OK); constructor. }
  split.
  - rewrite Forall_forall in *. intros p I. apply clean_findall. now apply C.
  - unfold apply_patterns. now apply fold_apply_pattern_clean.
Qed.

End Pass.

(** * The rules of [PATTERNS] have the shared shape *)

(** [clash a b]: [a] and [b] differ at a position both have, so neither
    starts with the other whatever follows. *)
Fixpoint clash (a b : text) : bool :=
  match a, b with
  | x :: a', y :: b' => negb (char_eqb x y) || clash a' b'
  | _, _ => false
  end.

(** Every non-empty suffix of [x] clashes with the call's opening. *)
Fixpoint all_clash (x : text) : bool :=
  match x with
  | [] => true
  | _ :: x' => clash LE x && all_clash x'
  end.

(** [lit] clashes with what is left of the opening after some letters of
    [logger] have gone by. *)
Definition cont_clash (lit : text) : bool :=
  forallb (fun i => clash (skipn i LE) lit) (seq 1 6).

(** The same for what is left after any proper, non-empty part of the
    opening has gone by. *)
Definition cont_clash_all (lit : text) : bool :=
  forallb (fun k => clash (skipn k LE) lit) (seq 1 12).

Lemma clash_starts (a b y : text) : clash a b = true -> starts_with a (b ++ y) = false.
Proof.
  revert b; induction a as [|x a IH]; intros [|c b]; simpl; try discriminate.
  destruct (char_eqb x c); simpl; [apply IH | reflexivity].
Qed.

Section RuleFacts.
Context {T : CharTables}.

(** No call opens at a non-empty suffix of [x] when [k] follows. *)
Definition no_call (x k : text) : Prop :=
  forall z z', x = z ++ z' -> z' <> [] -> starts_with LE (z' ++ k) = false.

Lemma no_call_app (a b k : text) :
  no_call a (b ++ k) -> no_call b k -> no_call (a ++ b) k.
Proof.
  intros Ha Hb z z' E N. symmetry in E.
  apply app_eq_app in E as [l [[E1 E2] | [E1 E2]]].
  - exact (Hb l z' E2 N).
  - destruct l as [|c l].
    + cbn [app] in E2. subst z'. exact (Hb [] b eq_refl N).
    + subst z'. rewrite <- app_assoc. apply (Ha z (c :: l) E1). discriminate.
Qed.

Lemma no_call_lit (lit k : text) : all_clash lit = true -> no_call lit k.
Proof.
  intros C z z' E N. apply clash_starts. revert lit C E.
  induction z as [|c z IH]; intros lit C E.
  - cbn [app] in E. subst z'. destruct lit as [|c lit]; [easy|].
    cbn [all_clash] in C. now apply andb_true_iff in C.
  - subst lit. cbn [app all_clash] in C. apply andb_true_iff in C as [_ C].
    exact (IH _ C eq_refl).
Qed.

(** A run of characters of one set that a text [a ++ b] starts with, where
    [b] opens outside the set, ends inside [a]. *)
Lemma starts_with_run (f : char -> bool) (a b G k : text) (c : char) (b' : text) :
  b = c :: b' -> f c = false -> forallb f G = true ->
  starts_with (a ++ b) (G ++ k) = true ->
  starts_with (skipn (length G) (a ++ b)) k = true /\ length G <= length a.
Proof.
  intros -> Fc. revert G; induction a as [|x a IH]; intros [|g G] F H.
  - now split.
  - cbn in H. cbn in F. apply andb_true_iff in H as [H _].
    apply char_eqb_eq in H as <-. apply andb_true_iff in F as [F _]. congruence.
  - split; [exact H | cbn; lia].
  - cbn [app starts_with] in H. apply andb_true_iff in H as [_ H].
    cbn in F. apply andb_true_iff in F as [_ F].
    destruct (IH G F H) as [H1 H2]. split; [exact H1 | simpl; lia].
Qed.

Lemma no_call_word (G k : text) :
  forallb is_word G = true ->
  (forall i, In i (seq 1 6) -> starts_with (skipn i LE) k = false) ->
  no_call G k.
Proof.
  intros F K z z' E N.
  destruct (starts_with LE (z' ++ k)) eqn:H; [exfalso|reflexivity].
  assert (F' : forallb is_word z' = true).
  { rewrite E, forallb_app in F. now apply andb_true_iff in F. }
  destruct (starts_with_run is_word (firstn 6 LE) (skipn 6 LE) z' k
              (ch ".") (skipn 7 LE) eq_refl eq_refl F' H) as [H1 H2].
  change (firstn 6 LE ++ skipn 6 LE) with LE in H1.
  rewrite K in H1; [discriminate|].
  change (length (firstn 6 LE)) with 6 in H2.
  apply in_seq. destruct z'; [easy|]. cbn [length] in H2 |- *. lia.
Qed.

Lemma no_call_word_lit (G lit y : text) :
  forallb is_word G = true -> cont_clash lit = true -> no_call G (lit ++ y).
Proof.
  intros F C. apply no_call_word; [exact F|]. intros i I. apply clash_starts.
  unfold cont_clash in C. rewrite forallb_forall in C. now apply C.
Qed.

Lemma mem_space (c : char) : mem space c = is_space c.
Proof. unfold mem, space. cbn. apply orb_false_r. Qed.

Lemma mem_word (c : char) : mem word c = is_word c.
Proof. unfold mem, word. cbn. apply orb_false_r. Qed.

Lemma forallb_eq (f g : char -> bool) (w : text) :
  (forall c, f c = g c) -> forallb f w = forallb g w.
Proof. intros E. induction w as [|c w IH]; simpl; [easy | now rewrite E, IH]. Qed.

Lemma ident_range (c : char) :
  mem ident c = true ->
  ((97 <= c <= 122) \/ (65 <= c <= 90) \/ c = 95)%N.
Proof.
  unfold mem, ident. cbn. unfold in_range, char_eqb.
  rewrite !orb_true_iff, !andb_true_iff, !N.leb_le, N.eqb_eq.
  intuition discriminate.
Qed.

Lemma ident_is_word (c : char) : mem ident c = true -> is_word c = true.
Proof.
  intros H. apply ident_range in H. unfold is_word.
  destruct (N.ltb_spec c 128); [|lia].
  unfold ascii_word, in_range, char_eqb.
  rewrite !orb_true_iff, !andb_true_iff, !N.leb_le, N.eqb_eq. lia.
Qed.

Lemma ident_not_space (c : char) : mem ident c = true -> is_space c = false.
Proof.
  intros H. apply ident_range in H. unfold is_space.
  destruct (N.ltb_spec c 128); [|lia].
  unfold ascii_space, in_range.
  rewrite orb_false_iff, !andb_false_iff, !N.leb_gt. lia.
Qed.

Lemma forallb_ident_word (g : text) :
  forallb (mem ident) g = true -> forallb is_word g = true.
Proof.
  rewrite !forallb_forall. intros H c I. apply ident_is_word. now apply H.
Qed.

(** A text whose second character is neither white space nor a brace, and
    whose first is no brace, does not continue with a brace. *)
Lemma not_brace_next (c1 c2 : char) (r : text) :
  c1 <> lbrace -> c2 <> lbrace -> is_space c2 = false ->
  ~ brace_next (c1 :: c2 :: r).
Proof.
  intros N1 N2 S2 [w [r' [E F]]].
  destruct w as [|a [|b w]]; cbn in E; injection E; intros; subst; try congruence.
  cbn in F. rewrite S2 in F. now rewrite andb_false_r in F.
Qed.

(** Past the first comma of a match: no parenthesis before a further comma,
    as soon as the text has no parenthesis at all, or no comma at all. *)
Lemma no_paren_before_comma (t : text) :
  ~ In lparen t \/ ~ In comma t ->
  forall a b, t = a ++ comma :: b -> ~ In lparen a.
Proof.
  intros [H | H] a b -> I; apply H; apply in_or_app; [now left | right; now left].
Qed.

(** The opening shared by the eight patterns. *)
Definition head : regex :=
  [L "logger.error("; Grp [Plus not_comma]; L ","; ws; L "{"].

(** What the rest of a pattern must ensure for [head_shape]. *)
Definition tail_ok (tl : regex) : Prop :=
  forall g t gs, spans tl [g] t gs ->
    nth 0 gs [] = g /\ (~ In lparen t \/ ~ In comma t).

Lemma head_shape_of_tail (tl : regex) : tail_ok tl -> head_shape (head ++ tl).
Proof.
  intros TL w gs S.
  cbn [head app spans token_spans atoms_span atom_spans L ws] in S.
  destruct S as [w1 [r1 [g1 [-> [[-> ->] S]]]]].
  destruct S as [w2 [r2 [g2 [-> [[[a [b [-> [[N C] ->]]]] ->] S]]]]].
  destruct S as [w3 [r3 [g3 [-> [[-> ->] S]]]]].
  destruct S as [w4 [r4 [g4 [-> [[F ->] S]]]]].
  destruct S as [w5 [r5 [g5 [-> [[-> ->] S]]]]].
  rewrite app_nil_r in *. cbn [app] in S.
  destruct (TL a r5 gs S) as [G TF].
  rewrite (forallb_eq _ _ w4 mem_space) in F.
  exists a, (w4 ++ lbrace :: r5). repeat split; auto.
  - exists w4, r5. now split.
  - apply no_paren_before_comma.
    destruct TF as [H | H]; [left | right]; intros I;
      apply in_app_or in I as [I | [I | I]]; try discriminate; try (now apply H);
      match type of I with In ?c _ => exact (forallb_not_In is_space w4 c F eq_refl I) end.
Qed.

End RuleFacts.

(** ** Each entry of the table *)

(** The entry at position [k] of [PATTERNS], counted from 0. *)
Definition rule (k : nat) : pattern := nth k PATTERNS (mkpattern [] (fun _ => []) "").

(** What follows the shared opening in the pattern at position [k]. *)
Definition tail (k : nat) : regex := skipn 5 (search (rule k)).

Ltac break :=
  repeat match goal with
  | H : exists _, _ |- _ => destruct H
  | H : _ /\ _ |- _ => destruct H
  end.

(** Unfolds what a pattern of the table spans into its pieces. *)
Ltac open_spans Hs :=
  cbn [tail rule nth PATTERNS search skipn spans token_spans atoms_span atom_spans
       L ws ws1] in Hs;
  break; subst; rewrite ?app_nil_r in *; cbn [app nth nth_error] in *;
  repeat match goal with
  | H : Datatypes.S _ = Datatypes.S _ |- _ =>
      injection H as H; subst; cbn [nth_error] in *
  | H : Some _ = Some _ |- _ => injection H as H; subst
  end.

Ltac open_rule Hs :=
  open_spans Hs; cbn [replace rule nth PATTERNS group m_groups Nat.sub].

(** A character is in none of the pieces of a text. *)
Ltac absent :=
  let I := fresh "I" in
  intros I;
  repeat (apply in_app_or in I; destruct I as [I | I]);
  first
    [ now (compute in I; intuition discriminate)
    | match type of I with
      | In ?c ?w =>
          match goal with
          | F : forallb ?f w = true |- _ => exact (forallb_not_In f w c F eq_refl I)
          end
      end ].

Ltac lit_compute :=
  repeat match goal with
  | |- context [str ?s] => let v := eval vm_compute in (str s) in change (str s) with v
  end.

Ltac no_brace :=
  intros ?; lit_compute; cbn [app]; apply not_brace_next;
  [discriminate | discriminate | reflexivity].

Ltac word_run :=
  repeat rewrite forallb_app; repeat (apply andb_true_iff; split);
  first
    [ reflexivity
    | apply forallb_ident_word; assumption
    | match goal with
      | F : forallb (mem word) ?g = true |- forallb is_word ?g = true =>
          rewrite <- (forallb_eq _ _ g mem_word); exact F
      end ].

Ltac no_calls :=
  intros ? ? ?;
  match goal with
  | |- ?x = ?z ++ ?z' -> _ -> starts_with LE (?z' ++ ?y) = false =>
      revert z z'; change (no_call x y)
  end;
  repeat first
    [ apply no_call_lit; vm_compute; reflexivity
    | apply no_call_word_lit; [word_run | vm_compute; reflexivity]
    | apply no_call_app ].

Section Table.
Context {T : CharTables}.

Lemma tail_ok_0 : tail_ok (tail 0).
Proof. intros g t gs S. open_spans S. split; [reflexivity|]. left. absent. Qed.

Lemma tail_ok_1 : tail_ok (tail 1).
Proof. intros g t gs S. open_spans S. split; [reflexivity|]. left. absent. Qed.

Lemma tail_ok_2 : tail_ok (tail 2).
Proof. intros g t gs S. open_spans S. split; [reflexivity|]. left. absent. Qed.

Lemma tail_ok_3 : tail_ok (tail 3).
Proof. intros g t gs S. open_spans S. split; [reflexivity|]. left. absent. Qed.

Lemma tail_ok_4 : tail_ok (tail 4).
Proof. intros g t gs S. open_spans S. split; [reflexivity|]. left. absent. Qed.

(** The conditional's fallback may hold parentheses, but the pattern then
    spans no comma past the first. *)
Lemma tail_ok_5 : tail_ok (tail 5).
Proof. intros g t gs S. open_spans S. split; [reflexivity|]. right. absent. Qed.

Lemma tail_ok_6 : tail_ok (tail 6).
Proof. intros g t gs S. open_spans S. split; [reflexivity|]. left. absent. Qed.

Lemma tail_ok_7 : tail_ok (tail 7).
Proof. intros g t gs S. open_spans S. split; [reflexivity|]. left. absent. Qed.

Lemma repl_shape_0 : repl_shape (search (rule 0)) (replace (rule 0)).
Proof.
  intros w gs rest S. open_rule S.
  exists (str " new Error(errorMessage), {").
  split; [reflexivity|]. split; [no_brace | no_calls].
Qed.

Lemma repl_shape_1 : repl_shape (search (rule 1)) (replace (rule 1)).
Proof.
  intros w gs rest S. open_rule S.
  exists (str " new Error(errorMessage))").
  split; [reflexivity|]. split; [no_brace | no_calls].
Qed.

Lemma repl_shape_2 : repl_shape (search (rule 2)) (replace (rule 2)).
Proof.
  intros w gs rest S. open_rule S.
  eexists (str " new Error(" ++ _ ++ str ".message), {").
  split; [reflexivity|]. split; [no_brace | no_calls].
Qed.

Lemma repl_shape_3 : repl_shape (search (rule 3)) (replace (rule 3)).
Proof.
  intros w gs rest S. open_rule S.
  eexists (str " new Error(" ++ _ ++ str ".message))").
  split; [reflexivity|]. split; [no_brace | no_calls].
Qed.

Lemma repl_shape_4 : repl_shape (search (rule 4)) (replace (rule 4)).
Proof.
  intros w gs rest S. open_rule S.
  exists (str " new Error(result.error))").
  split; [reflexivity|]. split; [no_brace | no_calls].
Qed.

Lemma repl_shape_5 : repl_shape (search (rule 5)) (replace (rule 5)).
Proof.
  intros w gs rest S. open_rule S.
  exists (str " err instanceof Error ? err : new Error(String(err)))").
  split; [reflexivity|]. split; [no_brace | no_calls].
Qed.

Lemma repl_shape_6 : repl_shape (search (rule 6)) (replace (rule 6)).
Proof.
  intros w gs rest S. open_rule S.
  eexists (str " new Error(" ++ _ ++ str ".message), { " ++ _ ++ str "Type: '" ++ _
           ++ str "',").
  split; [reflexivity|]. split; [no_brace | no_calls].
Qed.

Lemma repl_shape_7 : repl_shape (search (rule 7)) (replace (rule 7)).
Proof.
  intros w gs rest S. open_rule S.
  eexists (str " " ++ _ ++ str ", {"). split; [reflexivity|]. split; [|no_calls].
  intros y.
  match goal with
  | N : ?g <> [], F : forallb (mem ident) ?g = true |- _ =>
      destruct g as [|c g']; [easy|]; cbn [forallb] in F;
      apply andb_true_iff in F as [Fc _]
  end.
  lit_compute. cbn [app]. apply not_brace_next.
  - discriminate.
  - intros ->. discriminate.
  - now apply ident_not_space.
Qed.

Lemma rule_ok_of (k : nat) :
  tail_ok (tail k) -> repl_shape (head ++ tail k) (replace (rule k)) ->
  search (rule k) = head ++ tail k -> rule_ok (rule k).
Proof.
  intros TL RS E. unfold rule_ok. rewrite E. split; [now apply head_shape_of_tail | exact RS].
Qed.

(** Every entry of the table has the shared shape. *)
Lemma PATTERNS_ok : Forall rule_ok PATTERNS.
Proof.
  unfold PATTERNS.
  repeat match goal with
  | |- Forall _ (_ :: _) => apply Forall_cons
  | |- Forall _ [] => apply Forall_nil
  end.
  - exact (rule_ok_of 0 tail_ok_0 repl_shape_0 eq_refl).
  - exact (rule_ok_of 1 tail_ok_1 repl_shape_1 eq_refl).
  - exact (rule_ok_of 2 tail_ok_2 repl_shape_2 eq_refl).
  - exact (rule_ok_of 3 tail_ok_3 repl_shape_3 eq_refl).
  - exact (rule_ok_of 4 tail_ok_4 repl_shape_4 eq_refl).
  - exact (rule_ok_of 5 tail_ok_5 repl_shape_5 eq_refl).
  - exact (rule_ok_of 6 tail_ok_6 repl_shape_6 eq_refl).
  - exact (rule_ok_of 7 tail_ok_7 repl_shape_7 eq_refl).
Qed.

(** No pattern of the table matches the empty word. *)
Lemma PATTERNS_nonempty : Forall (fun p => nonempty (search p)) PATTERNS.
Proof.
  pose proof PATTERNS_ok as OK. rewrite Forall_forall in *.
  intros p I. apply head_shape_nonempty. now apply OK.
Qed.

Lemma rule_ok_nth (k : nat) : k < length PATTERNS -> rule_ok (rule k).
Proof.
  intros H. pose proof PATTERNS_ok as OK. rewrite Forall_forall in OK.
  apply OK. unfold rule. now apply nth_In.
Qed.

End Table.

(** * A text that holds one call, and one comma *)

(** The start of every pattern up to the first comma. *)
Definition call3 : regex := [L "logger.error("; Grp [Plus not_comma]; L ","].

Section CallSite.
Context {T : CharTables}.

Lemma contains_char (c : char) (X : text) : contains [c] X = false <-> ~ In c X.
Proof.
  induction X as [|x X IH]; cbn [contains starts_with In].
  - tauto.
  - rewrite orb_false_iff, andb_true_r, IH. unfold char_eqb. rewrite N.eqb_neq.
    intuition congruence.
Qed.

Lemma no_comma_iff (X : text) : no_comma X <-> ~ In comma X.
Proof.
  unfold no_comma. induction X as [|x X IH]; cbn [forallb In]; [tauto|].
  rewrite andb_true_iff, IH. unfold mem, not_comma. cbn. unfold char_eqb.
  change 44%N with comma.
  destruct (N.eqb_spec x comma); cbn; intuition congruence.
Qed.

Lemma contains_no_comma (X : text) : contains (str ",") X = false -> no_comma X.
Proof. intros H. apply no_comma_iff. now apply (contains_char comma). Qed.

(** The longest run comes first among the ways a greedy repetition can
    end, and every other way stops at a character of the set. *)
Lemma star_alts_first (cs : cset) (u : text) (c : char) (t : text) :
  forallb (mem cs) u = true -> mem cs c = false ->
  exists others,
    star_alts cs (u ++ c :: t) = (c :: t) :: others /\
    forall r, In r others -> exists y r', r = y :: r' /\ mem cs y = true.
Proof.
  intros F C. induction u as [|a u IH]; cbn [app star_alts].
  - rewrite C. exists []. split; [reflexivity | intros r []].
  - cbn [forallb] in F. apply andb_true_iff in F as [Fa F]. rewrite Fa.
    destruct (IH F) as [others [E O]]. rewrite E.
    exists (others ++ [a :: u ++ c :: t]). split; [reflexivity|].
    intros r I. apply in_app_or in I as [I | [<- | []]]; [now apply O|].
    now exists a, (u ++ c :: t).
Qed.

Lemma flat_map_nil {A B : Type} (f : A -> list B) (l : list A) :
  (forall x, In x l -> f x = []) -> flat_map f l = [].
Proof.
  induction l as [|a l IH]; intros H; [reflexivity|]. cbn [flat_map].
  rewrite (H a (or_introl eq_refl)), IH; [reflexivity|]. intros x I. apply H. now right.
Qed.

(** On a call whose first argument has no comma, the engine reaches the
    rest of the pattern in one way: group 1 is that argument. *)
Lemma run_call (rest : regex) (X t : text) :
  X <> [] -> no_comma X ->
  run (call3 ++ rest) (LE ++ X ++ comma :: t, []) = run rest (t, [X]).
Proof.
  intros N C. destruct X as [|x X]; [easy|].
  unfold no_comma in C. cbn [forallb] in C. apply andb_true_iff in C as [Cx C].
  cbn [call3 app run step_token L step_atom].
  change (str "logger.error(") with LE. rewrite starts_with_app, skipn_length_app.
  cbn [List.map flat_map run step_token run_atoms step_atom app].
  rewrite Cx, !app_nil_r.
  destruct (star_alts_first not_comma X comma t C comma_is_comma) as [others [E O]].
  rewrite E. cbn [flat_map List.map app].
  change (x :: X ++ comma :: t) with ((x :: X) ++ comma :: t).
  rewrite consumed_app.
  match goal with
  | |- context [step_token ?a ?b] => change (step_token a b) with [(t, [x :: X])]
  end.
  cbn [flat_map]. rewrite app_nil_r.
  rewrite flat_map_nil; [now rewrite app_nil_r|].
  intros [r gs] I. apply in_map_iff in I as [r0 [E0 I]]. injection E0 as <- <-.
  apply in_flat_map in I as [r1 [I [<- | []]]].
  destruct (O r1 I) as [y [r' [-> My]]].
  assert (Miss : forall gs, step_token (L ",") (y :: r', gs) = []).
  { intros gs. cbn [step_token L step_atom str list_ascii_of_string List.map starts_with].
    replace (char_eqb (ch ",") y) with false; [reflexivity|].
    symmetry. unfold char_eqb. apply N.eqb_neq. intros <-. discriminate. }
  now rewrite Miss.
Qed.

Lemma match_at_call (rest : regex) (X t : text) :
  X <> [] -> no_comma X ->
  match_at (call3 ++ rest) (LE ++ X ++ comma :: t) =
  match run rest (t, [X]) with
  | (r, gs) :: _ => Some (mkmatch r gs)
  | [] => None
  end.
Proof. intros N C. unfold match_at. now rewrite run_call. Qed.

Lemma starts_with_app_cases (l a b : text) :
  starts_with l (a ++ b) = true ->
  (exists a', a = l ++ a') \/
  (exists l2, l = a ++ l2 /\ l2 <> [] /\ starts_with l2 b = true).
Proof.
  revert a; induction l as [|x l IH]; intros a H.
  - left. now exists a.
  - destruct a as [|y a].
    + right. exists (x :: l). repeat split; [discriminate | exact H].
    + cbn [app starts_with] in H. apply andb_true_iff in H as [E H].
      apply char_eqb_eq in E. subst y.
      destruct (IH a H) as [[a' ->] | [l2 [-> [N S]]]].
      * left. now exists a'.
      * right. now exists l2.
Qed.

Lemma contains_false_suffix (n pre pp ps : text) :
  contains n pre = false -> pre = pp ++ ps -> starts_with n ps = false.
Proof.
  revert pre; induction pp as [|c pp IH]; intros pre C ->.
  - cbn [app] in C. destruct ps; cbn [contains] in C; now apply orb_false_iff in C.
  - cbn [app contains] in C. apply orb_false_iff in C as [_ C]. exact (IH _ C eq_refl).
Qed.

Lemma free_no_call (F k : text) :
  contains trigger F = false ->
  (forall j, In j (seq 1 12) -> starts_with (skipn j LE) k = false) ->
  no_call F k.
Proof.
  intros C K z z' E N.
  destruct (starts_with LE (z' ++ k)) eqn:S; [exfalso|reflexivity].
  apply starts_with_app_cases in S as [[a' ->] | [l2 [E2 [N2 S]]]].
  - pose proof (contains_false_suffix trigger F z (LE ++ a') C E) as H.
    change trigger with LE in H. now rewrite starts_with_app in H.
  - assert (El : l2 = skipn (length z') LE) by (rewrite E2; now rewrite skipn_length_app).
    assert (Len : 13 = length z' + length l2).
    { change 13 with (length LE). rewrite E2. apply length_app. }
    rewrite El in S. rewrite K in S; [discriminate|].
    apply in_seq. destruct z'; [easy|]. destruct l2; [easy|].
    cbn [length] in *. lia.
Qed.

Lemma free_no_call_lit (F lit y : text) :
  contains trigger F = false -> cont_clash_all lit = true -> no_call F (lit ++ y).
Proof.
  intros C K. apply free_no_call; [exact C|]. intros j J. apply clash_starts.
  unfold cont_clash_all in K. rewrite forallb_forall in K. now apply K.
Qed.

Lemma free_before_call (pre y : text) :
  contains trigger pre = false -> no_call pre (LE ++ y).
Proof. intros C. apply free_no_call_lit; [exact C | reflexivity]. Qed.

Lemma no_start_no_match (P : regex) (s : text) :
  head_shape P -> starts_with LE s = false -> match_at P s = None.
Proof.
  intros HP S. destruct (match_at P s) as [m|] eqn:M; [|reflexivity].
  destruct (match_shape P s m HP M) as [g [t [E _]]].
  rewrite E, starts_with_app in S. discriminate.
Qed.

Lemma no_call_tail (c : char) (x k : text) : no_call (c :: x) k -> no_call x k.
Proof. intros H z z' E N. apply (H (c :: z) z'); [now rewrite E | exact N]. Qed.

(** The scan passes over a text in which no call opens. *)
Lemma scan_skip_prefix (P : regex) (R : match_obj -> text) (pre s : text) :
  head_shape P -> no_call pre s ->
  sub P R (pre ++ s) = pre ++ sub P R s /\ findall P (pre ++ s) = findall P s.
Proof.
  intros HP. induction pre as [|c pre IH]; intros NC; [now split|].
  assert (M : match_at P ((c :: pre) ++ s) = None).
  { apply no_start_no_match; [exact HP|]. apply (NC [] (c :: pre)); [reflexivity | discriminate]. }
  cbn [app] in *. rewrite sub_skip, findall_skip by exact M.
  destruct (IH (no_call_tail c pre s NC)) as [-> ->]. now split.
Qed.

Lemma clean_app (P : regex) (a b : text) :
  (forall z z', a = z ++ z' -> z' <> [] -> match_at P (z' ++ b) = None) ->
  clean P b -> clean P (a ++ b).
Proof.
  intros Ha Hb pp s E. apply app_eq_app in E as [l [[E1 E2] | [E1 E2]]].
  - destruct l as [|c l].
    + cbn [app] in E2. subst s. exact (Hb [] b eq_refl).
    + subst s. apply (Ha pp (c :: l) E1). discriminate.
  - exact (Hb l s E2).
Qed.

Lemma clean_nil (P : regex) : head_shape P -> clean P [].
Proof.
  intros HP pp s E. symmetry in E. apply app_eq_nil in E as [_ ->]. now apply no_match_nil.
Qed.

Lemma clean_no_call (P : regex) (x k : text) :
  head_shape P -> no_call x k -> clean P k -> clean P (x ++ k).
Proof.
  intros HP NC Ck. apply clean_app; [|exact Ck].
  intros z z' E N. apply no_start_no_match; [exact HP | now apply (NC z z')].
Qed.

Lemma free_at_end (F : text) : contains trigger F = false -> no_call F [].
Proof.
  intros C. apply free_no_call; [exact C|]. intros j J.
  apply in_seq in J. do 13 (destruct j as [|j]; [try lia; reflexivity|]). lia.
Qed.

Lemma clean_free (P : regex) (post : text) :
  head_shape P -> contains trigger post = false -> clean P post.
Proof.
  intros HP C. rewrite <- (app_nil_r post).
  apply clean_no_call; [exact HP | now apply free_at_end | now apply clean_nil].
Qed.

(** No rule whose rest fails on what follows the comma matches anywhere
    in a text that holds the call and, around it, no other call. *)
Lemma clean_around_call (rest : regex) (pre X t post : text) :
  head_shape (call3 ++ rest) ->
  contains trigger pre = false -> contains trigger post = false ->
  no_comma X -> no_call (comma :: t) post ->
  (forall g, run rest (t ++ post, [g]) = []) ->
  clean (call3 ++ rest) (pre ++ LE ++ X ++ comma :: t ++ post).
Proof.
  intros HS Cpre Cpost C NC Fail.
  apply clean_no_call; [exact HS | now apply free_before_call |].
  rewrite app_assoc. apply clean_app.
  - intros z z' E N.
    destruct (match_at (call3 ++ rest) (z' ++ comma :: t ++ post)) as [m|] eqn:M;
      [exfalso|reflexivity].
    destruct (match_shape _ _ _ HS M) as [g [t' [Es [Ng [Cg _]]]]].
    assert (Cz : no_comma z').
    { assert (Cz : no_comma (z ++ z')).
      { rewrite <- E. apply no_comma_app. split; [apply no_comma_LE | exact C]. }
      apply no_comma_app in Cz. tauto. }
    replace (LE ++ g ++ comma :: t' ++ m_rest m)
      with ((LE ++ g) ++ comma :: (t' ++ m_rest m)) in Es by (norm_app; reflexivity).
    apply (split_first (mem not_comma)) in Es as [-> [_ Es]];
      try exact comma_is_comma; try exact Cz.
    2:{ apply no_comma_app. split; [apply no_comma_LE | exact Cg]. }
    rewrite <- app_assoc in M.
    change (comma :: t ++ post) with (comma :: (t ++ post)) in M.
    rewrite match_at_call, Fail in M by assumption. discriminate.
  - change (comma :: t ++ post) with ((comma :: t) ++ post).
    apply clean_no_call; [exact HS | exact NC | now apply clean_free].
Qed.

(** Where the rest of the rule runs to the end of the call, the scan finds
    that one match and the substitution replaces it in place. *)
Lemma hit_call (rest : regex) (R : match_obj -> text) (pre X t post : text)
      (gs : list text) (l : list mstate) :
  head_shape (call3 ++ rest) ->
  contains trigger pre = false -> contains trigger post = false ->
  X <> [] -> no_comma X ->
  run rest (t ++ post, [X]) = (post, gs) :: l ->
  findall (call3 ++ rest) (pre ++ LE ++ X ++ comma :: t ++ post) = [mkmatch post gs] /\
  sub (call3 ++ rest) R (pre ++ LE ++ X ++ comma :: t ++ post) =
    pre ++ R (mkmatch post gs) ++ post.
Proof.
  intros HS Cpre Cpost N C Run.
  destruct (scan_skip_prefix (call3 ++ rest) R pre (LE ++ X ++ comma :: t ++ post) HS
              (free_before_call pre _ Cpre)) as [-> ->].
  assert (M : match_at (call3 ++ rest) (LE ++ X ++ comma :: t ++ post)
              = Some (mkmatch post gs)).
  { change (comma :: t ++ post) with (comma :: (t ++ post)).
    rewrite match_at_call by assumption.
    match goal with
    | |- context [run rest ?st] => change (run rest st = (post, gs) :: l) in Run
    end.
    now rewrite Run. }
  assert (E : LE ++ X ++ comma :: t ++ post
              = (LE ++ X ++ comma :: t) ++ m_rest (mkmatch post gs)).
  { cbn [m_rest]. norm_app. reflexivity. }
  assert (NE : LE ++ X ++ comma :: t <> []) by discriminate.
  pose proof (clean_free _ post HS Cpost) as CP.
  rewrite (findall_hit _ _ _ _ M E NE), (sub_hit _ R _ _ _ M E NE). cbn [m_rest].
  rewrite (clean_findall _ _ CP), (clean_sub _ R _ CP). now split.
Qed.

(** *** The conditional call *)

(** A pattern spans the concatenation of words its tokens span one by one. *)
Fixpoint spans_words (p : regex) (gs : list text) (ws : list text) (gs' : list text) : Prop :=
  match p, ws with
  | [], [] => gs' = gs
  | t :: p', w :: ws' => exists g1, token_spans t gs w g1 /\ spans_words p' g1 ws' gs'
  | _, _ => False
  end.

Lemma spans_words_intro (p : regex) (gs : list text) (ws : list text) (gs' : list text) :
  spans_words p gs ws gs' -> spans p gs (concat ws) gs'.
Proof.
  revert gs ws; induction p as [|t p IH]; intros gs [|w ws]; cbn; try easy.
  intros [g1 [H1 H2]]. exists w, (concat ws), g1. auto.
Qed.

Lemma not_In_forallb (c : char) (u : text) :
  ~ In c u -> forallb (fun x => negb (char_eqb x c)) u = true.
Proof.
  induction u as [|a u IH]; cbn; [easy|]. intros H.
  rewrite IH by tauto. rewrite andb_true_r. apply negb_true_iff.
  unfold char_eqb. apply N.eqb_neq. intros ->. tauto.
Qed.

Lemma contains_ncb (F : text) :
  contains (str ",") F = false -> contains (str "}") F = false ->
  forallb (mem not_comma_brace) F = true.
Proof.
  intros H1 H2. apply (contains_char comma) in H1. apply (contains_char rbrace) in H2.
  apply forallb_forall. intros x I. unfold mem, not_comma_brace. cbn. unfold char_eqb.
  change 44%N with comma. change 125%N with rbrace.
  destruct (N.eqb_spec x comma) as [->|]; [tauto|].
  destruct (N.eqb_spec x rbrace) as [->|]; [tauto|]. reflexivity.
Qed.

End CallSite.

(** * The claims about the rewrite engine *)

Ltac forall_rules :=
  repeat match goal with
  | |- Forall _ (_ :: _) => apply Forall_cons
  | |- Forall _ [] => apply Forall_nil
  end.

(** A rule of the table fails on the text that follows the comma of a
    call, whatever group 1 is. *)
Ltac rule_fails k tac :=
  apply (clean_around_call (skipn 3 (search (rule k))));
  [ exact (proj1 (rule_ok_nth k ltac:(cbn; lia)))
  | assumption
  | assumption
  | assumption
  | tac
  | intros ?; vm_compute; reflexivity ].

Section EngineClaims.
Context {T : CharTables}.

(** C2. Applying the rule table to the output of one full pass changes
    nothing: the second pass returns the same text and counts no fix, and
    on the output of one pass no rule's pattern has any match. *)
Theorem fix_content_idempotent (content : text) :
  fix_content (fst (fix_content content)) = (fst (fix_content content), 0) /\
  Forall (fun p => findall (search p) (fst (fix_content content)) = []) PATTERNS.
Proof.
  destruct (shaped_table_idempotent PATTERNS content PATTERNS_ok) as [F E].
  split; [exact E | exact F].
Qed.

End EngineClaims.

(** * Properties of the file operations *)

Arguments Ok {A} a.
Arguments Raise {A} e.

Section FileFacts.
Context {T : CharTables}.

Lemma text_eqb_refl (a : text) : text_eqb a a = true.
Proof. now apply text_eqb_eq. Qed.

Lemma read_file_lookup (w w' : world) (p : path) :
  lookup w' p = lookup w p -> read_file w' p = read_file w p.
Proof. unfold read_file. now intros ->. Qed.

(** A write touches no other path. *)
Lemma lookup_write_other (w : world) (p q : path) (c : text) :
  q <> p -> lookup (fst (write_file w p c)) q = lookup w q.
Proof.
  intros N. induction w as [|[r f] w IH]; cbn [write_file].
  - cbn.
    assert (E : text_eqb p q = false) by (apply text_eqb_neq; congruence).
    now rewrite E.
  - destruct (text_eqb r p) eqn:E.
    + apply text_eqb_eq in E. subst r.
      assert (E : text_eqb p q = false) by (apply text_eqb_neq; congruence).
      destruct (on_write f) as [[e residue]|]; cbn; now rewrite E.
    + destruct (write_file w p c) as [w'' res]. cbn in *. now rewrite IH.
Qed.

(** After a write that does not raise, the file reads as what was written. *)
Lemma read_after_write (w : world) (p : path) (c : text) :
  snd (write_file w p c) = Ok tt -> read_file (fst (write_file w p c)) p = Ok c.
Proof.
  unfold read_file. induction w as [|[r f] w IH]; cbn [write_file].
  - intros _. cbn. now rewrite text_eqb_refl.
  - destruct (text_eqb r p) eqn:E.
    + destruct (on_write f) as [[e residue]|]; cbn; [discriminate|].
      intros _. now rewrite E.
    + destruct (write_file w p c) as [w'' res]. cbn in *. rewrite E. exact IH.
Qed.

(** [fix_file] touches no other path. *)
Lemma fix_file_other (w : world) (p q : path) :
  q <> p -> lookup (fst (fst (fix_file w p))) q = lookup w q.
Proof.
  intros N. unfold fix_file. destruct (read_file w p) as [c|e]; [|reflexivity].
  destruct (fix_content c) as [c' n].
  destruct (negb (text_eqb c' c)); [|reflexivity].
  pose proof (lookup_write_other w p q c' N) as H.
  destruct (write_file w p c') as [w' [u|e]]; exact H.
Qed.

(** The count grows with every rule that matches, and the content stays
    as it is while no rule matches. *)
Lemma fold_apply_pattern_count (ps : list pattern) (st : text * nat) :
  fold_left apply_pattern ps st = st \/ snd st < snd (fold_left apply_pattern ps st).
Proof.
  revert st; induction ps as [|p ps IH]; intros st; [now left|].
  cbn [fold_left].
  assert (H : apply_pattern st p = st \/ snd st < snd (apply_pattern st p)).
  { destruct st as [c n]. unfold apply_pattern.
    destruct (findall (search p) c); [now left | right; cbn; lia]. }
  destruct (IH (apply_pattern st p)) as [E | L]; destruct H as [E' | L'].
  - left. now rewrite E.
  - right. now rewrite E.
  - right. now rewrite E' in *.
  - right. lia.
Qed.

Lemma fix_content_changed_count (c : text) :
  fst (fix_content c) <> c -> 1 <= snd (fix_content c).
Proof.
  intros N. destruct (fold_apply_pattern_count PATTERNS (c, 0)) as [E | L].
  - exfalso. apply N. unfold fix_content, apply_patterns. now rewrite E.
  - exact L.
Qed.

Lemma fold_apply_pattern_nil (ps : list pattern) (c : text) (n : nat) :
  Forall (fun q => findall (search q) c = []) ps ->
  fold_left apply_pattern ps (c, n) = (c, n).
Proof.
  induction 1 as [|p ps F _ IH]; [reflexivity|].
  cbn [fold_left]. unfold apply_pattern at 2. now rewrite F.
Qed.

Lemma apply_pattern_sub (p : pattern) (c : text) :
  apply_pattern (c, 0) p =
  (sub (search p) (replace p) c, length (findall (search p) c)).
Proof.
  unfold apply_pattern. destruct (findall (search p) c) eqn:F; [|reflexivity].
  now rewrite (findall_nil_sub _ _ _ F).
Qed.

Lemma nth_split_at {A : Type} (l : list A) (k : nat) (d : A) :
  k < length l -> l = firstn k l ++ nth k l d :: skipn (S k) l.
Proof.
  revert k; induction l as [|a l IH]; intros [|k] H; cbn in *; try lia; [reflexivity|].
  f_equal. apply IH. lia.
Qed.

Lemma In_firstn_nth {A : Type} (l : list A) (k : nat) (d x : A) :
  In x (firstn k l) -> exists j, j < k /\ j < length l /\ nth j l d = x.
Proof.
  revert k; induction l as [|a l IH]; intros [|k]; cbn; try easy.
  intros [<- | I].
  - exists 0. repeat split; lia.
  - destruct (IH k I) as [j [H1 [H2 H3]]]. exists (S j). repeat split; try lia. exact H3.
Qed.

Lemma In_skipn_nth {A : Type} (l : list A) (k : nat) (d x : A) :
  In x (skipn k l) -> exists j, k <= j /\ j < length l /\ nth j l d = x.
Proof.
  revert k; induction l as [|a l IH]; intros [|k]; cbn [skipn]; try easy.
  - intros I. destruct (In_nth _ _ d I) as [j [H1 H2]]. exists j. repeat split; [lia | exact H1 | exact H2].
  - intros I. destruct (IH k I) as [j [H1 [H2 H3]]]. exists (S j). cbn. repeat split; try lia. exact H3.
Qed.

(** The pass over a content only the rule at position [k] matches. *)
Lemma fix_content_isolated (content : text) (k : nat) :
  k < length PATTERNS ->
  (forall j, j < length PATTERNS -> j <> k ->
     findall (search (rule j)) content = [] /\
     findall (search (rule j)) (sub (search (rule k)) (replace (rule k)) content) = []) ->
  fix_content content =
  (sub (search (rule k)) (replace (rule k)) content,
   length (findall (search (rule k)) content)).
Proof.
  intros K H. unfold fix_content, apply_patterns.
  rewrite (nth_split_at PATTERNS k (mkpattern [] (fun _ => []) "") K) at 1.
  fold (rule k). rewrite fold_left_app. cbn [fold_left].
  rewrite fold_apply_pattern_nil.
  - rewrite apply_pattern_sub. apply fold_apply_pattern_nil.
    apply Forall_forall. intros q Q.
    apply (In_skipn_nth _ _ (mkpattern [] (fun _ => []) "")) in Q as [j [H1 [H2 <-]]].
    apply (H j); lia.
  - apply Forall_forall. intros q Q.
    apply (In_firstn_nth _ _ (mkpattern [] (fun _ => []) "")) in Q as [j [H1 [H2 <-]]].
    apply (H j); lia.
Qed.

(** A substitution that finds a match changes the text. *)
Lemma sub_changes (p : pattern) (c : text) :
  rule_ok p -> findall (search p) c <> [] -> sub (search p) (replace p) c <> c.
Proof.
  intros [HP HR] F E.
  destruct (first_hit (search p) (replace p) c HP HR)
    as [[F' _] | [_ [u [g [y [y' [E1 [E2 [_ [B NB]]]]]]]]]]; [contradiction|].
  rewrite E2 in E. rewrite E1 in E.
  apply app_inv_head in E. apply app_inv_head in E. apply app_inv_head in E.
  injection E as E. subst y'. contradiction.
Qed.

End FileFacts.

(** * The claims about [fix_file] *)

Section FileClaims.
Context {T : CharTables}.

(** C8. For a file that reads as [original]: when the content after all
    rules equals [original], nothing is written (the tree is the same) and
    the file is reported unchanged; when it differs, the rewritten content
    is written to the file and to no other, and, the write not raising, the
    file is overwritten in place (it reads as the rewritten content
    afterwards, every other file as before) and reported changed. *)
Theorem fix_file_writes_iff_changed (w : world) (filepath : path) (original : text) :
  read_file w filepath = Ok original ->
  (fst (fix_content original) = original ->
     fix_file w filepath = (w, [], (false, 0))) /\
  (fst (fix_content original) <> original ->
     fst (fst (fix_file w filepath)) =
       fst (write_file w filepath (fst (fix_content original))) /\
     (forall q, q <> filepath ->
        read_file (fst (fst (fix_file w filepath))) q = read_file w q) /\
     (snd (write_file w filepath (fst (fix_content original))) = Ok tt ->
        fix_file w filepath =
          (fst (write_file w filepath (fst (fix_content original))), [],
           (true, snd (fix_content original))) /\
        read_file (fst (fst (fix_file w filepath))) filepath =
          Ok (fst (fix_content original)))).
Proof.
  intros R. unfold fix_file. rewrite R.
  destruct (fix_content original) as [content n]. cbn [fst snd]. split.
  - intros ->. now rewrite text_eqb_refl.
  - intros N. apply text_eqb_neq in N. rewrite N. cbn [negb].
    pose proof (read_after_write w filepath content) as RW.
    pose proof (fun q => lookup_write_other w filepath q content) as O.
    destruct (write_file w filepath content) as [w' [[]|e]]; cbn [fst snd] in *.
    + split; [reflexivity|]. split.
      * intros q Q. apply read_file_lookup. now apply O.
      * intros _. split; [reflexivity | now apply RW].
    + split; [reflexivity|]. split.
      * intros q Q. apply read_file_lookup. now apply O.
      * discriminate.
Qed.



(** C10, as amended. The pair [fix_file] returns: a file is reported
    changed exactly when it was read, the final content differs from the
    original and writing it back did not raise; a file reported changed has
    at least one fix; a file reported unchanged has zero fixes reported,
    whatever was counted. *)
Theorem fix_file_result_invariant (w : world) (filepath : path) (changed : bool) (fixes : nat) :
  snd (fix_file w filepath) = (changed, fixes) ->
  (changed = true <->
     exists original,
       read_file w filepath = Ok original /\ fst (fix_content original) <> original /\
       snd (write_file w filepath (fst (fix_content original))) = Ok tt) /\
  (changed = true -> 1 <= fixes) /\
  (changed = false -> fixes = 0).
Proof.
  unfold fix_file. destruct (read_file w filepath) as [original|e].
  - pose proof (fix_content_changed_count original) as C.
    destruct (fix_content original) as [content n] eqn:RW. cbn [fst snd] in *.
    destruct (text_eqb content original) eqn:E; cbn [negb].
    + apply text_eqb_eq in E. intros H; injection H as <- <-.
      split; [|split; [discriminate | reflexivity]].
      split; [discriminate|]. intros [o [O [N _]]]. injection O as <-.
      rewrite RW in N. cbn [fst] in N. contradiction.
    + apply text_eqb_neq in E.
      destruct (write_file w filepath content) as [w' [u|e']] eqn:WF; cbn [snd];
        intros H; injection H as <- <-.
      * split; [|split; [auto | discriminate]].
        split; [|reflexivity]. intros _. exists original. rewrite RW. cbn [fst].
        rewrite WF. cbn [snd]. destruct u. now repeat split.
      * split; [|split; [discriminate | reflexivity]].
        split; [discriminate|]. intros [o [O [_ W]]]. injection O as <-.
        rewrite RW in W. cbn [fst] in W. rewrite WF in W. discriminate.
  - cbn [snd]. intros H; injection H as <- <-.
    split; [|split; [discriminate | reflexivity]].
    split; [discriminate|]. intros [o [O _]]. discriminate.
Qed.

(** C5. For a file whose content only the rule at position [k] matches
    (no other rule's pattern occurs in it, before or after that rule's
    substitution), the fix count reported is the number of non-overlapping
    occurrences [re.findall] finds for that rule. *)
Theorem isolated_rule_count (w : world) (filepath : path) (content : text) (k : nat) :
  read_file w filepath = Ok content ->
  snd (write_file w filepath (fst (fix_content content))) = Ok tt ->
  k < length PATTERNS ->
  (forall j, j < length PATTERNS -> j <> k ->
     findall (search (rule j)) content = [] /\
     findall (search (rule j)) (sub (search (rule k)) (replace (rule k)) content) = []) ->
  snd (snd (fix_file w filepath)) = length (findall (search (rule k)) content).
Proof.
  intros R W K H. unfold fix_file. rewrite R.
  rewrite (fix_content_isolated content k K H) in *. cbn [fst snd] in W.
  destruct (text_eqb _ content) eqn:E; cbn [negb].
  - apply text_eqb_eq in E. cbn [snd].
    destruct (findall (search (rule k)) content) eqn:F; [reflexivity|].
    exfalso. apply (sub_changes (rule k) content); [now apply rule_ok_nth | | exact E].
    rewrite F. discriminate.
  - destruct (write_file w filepath _) as [w' [u|e]]; [reflexivity | discriminate].
Qed.

End FileClaims.

(** * The claims about the selector and the run *)

Section RunClaims.
Context {T : CharTables}.

(** What the selector returns: a path below the root that is not skipped
    and whose file reads with the trigger in it. *)
Lemma in_find_files (w : world) (root p : path) :
  In p (find_files_with_logger_errors w root) ->
  should_skip_file p = false /\ under root p = true /\
  exists content, read_file w p = Ok content /\ contains trigger content = true.
Proof.
  unfold find_files_with_logger_errors. intros I.
  apply in_flat_map in I as [ext [_ I]]. apply in_flat_map in I as [q [Q I]].
  unfold rglob in Q. apply filter_In in Q as [_ Q]. apply andb_true_iff in Q as [U _].
  destruct (should_skip_file q) eqn:S; [destruct I|].
  destruct (read_file w q) as [content|e] eqn:R; [|destruct I].
  destruct (contains trigger content) eqn:C; [|destruct I].
  destruct I as [<- | []]. repeat split; auto. now exists content.
Qed.

(** C6. A file whose path contains a deny-listed substring is never
    returned by the selector, whatever its content. *)
Theorem denied_path_never_selected (w : world) (root_dir filepath : path) (pattern : text) :
  In pattern skip_patterns -> contains pattern filepath = true ->
  ~ In filepath (find_files_with_logger_errors w root_dir).
Proof.
  intros D C I. apply in_find_files in I as [S _].
  assert (S' : should_skip_file filepath = true).
  { unfold should_skip_file. apply existsb_exists. now exists pattern. }
  congruence.
Qed.

Lemma st_world_fix_step (d : path) (st : run_state) (q : path) :
  st_world (fix_step d st q) = fst (fst (fix_file (st_world st) q)).
Proof.
  unfold fix_step. destruct (fix_file (st_world st) q) as [[w' printed] [[|] fixes]];
    reflexivity.
Qed.

(** The loop touches only the files it is given. *)
Lemma loop_other (d : path) (files : list path) (st : run_state) (p : path) :
  ~ In p files ->
  lookup (st_world (fold_left (fix_step d) files st)) p = lookup (st_world st) p.
Proof.
  revert st; induction files as [|q files IH]; intros st N; [reflexivity|].
  cbn [fold_left]. rewrite IH by (intros I; apply N; now right).
  rewrite st_world_fix_step. apply fix_file_other. intros ->. apply N. now left.
Qed.

(** Every path the loop lists as fixed is one of its files. *)
Lemma loop_fixed (d : path) (files : list path) (st : run_state) (x : text) :
  In x (fixed_files (fold_left (fix_step d) files st)) ->
  In x (fixed_files st) \/ exists q, In q files /\ x = relative_to d q.
Proof.
  revert st; induction files as [|q files IH]; intros st I; [now left|].
  cbn [fold_left] in I. apply IH in I as [I | [q' [Q ->]]].
  - unfold fix_step in I.
    destruct (fix_file (st_world st) q) as [[w' printed] [[|] fixes]]; cbn in I.
    + apply in_app_or in I as [I | [<- | []]]; [now left|].
      right. exists q. split; [now left | reflexivity].
    + now left.
  - right. exists q'. split; [now right | reflexivity].
Qed.

Lemma under_spec (base p : path) :
  under base p = true -> p = base ++ str "/" ++ relative_to base p.
Proof.
  intros U. unfold relative_to. rewrite U. unfold under in U.
  apply starts_with_spec in U as [r ->].
  replace (length base + 1) with (length (base ++ str "/"))
    by (rewrite length_app; reflexivity).
  rewrite skipn_length_app. now rewrite <- app_assoc.
Qed.

Lemma under_src (d p : path) : under (d ++ str "/src") p = true -> under d p = true.
Proof.
  unfold under. intros U. apply starts_with_spec in U as [r ->].
  apply starts_with_spec. exists (str "src/" ++ r).
  rewrite <- !app_assoc. reflexivity.
Qed.

(** C4, as amended. A file below the root whose content holds no
    occurrence of the trigger is not selected: the figure printed as
    "Total files scanned" is the number of selected files and does not
    count it, its path is absent from the list of fixed files, and the run
    leaves it as it was. *)
Theorem untriggered_file_not_selected (w : world) (script_dir p : path) (content : text) :
  under (script_dir ++ str "/src") p = true ->
  read_file w p = Ok content -> contains trigger content = false ->
  ~ In p (fst (run_fixes w script_dir)) /\
  In (str "Total files scanned: " ++ dec (length (fst (run_fixes w script_dir))))
     (snd (main w script_dir)) /\
  ~ In (relative_to script_dir p) (fixed_files (snd (run_fixes w script_dir))) /\
  read_file (fst (main w script_dir)) p = Ok content.
Proof.
  intros U R C.
  assert (N : ~ In p (fst (run_fixes w script_dir))).
  { cbn [run_fixes fst]. intros I. apply in_find_files in I as [_ [_ [c [R' C']]]].
    rewrite R in R'. injection R' as <-. congruence. }
  split; [exact N|]. split; [|split].
  - unfold main. destruct (run_fixes w script_dir) as [files st]. cbn [fst snd].
    apply in_or_app. right. apply in_or_app. left. unfold summary_lines.
    do 4 right. now left.
  - cbn [run_fixes fst snd] in *. intros I.
    apply loop_fixed in I as [[] | [q [Q E]]].
    apply N. replace p with q; [exact Q|].
    apply in_find_files in Q as [_ [Uq _]].
    rewrite (under_spec script_dir p (under_src _ _ U)).
    rewrite (under_spec script_dir q (under_src _ _ Uq)). now rewrite E.
  - unfold main. cbn [run_fixes fst snd] in *. cbn [fst].
    rewrite <- R. apply read_file_lookup. now apply loop_other.
Qed.

End RunClaims.

(** * The rule for [{ error: err.message, stack: err.stack }] *)

Section StackRule.
Context {T : CharTables}.

Lemma spans_app (p q : regex) (gs : list text) (w : text) (gs' : list text) :
  spans (p ++ q) gs w gs' ->
  exists w1 w2 g1, w = w1 ++ w2 /\ spans p gs w1 g1 /\ spans q g1 w2 gs'.
Proof.
  revert gs w; induction p as [|t p IH]; intros gs w S; cbn [app spans] in *.
  - now exists [], w, gs.
  - destruct S as [wt [wr [gt [-> [St S]]]]].
    destruct (IH gt wr S) as [w1 [w2 [g1 [-> [S1 S2]]]]].
    exists (wt ++ w1), w2, g1. rewrite app_assoc. repeat split; auto.
    now exists wt, w1, gt.
Qed.

(** Wherever the last pattern matches, the third one does: it is the last
    one's beginning. *)
Lemma stack_implies_message (s : text) (m : match_obj) :
  match_at (search (rule 7)) s = Some m ->
  exists m', match_at (search (rule 2)) s = Some m'.
Proof.
  intros M. destruct (match_at_sound _ _ _ M) as [w [-> S]].
  change (search (rule 7)) with (search (rule 2) ++ skipn 12 (search (rule 7))) in S.
  apply spans_app in S as [w1 [w2 [g1 [-> [S1 _]]]]].
  rewrite <- app_assoc. exact (match_at_complete _ _ _ _ S1).
Qed.

(** On no content at all does the last rule of the table find a match when
    the loop reaches it: the third rule has rewritten every call it could
    match. *)
Theorem stack_rule_never_fires (content : text) :
  findall (search (rule 7)) (fst (apply_patterns (firstn 7 PATTERNS) content)) = [].
Proof.
  rewrite apply_patterns_fst. apply clean_findall.
  change (firstn 7 PATTERNS)
    with (firstn 3 PATTERNS ++ [rule 3; rule 4; rule 5; rule 6]).
  unfold pass. rewrite fold_left_app. fold (pass (firstn 3 PATTERNS) content).
  assert (C2 : clean (search (rule 2)) (pass (firstn 3 PATTERNS) content)).
  { assert (OK : Forall rule_ok (firstn 3 PATTERNS)).
    { apply Forall_forall. intros q Q. pose proof PATTERNS_ok as A.
      rewrite Forall_forall in A. apply A. cbn in Q |- *. tauto. }
    pose proof (pass_clean (firstn 3 PATTERNS) [] content OK (Forall_nil _) (Forall_nil _)) as C.
    cbn [app] in C. rewrite Forall_forall in C. apply (C (rule 2)). cbn. tauto. }
  assert (C7 : clean (search (rule 7)) (pass (firstn 3 PATTERNS) content)).
  { intros pre s E. destruct (match_at (search (rule 7)) s) as [m|] eqn:M; [|reflexivity].
    destruct (stack_implies_message s m M) as [m' M'].
    rewrite (C2 pre s E) in M'. discriminate. }
  pose proof (proj1 (rule_ok_nth 7 ltac:(cbn; lia))) as H7.
  cbn [fold_left].
  pose proof (rule_ok_nth 3 ltac:(cbn; lia)) as [P3 R3].
  pose proof (rule_ok_nth 4 ltac:(cbn; lia)) as [P4 R4].
  pose proof (rule_ok_nth 5 ltac:(cbn; lia)) as [P5 R5].
  pose proof (rule_ok_nth 6 ltac:(cbn; lia)) as [P6 R6].
  apply clean_step; [exact P6 | exact R6 | exact H7 | right].
  apply clean_step; [exact P5 | exact R5 | exact H7 | right].
  apply clean_step; [exact P4 | exact R4 | exact H7 | right].
  apply clean_step; [exact P3 | exact R3 | exact H7 | right].
  exact C7.
Qed.

(** C1 (the code departs from the claim). On a call passing
    [{ error: err.message, stack: err.stack }] one full pass yields
    [new Error(err.message)] as the error argument and leaves [stack] among
    the properties, with or without further properties: the third rule of
    the table rewrites the call before the rule written for it is
    reached. *)
Theorem stack_call_not_collapsed :
  fix_content (str "logger.error('Failed', { error: err.message, stack: err.stack })") =
    (str "logger.error('Failed', new Error(err.message), { stack: err.stack })", 1) /\
  fix_content (str "logger.error('Failed', { error: err.message, stack: err.stack, userId })") =
    (str "logger.error('Failed', new Error(err.message), { stack: err.stack, userId })", 1).
Proof. split; vm_compute; reflexivity. Qed.

End StackRule.

(** * What the engine leaves alone, and what its count says *)

(** [r] continues with optional white space and an opening brace, as a
    test. *)
Fixpoint opens_object {T : CharTables} (r : text) : bool :=
  match r with
  | [] => false
  | c :: r' => char_eqb c lbrace || (is_space c && opens_object r')
  end.

Section Untouched.
Context {T : CharTables}.

Lemma opens_object_spec (r : text) : opens_object r = true <-> brace_next r.
Proof.
  induction r as [|c r IH]; cbn [opens_object].
  - split; [discriminate|]. intros [w [r' [E _]]]. now destruct w.
  - rewrite orb_true_iff, andb_true_iff, IH, char_eqb_eq. split.
    + intros [-> | [S [w [r' [-> F]]]]].
      * now exists [], r.
      * exists (c :: w), r'. cbn. now rewrite S.
    + intros [[|x w] [r' [E F]]]; cbn in E; injection E as -> ->.
      * now left.
      * cbn in F. apply andb_true_iff in F as [S F]. right. split; [exact S|].
        now exists w, r'.
Qed.

Lemma PATTERNS_clean_free (c : text) :
  contains trigger c = false -> Forall (fun p => clean (search p) c) PATTERNS.
Proof.
  intros C. pose proof PATTERNS_ok as OK. rewrite Forall_forall in *.
  intros p I. apply clean_free; [exact (proj1 (OK p I)) | exact C].
Qed.

Lemma fix_content_free (c : text) : contains trigger c = false -> fix_content c = (c, 0).
Proof. intros C. apply fold_apply_pattern_clean. now apply PATTERNS_clean_free. Qed.

(** The rest of a pattern past the first comma asks for a brace. *)
Lemma run_needs_brace (tl : regex) (s : text) (gs : list text) :
  ~ brace_next s -> run (ws :: L "{" :: tl) (s, gs) = [].
Proof.
  intros NB. destruct (run (ws :: L "{" :: tl) (s, gs)) as [|[r gs'] l] eqn:R; [reflexivity|].
  exfalso. apply NB.
  assert (I : In (r, gs') (run (ws :: L "{" :: tl) (s, gs))) by (rewrite R; now left).
  apply In_run in I as [w [-> S]].
  cbn [spans token_spans atom_spans ws L] in S.
  destruct S as [w1 [r1 [g1 [-> [[F ->] [w2 [r2 [g2 [-> [[-> ->] _]]]]]]]]]].
  exists w1, (r2 ++ r). split.
  - rewrite <- !app_assoc. reflexivity.
  - rewrite <- (forallb_eq _ _ w1 mem_space). exact F.
Qed.

Lemma PATTERNS_open :
  Forall (fun p => exists tl, search p = call3 ++ ws :: L "{" :: tl) PATTERNS.
Proof. unfold PATTERNS. forall_rules; eexists; reflexivity. Qed.

(** X3. A file whose content holds no occurrence of [logger.error(] is left
    as it is: the pass returns the content with no fix counted, and
    [fix_file] writes nothing, prints nothing and reports (not changed,
    zero fixes). *)
Theorem fix_file_without_trigger (w : world) (filepath : path) (content : text) :
  read_file w filepath = Ok content -> contains trigger content = false ->
  fix_content content = (content, 0) /\ fix_file w filepath = (w, [], (false, 0)).
Proof.
  intros R C. pose proof (fix_content_free content C) as E. split; [exact E|].
  unfold fix_file. rewrite R, E. now rewrite text_eqb_refl.
Qed.

(** X4. A call whose second argument is no object literal is left as it
    is: when what follows the first comma of the call does not go on with
    optional white space and an opening brace, and no other call stands
    around it, the pass returns the content unchanged and counts no fix. *)
Theorem non_object_call_untouched (pre X rest : text) :
  contains trigger pre = false -> contains trigger rest = false ->
  contains (str ",") X = false -> opens_object rest = false ->
  fix_content (pre ++ str "logger.error(" ++ X ++ str "," ++ rest) =
  (pre ++ str "logger.error(" ++ X ++ str "," ++ rest, 0).
Proof.
  intros Cpre Crest CX NB.
  change (pre ++ str "logger.error(" ++ X ++ str "," ++ rest)
    with (pre ++ LE ++ X ++ comma :: rest).
  assert (NB' : ~ brace_next rest).
  { intros B. apply opens_object_spec in B. congruence. }
  apply contains_no_comma in CX.
  apply fold_apply_pattern_clean.
  pose proof PATTERNS_ok as OK. pose proof PATTERNS_open as OP.
  rewrite Forall_forall in *. intros p I.
  destruct (OP p I) as [tl E]. destruct (OK p I) as [HP _]. rewrite E in *.
  apply (clean_around_call (ws :: L "{" :: tl) pre X [] rest HP Cpre Crest CX).
  - apply no_call_lit. reflexivity.
  - intros g. now apply run_needs_brace.
Qed.

End Untouched.

Section Counts.
Context {T : CharTables}.

(** Once a rule has matched, the content never comes back to what it was. *)
Lemma fold_apply_pattern_back (ps : list pattern) (c : text) (n : nat) :
  Forall rule_ok ps ->
  fst (fold_left apply_pattern ps (c, n)) = c -> fold_left apply_pattern ps (c, n) = (c, n).
Proof.
  revert c n; induction ps as [|p ps IH]; intros c n OK E; [reflexivity|].
  inversion OK as [|? ? [HP HR] OK']; subst.
  cbn [fold_left] in *. unfold apply_pattern at 2. unfold apply_pattern at 2 in E.
  destruct (findall (search p) c) as [|m ms] eqn:F.
  - now apply IH.
  - exfalso. rewrite fold_apply_pattern_fst in E. cbn [fst] in E.
    assert (C : Forall (fun q => clean (search q) (pass ps (sub (search p) (replace p) c)))
                  ([p] ++ ps)).
    { apply pass_clean; [exact OK' | now repeat constructor |].
      repeat constructor. apply clean_step; auto. }
    inversion C as [|? ? Cp _]; subst. rewrite E in Cp.
    rewrite (clean_findall _ _ Cp) in F. discriminate.
Qed.

(** X2. The count of one pass is zero exactly when the pass returns the
    content as it was: whenever a rule has matched, the final content
    differs from the original, so that [fix_file] never drops a count by
    taking the file for unchanged. *)
Theorem fix_count_zero_iff_unchanged (content : text) :
  snd (fix_content content) = 0 <-> fst (fix_content content) = content.
Proof.
  unfold fix_content, apply_patterns. split.
  - intros Z. destruct (fold_apply_pattern_count PATTERNS (content, 0)) as [E | L].
    + now rewrite E.
    + cbn [snd] in L. lia.
  - intros E. now rewrite (fold_apply_pattern_back PATTERNS content 0 PATTERNS_ok E).
Qed.

Lemma scan_hit_spans (p : regex) (s : text) (k : nat) (m : match_obj) :
  In (Hit m) (scan p s k) ->
  exists pre w, s = pre ++ w ++ m_rest m /\ spans p [] w (m_groups m).
Proof.
  revert k; induction s as [|c s IH]; intros k I; [destruct I|].
  assert (Step : forall j, In (Hit m) (scan p s j) ->
            exists pre w, c :: s = pre ++ w ++ m_rest m /\ spans p [] w (m_groups m)).
  { intros j J. destruct (IH j J) as [pre [w [-> S]]]. now exists (c :: pre), w. }
  destruct k as [|k]; cbn [scan] in I; [|now apply (Step k)].
  destruct (match_at p (c :: s)) as [m0|] eqn:M.
  - destruct I as [E | I]; [|now apply (Step _ I)].
    injection E as ->. destruct (match_at_sound _ _ _ M) as [w [E S]].
    now exists [], w.
  - destruct I as [E | I]; [discriminate | now apply (Step _ I)].
Qed.

Lemma findall_spans (p : regex) (s : text) (m : match_obj) :
  In m (findall p s) ->
  exists pre w, s = pre ++ w ++ m_rest m /\ spans p [] w (m_groups m).
Proof.
  unfold findall, finditer. intros I. apply in_flat_map in I as [[c|m'] [I J]]; [destruct J|].
  destruct J as [-> | []]. exact (scan_hit_spans p s 0 m I).
Qed.

Lemma no_comma_contains (X : text) : no_comma X -> contains (str ",") X = false.
Proof. intros H. apply (contains_char comma). now apply no_comma_iff. Qed.

(** X5. Whatever rule matches, the first argument of the call is kept: the
    match stands in the subject as [logger.error(<group 1>,...], group 1 is
    not empty and holds no comma, and the replacement reads
    [logger.error(<group 1>, ...]. *)
Theorem replacement_keeps_first_argument (p : pattern) (s : text) (m : match_obj) :
  In p PATTERNS -> In m (findall (search p) s) ->
  group m 1 <> [] /\ contains (str ",") (group m 1) = false /\
  (exists before t,
     s = before ++ str "logger.error(" ++ group m 1 ++ str "," ++ t ++ m_rest m) /\
  (exists x, replace p m = str "logger.error(" ++ group m 1 ++ str ", " ++ x).
Proof.
  intros I J. destruct (findall_spans _ _ _ J) as [before [w [E S]]].
  pose proof PATTERNS_ok as OK. rewrite Forall_forall in OK.
  destruct (OK p I) as [HP _].
  destruct (HP w _ S) as [g [t [Ew [N [C [G _]]]]]].
  assert (G1 : group m 1 = g) by exact G.
  rewrite G1. split; [exact N|]. split; [now apply no_comma_contains|]. split.
  - exists before, t. rewrite E, Ew. rewrite <- !app_assoc. reflexivity.
  - rewrite <- G1. clear - I S. destruct m as [rest gs]. cbn [m_groups] in S.
    cbn [PATTERNS In] in I.
    repeat (destruct I as [<- | I]; [cbn [search] in S; open_spans S;
      cbn [replace group m_groups Nat.sub nth]; eexists; rewrite <- ?app_assoc; reflexivity|]).
    destruct I.
Qed.

End Counts.

(** * A second call of [fix_file], a second run of [main] *)

Section Settled.
Context {T : CharTables}.

(** What a write does to the entry of its path and to the paths of the tree. *)
Lemma write_file_found (w : world) (p : path) (c : text) (f : file) :
  lookup w p = Some f ->
  List.map fst (fst (write_file w p c)) = List.map fst w /\
  match on_write f with
  | None =>
      lookup (fst (write_file w p c)) p = Some (mkfile (Ok c) None) /\
      snd (write_file w p c) = Ok tt
  | Some (e, residue) =>
      lookup (fst (write_file w p c)) p = Some (mkfile residue (on_write f)) /\
      snd (write_file w p c) = Raise e
  end.
Proof.
  induction w as [|[q g] w IH]; cbn [lookup write_file]; [discriminate|].
  destruct (text_eqb q p) eqn:E.
  - intros H; injection H as ->.
    destruct (on_write f) as [[e residue]|] eqn:W; cbn [fst snd List.map lookup];
      rewrite E; auto.
  - intros H. specialize (IH H). destruct (write_file w p c) as [w' r].
    cbn [fst snd List.map lookup] in *. rewrite E. destruct IH as [-> IH]. split; [reflexivity|].
    exact IH.
Qed.

(** A write that raises as it did before, on a file that reads as that write
    left it, leaves the tree as it is. *)
Lemma write_file_again (w : world) (p : path) (c : text) (f : file) (e : exn) :
  lookup w p = Some f -> on_write f = Some (e, on_read f) ->
  write_file w p c = (w, Raise e).
Proof.
  induction w as [|[q g] w IH]; cbn [lookup write_file]; [discriminate|].
  destruct (text_eqb q p) eqn:E.
  - intros H; injection H as ->. intros W. destruct f as [r wr]. cbn [on_read on_write] in *.
    subst wr. reflexivity.
  - intros H W. now rewrite (IH H W).
Qed.

Lemma fix_file_paths (w : world) (p : path) :
  List.map fst (fst (fst (fix_file w p))) = List.map fst w.
Proof.
  unfold fix_file, read_file. destruct (lookup w p) as [f|] eqn:Lk; [|reflexivity].
  destruct (on_read f) as [c|e]; [|reflexivity].
  destruct (fix_content c) as [c' n].
  destruct (negb (text_eqb c' c)); [|reflexivity].
  destruct (write_file_found w p c' f Lk) as [P _].
  destruct (write_file w p c') as [w' [u|e]]; exact P.
Qed.

(** A file on which [fix_file] has nothing left to do: it does not read, or
    the rules leave its content as it is, or writing to it raises and
    leaves it as it reads. *)
Definition settled_file (f : file) : Prop :=
  (exists e, on_write f = Some (e, on_read f)) \/
  match on_read f with
  | Ok c => fst (fix_content c) = c
  | Raise _ => True
  end.

Definition settled (w : world) (q : path) : Prop :=
  forall f, lookup w q = Some f -> settled_file f.

Lemma fix_content_twice (c : text) : fst (fix_content (fst (fix_content c))) = fst (fix_content c).
Proof.
  destruct (shaped_table_idempotent PATTERNS c PATTERNS_ok) as [_ E].
  unfold fix_content. now rewrite E.
Qed.

Lemma fix_file_settled (w : world) (q : path) :
  settled w q ->
  fst (fst (fix_file w q)) = w /\ snd (fix_file w q) = (false, 0).
Proof.
  intros S. unfold fix_file, read_file.
  destruct (lookup w q) as [f|] eqn:Lk; [|now split].
  specialize (S f Lk). unfold settled_file in S.
  destruct (on_read f) as [c|e] eqn:R; [|now split].
  destruct (fix_content c) as [c' n] eqn:FC. cbn [fst] in S.
  destruct (text_eqb c' c) eqn:E; cbn [negb]; [now split|].
  destruct S as [[e W] | S].
  - rewrite <- R in W. rewrite (write_file_again w q c' f e Lk W). now split.
  - apply text_eqb_neq in E. congruence.
Qed.

Lemma fix_file_settles (w : world) (q : path) : settled (fst (fst (fix_file w q))) q.
Proof.
  unfold fix_file, read_file. destruct (lookup w q) as [f|] eqn:Lk.
  - destruct (on_read f) as [c|e] eqn:R.
    + pose proof (fix_content_twice c) as Tw.
      destruct (fix_content c) as [c' n] eqn:FC. cbn [fst] in Tw.
      destruct (text_eqb c' c) eqn:E; cbn [negb].
      * apply text_eqb_eq in E. subst c'. intros g G. cbn [fst] in G.
        rewrite Lk in G. injection G as <-. right. rewrite R, FC. reflexivity.
      * destruct (write_file_found w q c' f Lk) as [_ H].
        destruct (write_file w q c') as [w' [u|e]] eqn:WF; cbn [fst snd] in *;
          intros g G; destruct (on_write f) as [[e' residue]|] eqn:W;
          destruct H as [H1 H2]; try discriminate;
          rewrite H1 in G; injection G as <-.
        -- right. cbn [on_read]. exact Tw.
        -- left. exists e'. reflexivity.
    + intros g G. cbn [fst] in G. rewrite Lk in G. injection G as <-. right. now rewrite R.
  - intros g G. cbn [fst] in G. congruence.
Qed.

Lemma text_eq_dec (a b : text) : {a = b} + {a <> b}.
Proof. apply list_eq_dec, N.eq_dec. Qed.

Lemma fix_file_keeps_settled (w : world) (p q : path) :
  settled w q -> settled (fst (fst (fix_file w p))) q.
Proof.
  intros S. destruct (text_eq_dec q p) as [-> | N]; [apply fix_file_settles|].
  intros f G. rewrite (fix_file_other w p q N) in G. now apply S.
Qed.

Lemma loop_settled (d : path) (files : list path) (st : run_state) (q : path) :
  In q files \/ settled (st_world st) q ->
  settled (st_world (fold_left (fix_step d) files st)) q.
Proof.
  revert st; induction files as [|p files IH]; intros st H; cbn [fold_left].
  - destruct H as [[] | H]. exact H.
  - apply IH. rewrite st_world_fix_step.
    destruct H as [[-> | I] | S].
    + right. apply fix_file_settles.
    + now left.
    + right. now apply fix_file_keeps_settled.
Qed.

Lemma loop_paths (d : path) (files : list path) (st : run_state) :
  List.map fst (st_world (fold_left (fix_step d) files st)) = List.map fst (st_world st).
Proof.
  revert st; induction files as [|p files IH]; intros st; cbn [fold_left]; [reflexivity|].
  rewrite IH, st_world_fix_step. apply fix_file_paths.
Qed.

(** Over files that are all settled the loop changes neither the tree nor
    its counters. *)
Lemma loop_idle (d : path) (files : list path) (st : run_state) :
  (forall q, In q files -> settled (st_world st) q) ->
  st_world (fold_left (fix_step d) files st) = st_world st /\
  fixed_files (fold_left (fix_step d) files st) = fixed_files st /\
  total_fixes (fold_left (fix_step d) files st) = total_fixes st.
Proof.
  revert st; induction files as [|p files IH]; intros st S; cbn [fold_left]; [now repeat split|].
  destruct (fix_file_settled (st_world st) p (S p (or_introl eq_refl))) as [W R].
  assert (E : st_world (fix_step d st p) = st_world st /\
              fixed_files (fix_step d st p) = fixed_files st /\
              total_fixes (fix_step d st p) = total_fixes st).
  { unfold fix_step. destruct (fix_file (st_world st) p) as [[w' printed] [m n]].
    cbn [fst snd] in *. injection R as -> ->. subst w'. now repeat split. }
  destruct E as [E1 [E2 E3]].
  destruct (IH (fix_step d st p)) as [H1 [H2 H3]].
  - intros q I. rewrite E1. apply S. now right.
  - rewrite H1, H2, H3. now repeat split.
Qed.

End Settled.

(** * The selector *)

Section Selector.
Context {T : CharTables}.

(** The test the selector applies to a path the walk yields. *)
Definition selects (w : world) (filepath : path) : bool :=
  negb (should_skip_file filepath) &&
  match read_file w filepath with
  | Ok content => contains trigger content
  | Raise _ => false
  end.

Lemma find_files_filter (w : world) (root : path) :
  find_files_with_logger_errors w root =
  filter (selects w) (rglob w root (str ".ts")) ++
  filter (selects w) (rglob w root (str ".tsx")).
Proof.
  unfold find_files_with_logger_errors. cbn [flat_map]. rewrite app_nil_r.
  assert (E : forall l,
    flat_map (fun filepath =>
      if should_skip_file filepath then []
      else match read_file w filepath with
           | Ok content => if contains trigger content then [filepath] else []
           | Raise _ => []
           end) l = filter (selects w) l).
  { induction l as [|p l IH]; [reflexivity|]. cbn [flat_map filter]. rewrite IH.
    unfold selects. destruct (should_skip_file p); [reflexivity|].
    destruct (read_file w p) as [c|e]; [|reflexivity].
    now destruct (contains trigger c). }
  now rewrite !E.
Qed.

Lemma not_both_extensions (p : path) :
  ends_with (str ".ts") p = true -> ends_with (str ".tsx") p = true -> False.
Proof.
  unfold ends_with.
  change (rev (str ".ts")) with [115%N; 116%N; 46%N].
  change (rev (str ".tsx")) with [120%N; 115%N; 116%N; 46%N].
  destruct (rev p) as [|c r]; [discriminate|]. cbn [starts_with].
  intros H1 H2. apply andb_true_iff in H1 as [H1 _]. apply andb_true_iff in H2 as [H2 _].
  apply char_eqb_eq in H1. apply char_eqb_eq in H2. congruence.
Qed.

Lemma in_find_files_iff (w : world) (root p : path) :
  In p (find_files_with_logger_errors w root) <->
  In p (List.map fst w) /\ under root p = true /\
  (ends_with (str ".ts") p = true \/ ends_with (str ".tsx") p = true) /\
  should_skip_file p = false /\
  exists content, read_file w p = Ok content /\ contains trigger content = true.
Proof.
  rewrite find_files_filter, in_app_iff, !filter_In. unfold rglob. rewrite !filter_In.
  unfold selects. rewrite !andb_true_iff, negb_true_iff.
  assert (R : match read_file w p with Ok c => contains trigger c | Raise _ => false end = true
              <-> exists content, read_file w p = Ok content /\ contains trigger content = true).
  { destruct (read_file w p) as [c|e]; split.
    - intros C. now exists c.
    - intros [c' [E C]]. now injection E as ->.
    - discriminate.
    - intros [c' [E _]]. discriminate. }
  rewrite R. tauto.
Qed.

(** X12. The selector returns a path exactly when the walk yields it below
    the root with one of the two extensions, no deny-listed substring is in
    it, and its file reads with [logger.error(] in it. *)
Theorem selected_iff (w : world) (root_dir filepath : path) :
  In filepath (find_files_with_logger_errors w root_dir) <->
  In filepath (List.map fst w) /\
  starts_with (root_dir ++ str "/") filepath = true /\
  (ends_with (str ".ts") filepath = true \/ ends_with (str ".tsx") filepath = true) /\
  should_skip_file filepath = false /\
  exists content, read_file w filepath = Ok content /\ contains trigger content = true.
Proof. apply in_find_files_iff. Qed.

(** X13. No path is returned twice when the walk yields none twice: the
    two globs do not overlap, since no name ends in both [.ts] and
    [.tsx]. *)
Theorem selected_once (w : world) (root_dir : path) :
  NoDup (List.map fst w) -> NoDup (find_files_with_logger_errors w root_dir).
Proof.
  intros N. rewrite find_files_filter. unfold rglob.
  apply NoDup_app.
  - now repeat apply NoDup_filter.
  - now repeat apply NoDup_filter.
  - intros p I J. apply filter_In in I as [I _]. apply filter_In in J as [J _].
    apply filter_In in I as [_ I]. apply filter_In in J as [_ J].
    apply andb_true_iff in I as [_ I]. apply andb_true_iff in J as [_ J].
    exact (not_both_extensions p I J).
Qed.

Lemma starts_with_app_l (n a b : text) :
  starts_with n a = true -> starts_with n (a ++ b) = true.
Proof.
  intros H. apply starts_with_spec in H as [r ->]. rewrite <- app_assoc. apply starts_with_app.
Qed.

Lemma contains_app_l (n a b : text) : contains n a = true -> contains n (a ++ b) = true.
Proof.
  induction a as [|c a IH]; cbn [contains app].
  - rewrite orb_false_r. intros H. destruct n; [|discriminate]. now destruct b.
  - rewrite !orb_true_iff. intros [H | H].
    + left. exact (starts_with_app_l n (c :: a) b H).
    + right. now apply IH.
Qed.

Lemma contains_app_r (n a b : text) : contains n b = true -> contains n (a ++ b) = true.
Proof.
  intros H. induction a as [|c a IH]; [exact H|].
  cbn [app contains]. rewrite IH. apply orb_true_r.
Qed.

(** X14. A path is skipped as soon as a part of it is: the test looks for
    the deny-listed names as substrings, so whatever stands before or after
    a skipped part, directories or file names, the path is skipped. *)
Theorem skipped_part_skips_path (before part after : text) :
  should_skip_file part = true -> should_skip_file (before ++ part ++ after) = true.
Proof.
  unfold should_skip_file. rewrite !existsb_exists. intros [n [I C]].
  exists n. split; [exact I|]. apply contains_app_r. now apply contains_app_l.
Qed.

End Selector.

(** * The run *)

Section Run.
Context {T : CharTables}.

Lemma fix_file_modified_count (w : world) (p : path) (n : nat) :
  snd (fix_file w p) = (true, n) -> 1 <= n.
Proof.
  unfold fix_file. destruct (read_file w p) as [c|e]; [|discriminate].
  pose proof (fix_content_changed_count c) as C.
  destruct (fix_content c) as [c' k]. cbn [fst snd] in C.
  destruct (text_eqb c' c) eqn:E; cbn [negb]; [discriminate|].
  apply text_eqb_neq in E.
  destruct (write_file w p c') as [w' [u|e]]; cbn [snd]; [|discriminate].
  intros H; injection H as <-. auto.
Qed.

(** One turn of the loop lists the file as fixed or not, and adds at least
    one fix when it does, none when it does not. *)
Lemma fix_step_counts (d : path) (st : run_state) (p : path) :
  exists j,
    j <= 1 /\
    length (fixed_files (fix_step d st p)) = length (fixed_files st) + j /\
    total_fixes st + j <= total_fixes (fix_step d st p) /\
    (j = 0 -> total_fixes (fix_step d st p) = total_fixes st).
Proof.
  unfold fix_step.
  pose proof (fix_file_modified_count (st_world st) p) as M.
  destruct (fix_file (st_world st) p) as [[w' printed] [[|] n]];
    cbn [fixed_files total_fixes snd] in *.
  - specialize (M n eq_refl). exists 1. rewrite length_app. cbn [length].
    repeat split; lia.
  - exists 0. repeat split; lia.
Qed.

(** The counters of the loop: every file listed as fixed is one of the
    files gone through and brought at least one fix. *)
Lemma loop_counts (d : path) (files : list path) (st : run_state) :
  exists k,
    length (fixed_files (fold_left (fix_step d) files st)) = length (fixed_files st) + k /\
    k <= length files /\
    total_fixes st + k <= total_fixes (fold_left (fix_step d) files st) /\
    (k = 0 -> total_fixes (fold_left (fix_step d) files st) = total_fixes st).
Proof.
  revert st; induction files as [|p files IH]; intros st; cbn [fold_left length].
  - exists 0. repeat split; lia.
  - destruct (IH (fix_step d st p)) as [k [H1 [H2 [H3 H4]]]].
    destruct (fix_step_counts d st p) as [j [J1 [J2 [J3 J4]]]].
    exists (j + k). split; [lia|]. split; [lia|]. split; [lia|].
    intros Z. rewrite H4, J4; lia.
Qed.

(** X15. The figures of the summary [main] prints: no more files fixed
    than scanned, at least one fix for every file fixed, and no fix
    without a file fixed. *)
Theorem summary_figures (w : world) (script_dir : path) :
  length (fixed_files (snd (run_fixes w script_dir))) <= length (fst (run_fixes w script_dir)) /\
  length (fixed_files (snd (run_fixes w script_dir))) <= total_fixes (snd (run_fixes w script_dir)) /\
  (fixed_files (snd (run_fixes w script_dir)) = [] ->
     total_fixes (snd (run_fixes w script_dir)) = 0) /\
  In (str "Total files scanned: " ++ dec (length (fst (run_fixes w script_dir))))
     (snd (main w script_dir)) /\
  In (str "Total files fixed: " ++ dec (length (fixed_files (snd (run_fixes w script_dir)))))
     (snd (main w script_dir)) /\
  In (str "Total fixes applied: " ++ dec (total_fixes (snd (run_fixes w script_dir))))
     (snd (main w script_dir)).
Proof.
  unfold main. unfold run_fixes. cbn [fst snd].
  match goal with
  | |- context [fold_left (fix_step script_dir) ?fs ?st0] =>
      destruct (loop_counts script_dir fs st0) as [k [H1 [H2 [H3 H4]]]];
      set (st := fold_left (fix_step script_dir) fs st0) in *
  end.
  cbn [fixed_files total_fixes length Nat.add] in *.
  split; [lia|]. split; [lia|]. split.
  - intros E. rewrite E in H1. cbn [length] in H1. apply H4. lia.
  - repeat split; apply in_or_app; right; apply in_or_app; left; unfold summary_lines;
      cbn [In]; tauto.
Qed.

(** X16. The run creates and removes no file, and leaves every file the
    selector did not return as it was. *)
Theorem main_touches_selected_only (w : world) (script_dir : path) :
  List.map fst (fst (main w script_dir)) = List.map fst w /\
  forall q, ~ In q (find_files_with_logger_errors w (script_dir ++ str "/src")) ->
            lookup (fst (main w script_dir)) q = lookup w q.
Proof.
  unfold main, run_fixes. cbn [fst]. split.
  - now rewrite loop_paths.
  - intros q N. now rewrite loop_other.
Qed.

(** A file reported changed reads afterwards as a content the rules leave
    as it is. *)
Lemma fix_file_modified_reads (w : world) (p : path) :
  fst (snd (fix_file w p)) = true ->
  exists c, read_file (fst (fst (fix_file w p))) p = Ok c /\ fix_content c = (c, 0).
Proof.
  unfold fix_file. destruct (read_file w p) as [c|e] eqn:R; [|discriminate].
  destruct (shaped_table_idempotent PATTERNS c PATTERNS_ok) as [_ Tw].
  fold (fix_content c) in Tw. fold (fix_content (fst (fix_content c))) in Tw.
  destruct (fix_content c) as [c' n] eqn:FC. cbn [fst] in Tw.
  destruct (text_eqb c' c); cbn [negb]; [discriminate|].
  pose proof (read_after_write w p c') as RW.
  destruct (write_file w p c') as [w' [[]|e]]; cbn [fst snd] in *; [|discriminate].
  intros _. exists c'. split; [now apply RW | exact Tw].
Qed.

(** X11. A second call of [fix_file] on the same path finds nothing to do:
    it leaves the tree as the first call left it and reports (not changed,
    zero fixes); after a call that reported the file changed it prints
    nothing either. *)
Theorem fix_file_again (w : world) (filepath : path) :
  fst (fst (fix_file (fst (fst (fix_file w filepath))) filepath)) = fst (fst (fix_file w filepath)) /\
  snd (fix_file (fst (fst (fix_file w filepath))) filepath) = (false, 0) /\
  (fst (snd (fix_file w filepath)) = true ->
   fix_file (fst (fst (fix_file w filepath))) filepath =
   (fst (fst (fix_file w filepath)), [], (false, 0))).
Proof.
  destruct (fix_file_settled _ filepath (fix_file_settles w filepath)) as [H1 H2].
  split; [exact H1|]. split; [exact H2|].
  intros M. destruct (fix_file_modified_reads w filepath M) as [c [R E]].
  set (w' := fst (fst (fix_file w filepath))) in *.
  unfold fix_file. rewrite R, E. now rewrite text_eqb_refl.
Qed.

(** X17. A second run of [main], on the tree the first run left, fixes
    nothing: the tree stays as it is, no file is listed as fixed, the total
    is zero, and the run prints that no files needed fixing. *)
Theorem main_rerun_fixes_nothing (w : world) (script_dir : path) :
  fst (main (fst (main w script_dir)) script_dir) = fst (main w script_dir) /\
  fixed_files (snd (run_fixes (fst (main w script_dir)) script_dir)) = [] /\
  total_fixes (snd (run_fixes (fst (main w script_dir)) script_dir)) = 0 /\
  In (str "No files needed fixing (or all already fixed manually)")
     (snd (main (fst (main w script_dir)) script_dir)).
Proof.
  set (root := script_dir ++ str "/src").
  set (files := find_files_with_logger_errors w root).
  assert (W1 : exists out0, fst (main w script_dir) =
                 st_world (fold_left (fix_step script_dir) files (mkstate w [] 0 out0))).
  { unfold main, run_fixes. cbn [fst]. eexists. reflexivity. }
  destruct W1 as [out0 W1]. set (w1 := fst (main w script_dir)) in *.
  assert (S : forall q, In q (find_files_with_logger_errors w1 root) -> settled w1 q).
  { intros q I. rewrite W1.
    destruct (in_dec text_eq_dec q files) as [J | J]; [apply loop_settled; now left|].
    exfalso. apply J. unfold files. apply in_find_files_iff.
    apply in_find_files_iff in I as [I1 [I2 [I3 [I4 [c [I5 I6]]]]]].
    assert (Lk : lookup w1 q = lookup w q) by (rewrite W1; now apply loop_other).
    repeat split; auto.
    - rewrite W1, loop_paths in I1. exact I1.
    - exists c. split; [|exact I6]. rewrite <- I5. symmetry. now apply read_file_lookup. }
  assert (Idle : forall out,
            st_world (fold_left (fix_step script_dir) (find_files_with_logger_errors w1 root)
                        (mkstate w1 [] 0 out)) = w1 /\
            fixed_files (fold_left (fix_step script_dir) (find_files_with_logger_errors w1 root)
                           (mkstate w1 [] 0 out)) = [] /\
            total_fixes (fold_left (fix_step script_dir) (find_files_with_logger_errors w1 root)
                           (mkstate w1 [] 0 out)) = 0).
  { intros out. apply (loop_idle script_dir _ (mkstate w1 [] 0 out)). exact S. }
  unfold main, run_fixes. fold root. cbn [fst snd].
  match goal with
  | |- context [fold_left (fix_step script_dir) _ (mkstate w1 [] 0 ?out)] =>
      destruct (Idle out) as [H1 [H2 H3]]
  end.
  rewrite H1, H2, H3. repeat split; try reflexivity.
  apply in_or_app. right. apply in_or_app. right. now left.
Qed.

End Run.

(** * Runs of the engine that take no second way

    On the calls the rules are written for, every greedy repetition of a
    pattern is followed by a token that cannot start where the repetition
    could have stopped earlier, so the engine finds one way through, or
    none. *)

Section Deterministic.
Context {T : CharTables}.

(** [s] does not go on with a character of the set. *)
Definition stops (cs : cset) (s : text) : Prop :=
  match s with
  | [] => True
  | c :: _ => mem cs c = false
  end.

(** The pattern [p] cannot start at a character of the set. *)
Definition blocked (cs : cset) (p : regex) : Prop :=
  forall y r gs, mem cs y = true ->
    match p with
    | [] => False
    | t :: _ => step_token t (y :: r, gs) = []
    end.

(** The pattern [p] cannot start at a character of [u]. *)
Definition blocked_in (u : text) (p : regex) : Prop :=
  forall y r gs, In y u ->
    match p with
    | [] => False
    | t :: _ => step_token t (y :: r, gs) = []
    end.

Lemma blocked_weaken (cs : cset) (u : text) (p : regex) :
  forallb (mem cs) u = true -> blocked cs p -> blocked_in u p.
Proof.
  intros F B y r gs I. apply B. rewrite forallb_forall in F. now apply F.
Qed.

(** The ways a greedy repetition can end: the longest run first; every
    other one stops at a character of the run. *)
Lemma star_alts_stop (cs : cset) (u s : text) :
  forallb (mem cs) u = true -> stops cs s ->
  exists others,
    star_alts cs (u ++ s) = s :: others /\
    forall r, In r others -> exists y r', r = y :: r' /\ In y u.
Proof.
  intros F S. induction u as [|a u IH]; cbn [app].
  - exists []. split; [|intros r []].
    destruct s as [|c s]; cbn [star_alts]; [reflexivity|]. cbn [stops] in S. now rewrite S.
  - cbn [forallb] in F. apply andb_true_iff in F as [Fa F]. cbn [star_alts]. rewrite Fa.
    destruct (IH F) as [others [E O]]. rewrite E.
    exists (others ++ [a :: u ++ s]). split; [reflexivity|].
    intros r I. apply in_app_or in I as [I | [<- | []]].
    + destruct (O r I) as [y [r' [-> J]]]. exists y, r'. split; [reflexivity | now right].
    + exists a, (u ++ s). split; [reflexivity | now left].
Qed.

Lemma run_blocked (u : text) (p : regex) (others : list text) (f : text -> mstate) :
  blocked_in u p ->
  (forall r, In r others -> exists y r', r = y :: r' /\ In y u) ->
  (forall r, fst (f r) = r) ->
  flat_map (run p) (List.map f others) = [].
Proof.
  intros B O Ff. apply flat_map_nil. intros [r g] I.
  apply in_map_iff in I as [r0 [E I]].
  destruct (O r0 I) as [y [r' [-> M]]].
  pose proof (Ff (y :: r')) as Fr. rewrite E in Fr. cbn [fst] in Fr. subst r.
  specialize (B y r' g M). destruct p as [|t p]; [destruct B|].
  cbn [run].
  assert (Z : forall st, step_token t st = [] -> flat_map (run p) (step_token t st) = [])
    by (intros st ->; reflexivity).
  apply Z. exact B.
Qed.

Lemma app_nil_end (a b : list mstate) : b = [] -> a ++ b = a.
Proof. intros ->. apply app_nil_r. Qed.

Lemma run_lit (l : text) (p : regex) (s : text) (gs : list text) :
  run (A (Lit l) :: p) (l ++ s, gs) = run p (s, gs).
Proof.
  cbn [run step_token step_atom]. rewrite starts_with_app, skipn_length_app.
  cbn [List.map flat_map]. apply app_nil_r.
Qed.

Lemma run_star_det (cs : cset) (p : regex) (u s : text) (gs : list text) :
  forallb (mem cs) u = true -> stops cs s -> blocked_in u p ->
  run (A (Star cs) :: p) (u ++ s, gs) = run p (s, gs).
Proof.
  intros F S B. cbn [run step_token step_atom].
  destruct (star_alts_stop cs u s F S) as [others [E O]]. rewrite E.
  cbn [List.map flat_map].
  apply app_nil_end. apply (run_blocked u p others _ B O). reflexivity.
Qed.

Lemma in_tail (a : char) (u : text) (others : list text) :
  (forall r, In r others -> exists y r', r = y :: r' /\ In y u) ->
  forall r, In r others -> exists y r', r = y :: r' /\ In y (a :: u).
Proof.
  intros O r I. destruct (O r I) as [y [r' [-> J]]]. exists y, r'. split; [reflexivity | now right].
Qed.

Lemma run_plus_det (cs : cset) (p : regex) (u s : text) (gs : list text) :
  u <> [] -> forallb (mem cs) u = true -> stops cs s -> blocked_in u p ->
  run (A (Plus cs) :: p) (u ++ s, gs) = run p (s, gs).
Proof.
  intros N F S B. destruct u as [|a u]; [easy|].
  cbn [forallb] in F. apply andb_true_iff in F as [Fa F].
  cbn [run step_token step_atom app]. rewrite Fa.
  destruct (star_alts_stop cs u s F S) as [others [E O]]. rewrite E.
  cbn [List.map flat_map].
  apply app_nil_end. apply (run_blocked (a :: u) p others _ B (in_tail a u others O)).
  reflexivity.
Qed.

Lemma run_group_det (cs : cset) (p : regex) (u s : text) (gs : list text) :
  u <> [] -> forallb (mem cs) u = true -> stops cs s -> blocked_in u p ->
  run (Grp [Plus cs] :: p) (u ++ s, gs) = run p (s, gs ++ [u]).
Proof.
  intros N F S B. destruct u as [|a u]; [easy|].
  cbn [forallb] in F. apply andb_true_iff in F as [Fa F].
  cbn [run step_token run_atoms step_atom app]. rewrite Fa.
  destruct (star_alts_stop cs u s F S) as [others [E O]]. rewrite E.
  cbn [List.map flat_map app].
  change (a :: u ++ s) with ((a :: u) ++ s). rewrite consumed_app.
  assert (Fl : forall l : list text, flat_map (fun r => [r]) l = l).
  { induction l as [|x l IH]; [reflexivity|]. cbn. now rewrite IH. }
  rewrite Fl.
  apply app_nil_end. apply (run_blocked (a :: u) p others _ B (in_tail a u others O)).
  reflexivity.
Qed.

Lemma blocked_lit (cs : cset) (c0 : char) (l : text) (p : regex) :
  mem cs c0 = false -> blocked cs (A (Lit (c0 :: l)) :: p).
Proof.
  intros M y r gs My. cbn [step_token step_atom starts_with].
  replace (char_eqb c0 y) with false; [reflexivity|].
  symmetry. unfold char_eqb. apply N.eqb_neq. intros <-. congruence.
Qed.

Lemma blocked_group (cs cs' : cset) (body : list atom) (p : regex) :
  (forall y, mem cs y = true -> mem cs' y = false) ->
  blocked cs (Grp (Plus cs' :: body) :: p).
Proof.
  intros D y r gs My. cbn [step_token run_atoms step_atom]. now rewrite (D y My).
Qed.

Lemma blocked_plus (cs cs' : cset) (p : regex) :
  (forall y, mem cs y = true -> mem cs' y = false) ->
  blocked cs (A (Plus cs') :: p).
Proof.
  intros D y r gs My. cbn [step_token step_atom]. now rewrite (D y My).
Qed.

Lemma space_not_ident (y : char) : mem space y = true -> mem ident y = false.
Proof.
  rewrite mem_space. intros S. destruct (mem ident y) eqn:I; [|reflexivity].
  apply ident_not_space in I. congruence.
Qed.

Lemma ident_not_mem_space (y : char) : mem ident y = true -> mem space y = false.
Proof. rewrite mem_space. apply ident_not_space. Qed.

Lemma stops_app (cs cs' : cset) (u s : text) :
  forallb (mem cs') u = true -> (forall y, mem cs' y = true -> mem cs y = false) ->
  stops cs s -> stops cs (u ++ s).
Proof.
  intros F D S. destruct u as [|a u]; [exact S|].
  cbn [forallb] in F. apply andb_true_iff in F as [Fa _]. cbn [app stops]. now apply D.
Qed.

Lemma run_lit_fail (l : text) (p : regex) (s : text) (gs : list text) :
  starts_with l s = false -> run (A (Lit l) :: p) (s, gs) = [].
Proof. intros H. cbn [run step_token step_atom]. now rewrite H. Qed.

Lemma run_plus_fail (cs : cset) (p : regex) (s : text) (gs : list text) :
  stops cs s -> run (A (Plus cs) :: p) (s, gs) = [].
Proof.
  intros S. cbn [run step_token step_atom]. destruct s as [|c s]; [reflexivity|].
  cbn [stops] in S. now rewrite S.
Qed.

(** A literal that opens outside a set does not start a run of the set
    that ends on another character. *)
Lemma starts_with_outside (cs : cset) (c : char) (l u : text) (x : char) (r : text) :
  forallb (mem cs) u = true -> mem cs c = false -> c <> x ->
  starts_with (c :: l) (u ++ x :: r) = false.
Proof.
  intros F C N. destruct u as [|a u]; cbn [app starts_with].
  - replace (char_eqb c x) with false; [reflexivity|].
    symmetry. unfold char_eqb. now apply N.eqb_neq.
  - cbn [forallb] in F. apply andb_true_iff in F as [Fa _].
    replace (char_eqb c a) with false; [reflexivity|].
    symmetry. unfold char_eqb. apply N.eqb_neq. intros <-. congruence.
Qed.

(** A literal all of whose characters are of a set, met at the start of a
    run of that set, lies within the run. *)
Lemma prefix_of_run (f : char -> bool) (l u : text) (x : char) (r : text) :
  forallb f l = true -> f x = false -> starts_with l (u ++ x :: r) = true ->
  exists v, u = l ++ v.
Proof.
  intros F X. revert u; induction l as [|a l IH]; intros u H; [now exists u|].
  cbn [forallb] in F. apply andb_true_iff in F as [Fa F].
  destruct u as [|b u]; cbn [app starts_with] in H; apply andb_true_iff in H as [E H];
    apply char_eqb_eq in E; subst.
  - congruence.
  - destruct (IH F u H) as [v ->]. now exists v.
Qed.

(** After a rule has rewritten the call, no pattern of the table matches in
    the text around it: the comma is not followed by a brace any more. *)
Lemma clean_rewritten (P : regex) (pre X x post : text) :
  head_shape P -> (exists tl, P = call3 ++ ws :: L "{" :: tl) ->
  contains trigger pre = false -> contains trigger post = false ->
  no_comma X -> no_call (comma :: x) post -> ~ brace_next (x ++ post) ->
  clean P (pre ++ LE ++ X ++ comma :: x ++ post).
Proof.
  intros HP [tl ->] Cpre Cpost CX NC NB.
  apply (clean_around_call (ws :: L "{" :: tl) pre X x post HP Cpre Cpost CX NC).
  intros g. now apply run_needs_brace.
Qed.

Lemma PATTERNS_clean_rewritten (pre X x post : text) :
  contains trigger pre = false -> contains trigger post = false ->
  no_comma X -> no_call (comma :: x) post -> ~ brace_next (x ++ post) ->
  Forall (fun q => clean (search q) (pre ++ LE ++ X ++ comma :: x ++ post)) PATTERNS.
Proof.
  intros Cpre Cpost CX NC NB.
  pose proof PATTERNS_ok as OK. pose proof PATTERNS_open as OP.
  rewrite Forall_forall in *. intros q I.
  apply clean_rewritten; auto. exact (proj1 (OK q I)).
Qed.

(** The pass over a content in which one rule finds one match, the rules
    before it none, and whose result no rule after it matches. *)
Lemma apply_patterns_one (before after : list pattern) (p : pattern)
      (I O : text) (m : match_obj) :
  Forall (fun q => clean (search q) I) before ->
  Forall (fun q => clean (search q) O) after ->
  findall (search p) I = [m] -> sub (search p) (replace p) I = O ->
  apply_patterns (before ++ p :: after) I = (O, 1).
Proof.
  intros Cb Ca F S. unfold apply_patterns.
  rewrite fold_left_app, (fold_apply_pattern_clean before I 0 Cb).
  cbn [fold_left]. unfold apply_pattern at 2. rewrite F, S. cbn [length Nat.add].
  now apply fold_apply_pattern_clean.
Qed.

Lemma Forall_firstn {A : Type} (Q : A -> Prop) (l : list A) (k : nat) :
  Forall Q l -> Forall Q (firstn k l).
Proof.
  intros H. rewrite Forall_forall in *. intros x I. apply H.
  rewrite <- (firstn_skipn k l). apply in_or_app. now left.
Qed.

Lemma Forall_skipn {A : Type} (Q : A -> Prop) (l : list A) (k : nat) :
  Forall Q l -> Forall Q (skipn k l).
Proof.
  intros H. rewrite Forall_forall in *. intros x I. apply H.
  rewrite <- (firstn_skipn k l). apply in_or_app. now right.
Qed.

(** The rewrite of a call by the rule at position [k]: the rules before it
    find nothing in the content, the rule's pattern runs from the comma to
    the end of the call, and what replaces the call goes on after the comma
    with [x], which opens no object. *)
Lemma rule_rewrites (k : nat) (pre X t x post : text) (gs : list text) (l : list mstate) :
  k < length PATTERNS ->
  contains trigger pre = false -> contains trigger post = false ->
  X <> [] -> no_comma X ->
  Forall (fun q => clean (search q) (pre ++ LE ++ X ++ comma :: t ++ post))
    (firstn k PATTERNS) ->
  run (skipn 3 (search (rule k))) (t ++ post, [X]) = (post, gs) :: l ->
  replace (rule k) (mkmatch post gs) = LE ++ X ++ comma :: x ->
  no_call (comma :: x) post -> ~ brace_next (x ++ post) ->
  fix_content (pre ++ LE ++ X ++ comma :: t ++ post) =
  (pre ++ LE ++ X ++ comma :: x ++ post, 1).
Proof.
  intros K Cpre Cpost N C Cb Run Rep NC NB.
  unfold fix_content.
  rewrite (nth_split_at PATTERNS k (mkpattern [] (fun _ => []) "") K) at 1. fold (rule k).
  destruct (rule_ok_nth k K) as [HP HR].
  assert (E : search (rule k) = call3 ++ skipn 3 (search (rule k))).
  { pose proof PATTERNS_open as OP. rewrite Forall_forall in OP.
    destruct (OP (rule k)) as [tl E]; [unfold rule; now apply nth_In|].
    rewrite E. reflexivity. }
  rewrite E in HP.
  destruct (hit_call (skipn 3 (search (rule k))) (replace (rule k)) pre X t post gs l
              HP Cpre Cpost N C Run) as [F S].
  rewrite <- E in F, S.
  apply (apply_patterns_one _ _ (rule k) _ _ (mkmatch post gs)).
  - exact Cb.
  - apply Forall_skipn. now apply PATTERNS_clean_rewritten.
  - exact F.
  - rewrite S, Rep. rewrite <- !app_assoc. reflexivity.
Qed.

End Deterministic.

(** * The calls the other rules are written for *)

Ltac not_brace :=
  lit_compute; cbn [app]; apply not_brace_next; [discriminate | discriminate | reflexivity].

Ltac side :=
  first
    [ reflexivity
    | assumption
    | discriminate
    | solve [intros ? ? ? []]
    | solve [intros ? ? ? [<- | []]; reflexivity]
    | match goal with
      | F : forallb (mem ?cs) ?u = true |- blocked_in ?u _ =>
          apply (blocked_weaken cs u _ F); apply blocked_lit; reflexivity
      end ].

Section MessageCalls.
Context {T : CharTables}.

(** X7. In a file that holds the call
    [logger.error(X, { error: errorMessage })] and around it no other
    occurrence of [logger.error(], with [X] not empty and without comma,
    the pass rewrites the call in place to
    [logger.error(X, new Error(errorMessage))] and counts one fix. *)
Theorem error_message_call_rewritten (pre X post : text) :
  contains trigger pre = false -> contains trigger post = false ->
  X <> [] -> contains (str ",") X = false ->
  fix_content (pre ++ str "logger.error(" ++ X ++ str ", { error: errorMessage })" ++ post) =
  (pre ++ str "logger.error(" ++ X ++ str ", new Error(errorMessage))" ++ post, 1).
Proof.
  intros Cpre Cpost N C. apply contains_no_comma in C.
  change (pre ++ str "logger.error(" ++ X ++ str ", { error: errorMessage })" ++ post)
    with (pre ++ LE ++ X ++ comma :: str " { error: errorMessage })" ++ post).
  change (pre ++ str "logger.error(" ++ X ++ str ", new Error(errorMessage))" ++ post)
    with (pre ++ LE ++ X ++ comma :: str " new Error(errorMessage))" ++ post).
  apply (rule_rewrites 1 pre X _ _ post [X] []); try assumption.
  - cbn. lia.
  - cbn [firstn PATTERNS].
    assert (NC : no_call (comma :: str " { error: errorMessage })") post)
      by (apply no_call_lit; vm_compute; reflexivity).
    forall_rules. rule_fails 0 ltac:(exact NC).
  - vm_compute. reflexivity.
  - reflexivity.
  - apply no_call_lit. vm_compute. reflexivity.
  - not_brace.
Qed.

(** X6. In a file that holds a call opening with
    [logger.error(X, { error: errorMessage,] and around it no other
    occurrence of [logger.error(], with [X] not empty and without comma,
    the pass rewrites the opening in place to
    [logger.error(X, new Error(errorMessage), {], leaving the properties
    that follow in the object, and counts one fix. *)
Theorem error_message_first_rewritten (pre X post : text) :
  contains trigger pre = false -> contains trigger post = false ->
  X <> [] -> contains (str ",") X = false ->
  fix_content (pre ++ str "logger.error(" ++ X ++ str ", { error: errorMessage," ++ post) =
  (pre ++ str "logger.error(" ++ X ++ str ", new Error(errorMessage), {" ++ post, 1).
Proof.
  intros Cpre Cpost N C. apply contains_no_comma in C.
  change (pre ++ str "logger.error(" ++ X ++ str ", { error: errorMessage," ++ post)
    with (pre ++ LE ++ X ++ comma :: str " { error: errorMessage," ++ post).
  change (pre ++ str "logger.error(" ++ X ++ str ", new Error(errorMessage), {" ++ post)
    with (pre ++ LE ++ X ++ comma :: str " new Error(errorMessage), {" ++ post).
  apply (rule_rewrites 0 pre X _ _ post [X] []); try assumption.
  - cbn. lia.
  - constructor.
  - vm_compute. reflexivity.
  - reflexivity.
  - apply no_call_lit. vm_compute. reflexivity.
  - not_brace.
Qed.

(** *** An identifier's [.message] *)

Lemma message_opening (tl : regex) (E rest : text) (g : text) :
  E <> [] -> forallb (mem ident) E = true ->
  run ([ws; L "{"; ws; L "error:"; ws] ++ Grp [Plus ident] :: L ".message" :: tl)
      (str " { error: " ++ E ++ str ".message" ++ rest, [g]) =
  run tl (rest, [g; E]).
Proof.
  intros N F.
  change (str " { error: " ++ E ++ str ".message" ++ rest)
    with (str " " ++ str "{" ++ str " " ++ str "error:" ++ str " " ++ E ++ str ".message" ++ rest).
  cbn [app]. unfold ws, L.
  rewrite run_star_det; [|side..].
  rewrite run_lit.
  rewrite run_star_det; [|side..].
  rewrite run_lit.
  rewrite run_star_det; [|side| |side].
  2:{ apply (stops_app space ident); [exact F | exact ident_not_mem_space | reflexivity]. }
  rewrite run_group_det; [|side..].
  apply run_lit.
Qed.

(** The rules for [errorMessage] find nothing there, whatever the
    identifier. *)
Lemma error_message_miss (tl : regex) (c : char) (E rest : text) (g : text) :
  forallb (mem ident) E = true ->
  mem space c = false -> mem ident c = false -> c <> ch "." ->
  run ([ws; L "{"; ws; L "error:"; ws; L "errorMessage"; ws] ++ A (Lit [c]) :: tl)
      (str " { error: " ++ E ++ str ".message" ++ rest, [g]) = [].
Proof.
  intros F Sc Ic Nc.
  change (str " { error: " ++ E ++ str ".message" ++ rest)
    with (str " " ++ str "{" ++ str " " ++ str "error:" ++ str " " ++ E ++ str ".message" ++ rest).
  cbn [app]. unfold ws, L.
  rewrite run_star_det; [|side..].
  rewrite run_lit.
  rewrite run_star_det; [|side..].
  rewrite run_lit.
  rewrite run_star_det; [|side| |side].
  2:{ apply (stops_app space ident); [exact F | exact ident_not_mem_space | reflexivity]. }
  destruct (starts_with (str "errorMessage") (E ++ str ".message" ++ rest)) eqn:S;
    [|now apply run_lit_fail].
  change (str ".message" ++ rest) with (ch "." :: str "message" ++ rest) in *.
  apply (prefix_of_run (mem ident)) in S as [v ->]; [|reflexivity..].
  rewrite forallb_app in F. apply andb_true_iff in F as [_ F].
  rewrite <- app_assoc, run_lit.
  change (v ++ ch "." :: str "message" ++ rest)
    with ([] ++ v ++ ch "." :: str "message" ++ rest).
  rewrite run_star_det; [|reflexivity | | side].
  2:{ apply (stops_app space ident); [exact F | exact ident_not_mem_space | reflexivity]. }
  apply run_lit_fail. now apply (starts_with_outside ident).
Qed.

Lemma no_call_message (lead E tail_ post : text) :
  forallb (mem ident) E = true ->
  all_clash lead = true -> all_clash tail_ = true -> cont_clash tail_ = true ->
  no_call (lead ++ E ++ tail_) post.
Proof.
  intros F C1 C2 C3.
  apply no_call_app; [now apply no_call_lit|].
  apply no_call_app; [|now apply no_call_lit].
  apply no_call_word_lit; [now apply forallb_ident_word | exact C3].
Qed.

(** X9. In a file that holds the call
    [logger.error(X, { error: E.message })], [E] an identifier of letters
    and underscores, and around it no other occurrence of [logger.error(],
    with [X] not empty and without comma, the pass rewrites the call in
    place to [logger.error(X, new Error(E.message))] and counts one fix. *)
Theorem message_call_rewritten (pre X E post : text) :
  contains trigger pre = false -> contains trigger post = false ->
  X <> [] -> contains (str ",") X = false ->
  E <> [] -> forallb (mem ident) E = true ->
  fix_content (pre ++ str "logger.error(" ++ X ++ str ", { error: " ++ E
               ++ str ".message })" ++ post) =
  (pre ++ str "logger.error(" ++ X ++ str ", new Error(" ++ E ++ str ".message))" ++ post, 1).
Proof.
  intros Cpre Cpost N C NE F. apply contains_no_comma in C.
  replace (pre ++ str "logger.error(" ++ X ++ str ", { error: " ++ E
           ++ str ".message })" ++ post)
    with (pre ++ LE ++ X ++ comma :: (str " { error: " ++ E ++ str ".message })") ++ post)
    by (rewrite <- !app_assoc; reflexivity).
  replace (pre ++ str "logger.error(" ++ X ++ str ", new Error(" ++ E ++ str ".message))" ++ post)
    with (pre ++ LE ++ X ++ comma :: (str " new Error(" ++ E ++ str ".message))") ++ post)
    by (rewrite <- !app_assoc; reflexivity).
  assert (Tx : (str " { error: " ++ E ++ str ".message })") ++ post
               = str " { error: " ++ E ++ str ".message" ++ str " })" ++ post)
    by (rewrite <- !app_assoc; reflexivity).
  assert (NC : no_call (comma :: str " { error: " ++ E ++ str ".message })") post)
    by (apply (no_call_message (str ", { error: ")); [exact F | reflexivity..]).
  apply (rule_rewrites 3 pre X _ _ post [X; E] []); try assumption.
  - cbn. lia.
  - cbn [firstn PATTERNS]. forall_rules.
    + apply (clean_around_call (skipn 3 (search (rule 0)))); try assumption.
      * exact (proj1 (rule_ok_nth 0 ltac:(cbn; lia))).
      * intros g. rewrite Tx.
        apply (error_message_miss [] (ch ",")); [exact F | reflexivity | reflexivity | discriminate].
    + apply (clean_around_call (skipn 3 (search (rule 1)))); try assumption.
      * exact (proj1 (rule_ok_nth 1 ltac:(cbn; lia))).
      * intros g. rewrite Tx.
        apply (error_message_miss [ws; L ")"] (ch "}"));
          [exact F | reflexivity | reflexivity | discriminate].
    + apply (clean_around_call (skipn 3 (search (rule 2)))); try assumption.
      * exact (proj1 (rule_ok_nth 2 ltac:(cbn; lia))).
      * intros g. rewrite Tx.
        etransitivity; [exact (message_opening [ws; L ","] E (str " })" ++ post) g NE F)|].
        vm_compute. reflexivity.
  - rewrite Tx.
    etransitivity;
      [exact (message_opening [ws; L "}"; ws; L ")"] E (str " })" ++ post) X NE F)|].
    vm_compute. reflexivity.
  - reflexivity.
  - apply (no_call_message (str ", new Error(")); [exact F | reflexivity..].
  - not_brace.
Qed.

(** X8. In a file that holds a call opening with
    [logger.error(X, { error: E.message,], [E] an identifier of letters and
    underscores, and around it no other occurrence of [logger.error(], with
    [X] not empty and without comma, the pass rewrites the opening in place
    to [logger.error(X, new Error(E.message), {] and counts one fix,
    whatever properties follow. *)
Theorem message_first_rewritten (pre X E post : text) :
  contains trigger pre = false -> contains trigger post = false ->
  X <> [] -> contains (str ",") X = false ->
  E <> [] -> forallb (mem ident) E = true ->
  fix_content (pre ++ str "logger.error(" ++ X ++ str ", { error: " ++ E
               ++ str ".message," ++ post) =
  (pre ++ str "logger.error(" ++ X ++ str ", new Error(" ++ E ++ str ".message), {" ++ post, 1).
Proof.
  intros Cpre Cpost N C NE F. apply contains_no_comma in C.
  replace (pre ++ str "logger.error(" ++ X ++ str ", { error: " ++ E
           ++ str ".message," ++ post)
    with (pre ++ LE ++ X ++ comma :: (str " { error: " ++ E ++ str ".message,") ++ post)
    by (rewrite <- !app_assoc; reflexivity).
  replace (pre ++ str "logger.error(" ++ X ++ str ", new Error(" ++ E ++ str ".message), {" ++ post)
    with (pre ++ LE ++ X ++ comma :: (str " new Error(" ++ E ++ str ".message), {") ++ post)
    by (rewrite <- !app_assoc; reflexivity).
  assert (Tx : (str " { error: " ++ E ++ str ".message,") ++ post
               = str " { error: " ++ E ++ str ".message" ++ str "," ++ post)
    by (rewrite <- !app_assoc; reflexivity).
  assert (NC : no_call (comma :: str " { error: " ++ E ++ str ".message,") post)
    by (apply (no_call_message (str ", { error: ")); [exact F | reflexivity..]).
  apply (rule_rewrites 2 pre X _ _ post [X; E] []); try assumption.
  - cbn. lia.
  - cbn [firstn PATTERNS]. forall_rules.
    + apply (clean_around_call (skipn 3 (search (rule 0)))); try assumption.
      * exact (proj1 (rule_ok_nth 0 ltac:(cbn; lia))).
      * intros g. rewrite Tx.
        apply (error_message_miss [] (ch ",")); [exact F | reflexivity | reflexivity | discriminate].
    + apply (clean_around_call (skipn 3 (search (rule 1)))); try assumption.
      * exact (proj1 (rule_ok_nth 1 ltac:(cbn; lia))).
      * intros g. rewrite Tx.
        apply (error_message_miss [ws; L ")"] (ch "}"));
          [exact F | reflexivity | reflexivity | discriminate].
  - rewrite Tx.
    etransitivity; [exact (message_opening [ws; L ","] E (str "," ++ post) X NE F)|].
    vm_compute. reflexivity.
  - reflexivity.
  - apply (no_call_message (str ", new Error(")); [exact F | reflexivity..].
  - not_brace.
Qed.

End MessageCalls.

(** No call opens in a text made of literals and runs of word characters. *)
Ltac no_call_pieces :=
  repeat first
    [ apply no_call_lit; vm_compute; reflexivity
    | apply no_call_word_lit; [assumption | vm_compute; reflexivity]
    | rewrite <- app_assoc
    | apply no_call_app ].

Section NamedError.
Context {T : CharTables}.

Lemma ascii_word_small (c : char) : ascii_word c = true -> (c < 128)%N.
Proof.
  unfold ascii_word, in_range, char_eqb.
  rewrite !orb_true_iff, !andb_true_iff, !N.leb_le, N.eqb_eq. lia.
Qed.

Lemma ascii_word_is_word (c : char) : ascii_word c = true -> is_word c = true.
Proof.
  intros H. unfold is_word. apply ascii_word_small in H as L.
  apply N.ltb_lt in L. now rewrite L.
Qed.

Lemma ascii_word_not_space (c : char) : ascii_word c = true -> mem space c = false.
Proof.
  intros H. rewrite mem_space. unfold is_space. apply ascii_word_small in H as L.
  apply N.ltb_lt in L. rewrite L. revert H.
  unfold ascii_word, ascii_space, in_range, char_eqb.
  rewrite !orb_true_iff, !andb_true_iff, !N.leb_le, N.eqb_eq.
  rewrite orb_false_iff, !andb_false_iff, !N.leb_gt. lia.
Qed.

Lemma forallb_ascii_word (g : text) :
  forallb ascii_word g = true -> forallb (mem word) g = true.
Proof.
  rewrite !forallb_forall. intros H c I. rewrite mem_word. apply ascii_word_is_word. now apply H.
Qed.

Lemma forallb_ascii_is_word (g : text) :
  forallb ascii_word g = true -> forallb is_word g = true.
Proof.
  rewrite !forallb_forall. intros H c I. apply ascii_word_is_word. now apply H.
Qed.

Lemma stops_ascii_word (u s : text) :
  u <> [] -> forallb ascii_word u = true -> stops space (u ++ s).
Proof.
  intros N F. destruct u as [|a u]; [easy|].
  cbn [forallb] in F. apply andb_true_iff in F as [Fa _]. cbn [app stops].
  now apply ascii_word_not_space.
Qed.

(** A greedy repetition over [u ++ s] first tries the ends it has within
    [s]. *)
Lemma star_alts_more (cs : cset) (u s : text) :
  forallb (mem cs) u = true ->
  exists more, star_alts cs (u ++ s) = star_alts cs s ++ more.
Proof.
  intros F. induction u as [|a u IH]; cbn [app].
  - exists []. now rewrite app_nil_r.
  - cbn [forallb] in F. apply andb_true_iff in F as [Fa F]. cbn [star_alts]. rewrite Fa.
    destruct (IH F) as [more ->]. exists (more ++ [a :: u ++ s]). now rewrite app_assoc.
Qed.

(** The group [(\w+Error)] on a name that ends in [Error] before a colon:
    the engine gives back letters until [Error] is left, and goes on with
    the whole name as the group. *)
Lemma run_named (p : regex) (N s : text) (gs : list text) :
  N <> [] -> forallb (mem word) N = true ->
  exists l,
    run (Grp [Plus word; Lit (str "Error")] :: p) (N ++ str "Error" ++ ch ":" :: s, gs) =
    run p (ch ":" :: s, gs ++ [N ++ str "Error"]) ++ l.
Proof.
  intros NE F. destruct N as [|n N]; [easy|].
  cbn [forallb] in F. apply andb_true_iff in F as [Fn F].
  cbn [run step_token run_atoms step_atom app]. rewrite Fn.
  destruct (star_alts_more word N (str "Error" ++ ch ":" :: s) F) as [more ->].
  assert (Alts : star_alts word (str "Error" ++ ch ":" :: s) =
                 [ch ":" :: s; str "r" ++ ch ":" :: s; str "or" ++ ch ":" :: s;
                  str "ror" ++ ch ":" :: s; str "rror" ++ ch ":" :: s;
                  str "Error" ++ ch ":" :: s]).
  { reflexivity. }
  rewrite Alts. cbn [app flat_map].
  change (starts_with (str "Error") (ch ":" :: s)) with false.
  change (starts_with (str "Error") (str "r" ++ ch ":" :: s)) with false.
  change (starts_with (str "Error") (str "or" ++ ch ":" :: s)) with false.
  change (starts_with (str "Error") (str "ror" ++ ch ":" :: s)) with false.
  change (starts_with (str "Error") (str "rror" ++ ch ":" :: s)) with false.
  rewrite (starts_with_app (str "Error") (ch ":" :: s)), skipn_length_app.
  cbn [app List.map flat_map].
  replace (consumed (n :: N ++ str "Error" ++ ch ":" :: s) (ch ":" :: s))
    with ((n :: N) ++ str "Error").
  2:{ symmetry. rewrite <- (consumed_app ((n :: N) ++ str "Error") (ch ":" :: s)).
      rewrite <- app_assoc. reflexivity. }
  eexists. reflexivity.
Qed.

(** The rest of the rule's pattern on [ { NError: W.message,]. *)
Lemma named_tail (W post : text) (gs : list text) :
  W <> [] -> forallb ascii_word W = true ->
  run [L ":"; ws; Grp [Plus word]; L ".message"; ws; L ","]
      (str ":" ++ str " " ++ W ++ str ".message" ++ [] ++ str "," ++ post, gs) =
  [(post, gs ++ [W])].
Proof.
  intros NW FW. pose proof (forallb_ascii_word W FW) as FW'. unfold ws, L.
  rewrite run_lit.
  rewrite run_star_det; [|side | now apply stops_ascii_word | side].
  rewrite run_group_det; [|side..].
  rewrite run_lit.
  rewrite run_star_det; [|side..].
  now rewrite run_lit.
Qed.

Lemma named_head (p : regex) (N rest X : text) :
  N <> [] -> forallb ascii_word N = true -> blocked_in (str " ") p ->
  run (ws :: L "{" :: ws :: p) (str " " ++ str "{" ++ str " " ++ N ++ rest, [X]) =
  run p (N ++ rest, [X]).
Proof.
  intros NN FN B. unfold ws, L.
  rewrite run_star_det; [|side..].
  rewrite run_lit.
  rewrite run_star_det; [|side | now apply stops_ascii_word | exact B].
  reflexivity.
Qed.

Lemma named_run (N W post X : text) :
  N <> [] -> forallb ascii_word N = true -> W <> [] -> forallb ascii_word W = true ->
  exists l,
    run (skipn 3 (search (rule 6)))
        (str " { " ++ N ++ str "Error: " ++ W ++ str ".message," ++ post, [X]) =
    (post, [X; N ++ str "Error"; W]) :: l.
Proof.
  intros NN FN NW FW.
  pose proof (forallb_ascii_word N FN) as FN'.
  destruct (run_named [L ":"; ws; Grp [Plus word]; L ".message"; ws; L ","]
              N (str " " ++ W ++ str ".message" ++ [] ++ str "," ++ post) [X] NN FN')
    as [l E].
  exists l.
  etransitivity;
    [apply (named_head _ N (str "Error" ++ ch ":" :: str " " ++ W ++ str ".message" ++ []
                            ++ str "," ++ post) X NN FN); side|].
  etransitivity; [exact E|].
  change (ch ":" :: str " " ++ W ++ str ".message" ++ [] ++ str "," ++ post)
    with (str ":" ++ str " " ++ W ++ str ".message" ++ [] ++ str "," ++ post).
  now rewrite (named_tail W post ([X] ++ [N ++ str "Error"]) NW FW).
Qed.

(** The rules that ask for the key [error] find nothing there. *)
Lemma named_no_error (tl : regex) (N rest g : text) :
  N <> [] -> forallb ascii_word N = true ->
  run (ws :: L "{" :: ws :: L "error:" :: tl) (str " { " ++ N ++ str "Error:" ++ rest, [g]) = [].
Proof.
  intros NN FN.
  etransitivity; [apply (named_head _ N (str "Error:" ++ rest) g NN FN); side|].
  apply run_lit_fail.
  destruct (starts_with (str "error:") (N ++ str "Error:" ++ rest)) eqn:S; [exfalso|reflexivity].
  apply starts_with_spec in S as [r E].
  change (N ++ str "Error:" ++ rest) with (N ++ str "Error" ++ ch ":" :: rest) in E.
  change (str "error:" ++ r) with (str "error" ++ ch ":" :: r) in E.
  rewrite app_assoc in E.
  apply (split_first ascii_word) in E as [E _]; try reflexivity.
  - apply (f_equal (@length char)) in E. rewrite length_app in E.
    destruct N; [easy | cbn in E; lia].
  - rewrite forallb_app, FN. reflexivity.
Qed.

(** X10. In a file that holds a call opening with
    [logger.error(X, { NError: W.message,], [N] and [W] non-empty runs of
    ASCII letters, digits and underscores, and around it no other
    occurrence of [logger.error(], with [X] not empty and without comma,
    the pass rewrites the opening in place to
    [logger.error(X, new Error(W.message), { NErrorType: 'NError',] and
    counts one fix: the error object is built from [W.message], and the
    name of the key comes back as the value of the property
    [NErrorType]. *)
Theorem named_error_call_rewritten (pre X N W post : text) :
  contains trigger pre = false -> contains trigger post = false ->
  X <> [] -> contains (str ",") X = false ->
  N <> [] -> forallb ascii_word N = true ->
  W <> [] -> forallb ascii_word W = true ->
  fix_content (pre ++ str "logger.error(" ++ X ++ str ", { " ++ N ++ str "Error: " ++ W
               ++ str ".message," ++ post) =
  (pre ++ str "logger.error(" ++ X ++ str ", new Error(" ++ W ++ str ".message), { "
   ++ N ++ str "ErrorType: '" ++ N ++ str "Error'," ++ post, 1).
Proof.
  intros Cpre Cpost NX C NN FN NW FW. apply contains_no_comma in C.
  pose proof (forallb_ascii_is_word N FN) as FN'.
  pose proof (forallb_ascii_is_word W FW) as FW'.
  replace (pre ++ str "logger.error(" ++ X ++ str ", { " ++ N ++ str "Error: " ++ W
           ++ str ".message," ++ post)
    with (pre ++ LE ++ X ++ comma
          :: (str " { " ++ N ++ str "Error: " ++ W ++ str ".message,") ++ post)
    by (rewrite <- !app_assoc; reflexivity).
  replace (pre ++ str "logger.error(" ++ X ++ str ", new Error(" ++ W ++ str ".message), { "
           ++ N ++ str "ErrorType: '" ++ N ++ str "Error'," ++ post)
    with (pre ++ LE ++ X ++ comma
          :: (str " new Error(" ++ W ++ str ".message), { " ++ N ++ str "ErrorType: '"
              ++ N ++ str "Error',") ++ post)
    by (rewrite <- !app_assoc; reflexivity).
  assert (Tx : (str " { " ++ N ++ str "Error: " ++ W ++ str ".message,") ++ post
               = str " { " ++ N ++ str "Error: " ++ W ++ str ".message," ++ post)
    by (rewrite <- !app_assoc; reflexivity).
  assert (NC : no_call (comma :: str " { " ++ N ++ str "Error: " ++ W ++ str ".message,") post).
  { change (comma :: str " { " ++ N ++ str "Error: " ++ W ++ str ".message,")
      with (str ", { " ++ N ++ str "Error: " ++ W ++ str ".message,").
    no_call_pieces. }
  destruct (named_run N W post X NN FN NW FW) as [l Run].
  apply (rule_rewrites 6 pre X _ _ post [X; N ++ str "Error"; W] l); try assumption.
  - cbn. lia.
  - assert (Miss : forall k, k < 6 ->
              clean (search (rule k))
                (pre ++ LE ++ X ++ comma
                 :: (str " { " ++ N ++ str "Error: " ++ W ++ str ".message,") ++ post)).
    { intros k K.
      do 6 (destruct k as [|k];
            [match goal with
             | |- clean (search (rule ?j)) _ =>
                 apply (clean_around_call (skipn 3 (search (rule j)))); try assumption;
                 [exact (proj1 (rule_ok_nth j ltac:(cbn; lia)))
                 |intros g; rewrite Tx; now apply (named_no_error _ N _ g)]
             end|]).
      lia. }
    cbn [firstn PATTERNS]. forall_rules.
    + exact (Miss 0 ltac:(lia)).
    + exact (Miss 1 ltac:(lia)).
    + exact (Miss 2 ltac:(lia)).
    + exact (Miss 3 ltac:(lia)).
    + exact (Miss 4 ltac:(lia)).
    + exact (Miss 5 ltac:(lia)).
  - rewrite Tx. exact Run.
  - cbn [replace rule nth PATTERNS group m_groups Nat.sub]. rewrite <- !app_assoc. reflexivity.
  - change (comma :: str " new Error(" ++ W ++ str ".message), { " ++ N ++ str "ErrorType: '"
            ++ N ++ str "Error',")
      with (str ", new Error(" ++ W ++ str ".message), { " ++ N ++ str "ErrorType: '"
            ++ N ++ str "Error',").
    no_call_pieces.
  - not_brace.
Qed.

End NamedError.

(** * A file of many calls

    A content made of calls of the forms the rules are written for, with
    any white space where their patterns allow it, and of calls that pass
    no object literal, with text free of calls between them. *)

(** The white space at the places where a pattern has [\s*] or [\s+],
    numbered from the first comma of the call on. *)
Definition gaps := nat -> text.

Inductive shape :=
| Plain (r : text)
| ErrorMessageFirst (sp : gaps)
| ErrorMessageOnly (sp : gaps)
| MessageFirst (sp : gaps) (E : text)
| MessageOnly (sp : gaps) (E : text)
| ResultError (sp : gaps)
| Conditional (sp : gaps) (F : text)
| NamedError (sp : gaps) (N W : text).

(** The position in [PATTERNS] of the rule written for the form. *)
Definition target (k : shape) : option nat :=
  match k with
  | Plain _ => None
  | ErrorMessageFirst _ => Some 0
  | ErrorMessageOnly _ => Some 1
  | MessageFirst _ _ => Some 2
  | MessageOnly _ _ => Some 3
  | ResultError _ => Some 4
  | Conditional _ _ => Some 5
  | NamedError _ _ _ => Some 6
  end.

(** What follows the first comma of the call in the source. In the
    conditional, [F] is all that stands between the colon and the closing
    brace: the fallback and the white space around it. *)
Definition before (k : shape) : text :=
  match k with
  | Plain r => r
  | ErrorMessageFirst sp =>
      sp 0 ++ str "{" ++ sp 1 ++ str "error:" ++ sp 2 ++ str "errorMessage" ++ sp 3 ++ str ","
  | ErrorMessageOnly sp =>
      sp 0 ++ str "{" ++ sp 1 ++ str "error:" ++ sp 2 ++ str "errorMessage" ++ sp 3
      ++ str "}" ++ sp 4 ++ str ")"
  | MessageFirst sp E =>
      sp 0 ++ str "{" ++ sp 1 ++ str "error:" ++ sp 2 ++ E ++ str ".message" ++ sp 3 ++ str ","
  | MessageOnly sp E =>
      sp 0 ++ str "{" ++ sp 1 ++ str "error:" ++ sp 2 ++ E ++ str ".message" ++ sp 3
      ++ str "}" ++ sp 4 ++ str ")"
  | ResultError sp =>
      sp 0 ++ str "{" ++ sp 1 ++ str "error:" ++ sp 2 ++ str "result.error" ++ sp 3
      ++ str "}" ++ sp 4 ++ str ")"
  | Conditional sp F =>
      sp 0 ++ str "{" ++ sp 1 ++ str "error:" ++ sp 2 ++ str "err" ++ sp 3
      ++ str "instanceof" ++ sp 4 ++ str "Error" ++ sp 5 ++ str "?" ++ sp 6
      ++ str "err.message" ++ sp 7 ++ str ":" ++ F ++ str "}" ++ sp 8 ++ str ")"
  | NamedError sp N W =>
      sp 0 ++ str "{" ++ sp 1 ++ N ++ str "Error" ++ str ":" ++ sp 2 ++ W
      ++ str ".message" ++ sp 3 ++ str ","
  end.

(** What follows it once the call is rewritten. *)
Definition after (k : shape) : text :=
  match k with
  | Plain r => r
  | ErrorMessageFirst _ => str " new Error(errorMessage), {"
  | ErrorMessageOnly _ => str " new Error(errorMessage))"
  | MessageFirst _ E => str " new Error(" ++ E ++ str ".message), {"
  | MessageOnly _ E => str " new Error(" ++ E ++ str ".message))"
  | ResultError _ => str " new Error(result.error))"
  | Conditional _ _ => str " err instanceof Error ? err : new Error(String(err)))"
  | NamedError _ N W =>
      str " new Error(" ++ W ++ str ".message), { " ++ N ++ str "ErrorType: '" ++ N
      ++ str "Error',"
  end.

Definition is_nil (s : text) : bool := match s with [] => true | _ :: _ => false end.

(** The first [n] gaps hold ASCII white space only. *)
Definition spaces (n : nat) (sp : gaps) : bool :=
  forallb (fun i => forallb ascii_space (sp i)) (seq 0 n).

(** The parts of a form are as the rule expects them; a call that passes
    no object literal runs to its closing parenthesis and holds no other
    call. *)
Definition shape_ok {T : CharTables} (k : shape) : bool :=
  match k with
  | Plain r =>
      negb (contains trigger r) && negb (opens_object r) && ends_with (str ")") r
  | ErrorMessageFirst sp => spaces 4 sp
  | ErrorMessageOnly sp | ResultError sp => spaces 5 sp
  | MessageFirst sp E => spaces 4 sp && negb (is_nil E) && forallb (mem ident) E
  | MessageOnly sp E => spaces 5 sp && negb (is_nil E) && forallb (mem ident) E
  | Conditional sp F =>
      spaces 9 sp && negb (is_nil (sp 3)) && negb (is_nil (sp 4))
      && negb (is_nil F) && negb (contains (str ",") F) && negb (contains (str "}") F)
      && negb (contains trigger F)
  | NamedError sp N W =>
      spaces 4 sp && negb (is_nil N) && forallb ascii_word N
      && negb (is_nil W) && forallb ascii_word W
  end.

(** A call and the text that leads to it. *)
Record call := mkcall { lead : text; first_arg : text; form : shape }.

Definition call_ok {T : CharTables} (c : call) : bool :=
  negb (contains trigger (lead c)) && negb (is_nil (first_arg c))
  && negb (contains (str ",") (first_arg c)) && shape_ok (form c).

(** The content: the calls in turn, each with what [f] puts after its
    first comma, then the text after the last call. *)
Fixpoint render (f : shape -> text) (doc : list call) (post : text) : text :=
  match doc with
  | [] => post
  | c :: doc' =>
      lead c ++ str "logger.error(" ++ first_arg c ++ str "," ++ f (form c)
      ++ render f doc' post
  end.

Definition rewritable (c : call) : bool :=
  match target (form c) with Some _ => true | None => false end.

(** The content when the loop of [fix_file] reaches the rule at position
    [j]: the calls of the rules before it are rewritten. *)
Definition stage (j : nat) (k : shape) : text :=
  match target k with
  | Some r => if Nat.ltb r j then after k else before k
  | None => before k
  end.

Definition aimed (j : nat) (c : call) : bool :=
  match target (form c) with Some r => Nat.eqb r j | None => false end.

Section Scanning.
Context {T : CharTables}.

(** No match of [P] starts within [seg] when [rest] follows. *)
Definition dead (P : regex) (seg rest : text) : Prop :=
  forall z z', seg = z ++ z' -> z' <> [] -> match_at P (z' ++ rest) = None.

Lemma dead_app (P : regex) (a b rest : text) :
  dead P a (b ++ rest) -> dead P b rest -> dead P (a ++ b) rest.
Proof.
  intros Ha Hb z z' E N. symmetry in E.
  apply app_eq_app in E as [l [[E1 E2] | [E1 E2]]].
  - exact (Hb l z' E2 N).
  - destruct l as [|c l].
    + cbn [app] in E2. subst z'. exact (Hb [] b eq_refl N).
    + subst z'. rewrite <- app_assoc. apply (Ha z (c :: l) E1). discriminate.
Qed.

Lemma dead_no_call (P : regex) (x k : text) : head_shape P -> no_call x k -> dead P x k.
Proof.
  intros HP NC z z' E N. apply no_start_no_match; [exact HP | now apply (NC z z')].
Qed.

(** Within the opening and the first argument of a call no match starts,
    when the rest of the pattern fails past the comma. *)
Lemma dead_call (rj : regex) (X t : text) :
  head_shape (call3 ++ rj) -> no_comma X ->
  (forall g, run rj (t, [g]) = []) ->
  dead (call3 ++ rj) (LE ++ X) (comma :: t).
Proof.
  intros HS C Fail z z' E N.
  destruct (match_at (call3 ++ rj) (z' ++ comma :: t)) as [m|] eqn:M; [exfalso|reflexivity].
  destruct (match_shape _ _ _ HS M) as [g [t' [Es [Ng [Cg _]]]]].
  assert (Cz : no_comma z').
  { assert (Cz : no_comma (z ++ z')).
    { rewrite <- E. apply no_comma_app. split; [apply no_comma_LE | exact C]. }
    apply no_comma_app in Cz. tauto. }
  replace (LE ++ g ++ comma :: t' ++ m_rest m)
    with ((LE ++ g) ++ comma :: (t' ++ m_rest m)) in Es by (norm_app; reflexivity).
  apply (split_first (mem not_comma)) in Es as [-> [_ Es]];
    try exact comma_is_comma; try exact Cz.
  2:{ apply no_comma_app. split; [apply no_comma_LE | exact Cg]. }
  rewrite <- app_assoc in M. rewrite match_at_call, Fail in M by assumption. discriminate.
Qed.

(** The scan passes over a text in which no match starts. *)
Lemma dead_scan (P : regex) (R : match_obj -> text) (seg rest : text) :
  dead P seg rest ->
  sub P R (seg ++ rest) = seg ++ sub P R rest /\ findall P (seg ++ rest) = findall P rest.
Proof.
  induction seg as [|c seg IH]; intros D; [now split|].
  assert (M : match_at P ((c :: seg) ++ rest) = None)
    by (apply (D [] (c :: seg)); [reflexivity | discriminate]).
  cbn [app] in *. rewrite sub_skip, findall_skip by exact M.
  destruct IH as [-> ->]; [|now split].
  intros z z' E N. apply (D (c :: z) z'); [now rewrite E | exact N].
Qed.

(** A call no rule for which matches is passed over, whatever follows. *)
Lemma pass_over_call (rj : regex) (R : match_obj -> text) (pre X t rest : text) :
  head_shape (call3 ++ rj) ->
  contains trigger pre = false -> no_comma X ->
  no_call (comma :: t) rest ->
  (forall g, run rj (t ++ rest, [g]) = []) ->
  sub (call3 ++ rj) R (pre ++ LE ++ X ++ comma :: t ++ rest) =
    pre ++ LE ++ X ++ comma :: t ++ sub (call3 ++ rj) R rest /\
  findall (call3 ++ rj) (pre ++ LE ++ X ++ comma :: t ++ rest) = findall (call3 ++ rj) rest.
Proof.
  intros HS Cpre C NC Fail.
  assert (D : dead (call3 ++ rj) (pre ++ (LE ++ X) ++ comma :: t) rest).
  { apply dead_app; [|apply dead_app].
    - apply dead_no_call; [exact HS|]. rewrite <- !app_assoc. now apply free_before_call.
    - cbn [app]. now apply dead_call.
    - now apply dead_no_call. }
  destruct (dead_scan _ R _ _ D) as [S F].
  norm_app in S. norm_app in F. rewrite <- ?app_assoc in S. rewrite <- ?app_assoc in F.
  now split.
Qed.

(** A call the rule matches is replaced, and the scan goes on after it. *)
Lemma rewrite_call (rj : regex) (R : match_obj -> text) (pre X t rest : text)
      (gs : list text) (l : list mstate) :
  head_shape (call3 ++ rj) ->
  contains trigger pre = false -> X <> [] -> no_comma X ->
  run rj (t ++ rest, [X]) = (rest, gs) :: l ->
  sub (call3 ++ rj) R (pre ++ LE ++ X ++ comma :: t ++ rest) =
    pre ++ R (mkmatch rest gs) ++ sub (call3 ++ rj) R rest /\
  findall (call3 ++ rj) (pre ++ LE ++ X ++ comma :: t ++ rest) =
    mkmatch rest gs :: findall (call3 ++ rj) rest.
Proof.
  intros HS Cpre N C Run.
  destruct (scan_skip_prefix (call3 ++ rj) R pre (LE ++ X ++ comma :: t ++ rest) HS
              (free_before_call pre _ Cpre)) as [-> ->].
  assert (M : match_at (call3 ++ rj) (LE ++ X ++ comma :: t ++ rest)
              = Some (mkmatch rest gs)).
  { change (comma :: t ++ rest) with (comma :: (t ++ rest)).
    rewrite match_at_call by assumption.
    match goal with
    | |- context [run rj ?st] => change (run rj st = (rest, gs) :: l) in Run
    end.
    now rewrite Run. }
  assert (E : LE ++ X ++ comma :: t ++ rest
              = (LE ++ X ++ comma :: t) ++ m_rest (mkmatch rest gs)).
  { cbn [m_rest]. norm_app. reflexivity. }
  assert (NE : LE ++ X ++ comma :: t <> []) by discriminate.
  rewrite (findall_hit _ _ _ _ M E NE), (sub_hit _ R _ _ _ M E NE). cbn [m_rest].
  now split.
Qed.

End Scanning.

(** ** White space between the tokens *)

Section Gaps.
Context {T : CharTables}.

Lemma spaces_nth (n : nat) (sp : gaps) (i : nat) :
  spaces n sp = true -> i < n -> forallb ascii_space (sp i) = true.
Proof.
  unfold spaces. rewrite forallb_forall. intros H L. apply H. apply in_seq. lia.
Qed.

Lemma ascii_space_small (c : char) : ascii_space c = true -> (c < 128)%N.
Proof.
  unfold ascii_space, in_range. rewrite orb_true_iff, !andb_true_iff, !N.leb_le. lia.
Qed.

Lemma ascii_space_is_space (c : char) : ascii_space c = true -> mem space c = true.
Proof.
  intros H. rewrite mem_space. unfold is_space. apply ascii_space_small in H as L.
  apply N.ltb_lt in L. now rewrite L.
Qed.

Lemma ascii_space_not_word (c : char) : ascii_space c = true -> mem word c = false.
Proof.
  intros H. rewrite mem_word. unfold is_word. apply ascii_space_small in H as L.
  apply N.ltb_lt in L. rewrite L. revert H.
  unfold ascii_word, ascii_space, in_range, char_eqb.
  rewrite !orb_true_iff, !andb_true_iff, !N.leb_le.
  rewrite !orb_false_iff, !andb_false_iff, !N.leb_gt, N.eqb_neq. lia.
Qed.

Lemma forallb_ascii_space (s : text) :
  forallb ascii_space s = true -> forallb (mem space) s = true.
Proof.
  rewrite !forallb_forall. intros H c I. apply ascii_space_is_space. now apply H.
Qed.

(** No call opens within white space. *)
Lemma no_call_gap (s k : text) : forallb ascii_space s = true -> no_call s k.
Proof.
  intros F z z' E N. destruct z' as [|c z']; [easy|].
  rewrite E, forallb_app in F. apply andb_true_iff in F as [_ F].
  cbn [forallb] in F. apply andb_true_iff in F as [Fc _].
  unfold LE. cbn [app starts_with].
  replace (char_eqb 108%N c) with false; [reflexivity|].
  symmetry. unfold char_eqb. apply N.eqb_neq. intros <-. discriminate.
Qed.

Lemma blocked_gap_lit (s : text) (c0 : char) (l : text) (p : regex) :
  forallb ascii_space s = true -> mem space c0 = false ->
  blocked_in s (A (Lit (c0 :: l)) :: p).
Proof.
  intros F M. apply (blocked_weaken space); [now apply forallb_ascii_space|].
  now apply blocked_lit.
Qed.

Lemma blocked_gap_ident (s : text) (body : list atom) (p : regex) :
  forallb ascii_space s = true -> blocked_in s (Grp (Plus ident :: body) :: p).
Proof.
  intros F. apply (blocked_weaken space); [now apply forallb_ascii_space|].
  apply blocked_group. exact space_not_ident.
Qed.

Lemma blocked_gap_word (s : text) (body : list atom) (p : regex) :
  forallb ascii_space s = true -> blocked_in s (Grp (Plus word :: body) :: p).
Proof.
  intros F y r gs I. rewrite forallb_forall in F.
  cbn [step_token run_atoms step_atom]. now rewrite (ascii_space_not_word y (F y I)).
Qed.

(** White space that is not empty keeps a literal that does not hold any
    from starting there. *)
Lemma stops_gap (cs : cset) (s k : text) :
  s <> [] -> forallb ascii_space s = true ->
  (forall y, ascii_space y = true -> mem cs y = false) -> stops cs (s ++ k).
Proof.
  intros N F D. destruct s as [|c s]; [easy|].
  cbn [forallb] in F. apply andb_true_iff in F as [Fc _]. cbn [app stops]. now apply D.
Qed.

Lemma ascii_space_not_ident (y : char) : ascii_space y = true -> mem ident y = false.
Proof. intros H. apply space_not_ident. now apply ascii_space_is_space. Qed.

Lemma starts_with_gap (c : char) (l s k : text) :
  s <> [] -> forallb ascii_space s = true -> ascii_space c = false ->
  starts_with (c :: l) (s ++ k) = false.
Proof.
  intros N F C. destruct s as [|y s]; [easy|].
  cbn [forallb] in F. apply andb_true_iff in F as [Fy _]. cbn [app starts_with].
  replace (char_eqb c y) with false; [reflexivity|].
  symmetry. unfold char_eqb. apply N.eqb_neq. intros <-. congruence.
Qed.

Lemma starts_with_both (a l s : text) : starts_with (a ++ l) (a ++ s) = starts_with l s.
Proof.
  induction a as [|x a IH]; [reflexivity|].
  cbn [app starts_with]. rewrite IH. unfold char_eqb. now rewrite N.eqb_refl.
Qed.

End Gaps.

(** Side conditions of a step of the engine over a gap, a literal or a
    run of letters. *)
Ltac gside :=
  first
    [ assumption
    | reflexivity
    | discriminate
    | solve [apply forallb_ascii_space; assumption]
    | solve [apply forallb_ascii_word; assumption]
    | solve [intros ? ? ? []]
    | solve [apply blocked_gap_lit; [assumption | reflexivity]]
    | solve [apply blocked_gap_ident; assumption]
    | solve [apply blocked_gap_word; assumption]
    | solve [apply stops_ascii_word; assumption]
    | solve [apply (stops_app space ident); [assumption | exact ident_not_mem_space | reflexivity]]
    | match goal with
      | F : forallb (mem ?cs) ?u = true |- blocked_in ?u _ =>
          apply (blocked_weaken cs u _ F); apply blocked_lit; reflexivity
      end
    | solve [repeat (let H := fresh in intros ? ? ? H; repeat destruct H as [<- | H]; try reflexivity; destruct H)] ].

Ltac gstep :=
  first
    [ rewrite run_lit
    | rewrite run_star_det; [|gside..]
    | rewrite run_plus_det; [|gside..]
    | rewrite run_group_det; [|gside..] ].

Section Openings.
Context {T : CharTables}.

(** The opening [\s*\{\s*error:\s*] shared by the rules, on a call that
    has the key [error]. *)
Lemma error_opening (p : regex) (sp : gaps) (rest : text) (gs : list text) :
  forallb ascii_space (sp 0) = true -> forallb ascii_space (sp 1) = true ->
  forallb ascii_space (sp 2) = true ->
  stops space rest -> blocked_in (sp 2) p ->
  run (ws :: L "{" :: ws :: L "error:" :: ws :: p)
      (sp 0 ++ str "{" ++ sp 1 ++ str "error:" ++ sp 2 ++ rest, gs) =
  run p (rest, gs).
Proof.
  intros F0 F1 F2 S B. unfold ws, L.
  do 4 gstep. rewrite run_star_det; [reflexivity | gside | exact S | exact B].
Qed.

End Openings.

(** ** What each rule does with each form *)

(** The gaps of a form hold white space. *)
Ltac gap_facts H :=
  match type of H with
  | spaces ?n ?sp = true =>
      try (assert (forallb ascii_space (sp 0) = true) by (apply (spaces_nth n sp 0 H); lia));
      try (assert (forallb ascii_space (sp 1) = true) by (apply (spaces_nth n sp 1 H); lia));
      try (assert (forallb ascii_space (sp 2) = true) by (apply (spaces_nth n sp 2 H); lia));
      try (assert (forallb ascii_space (sp 3) = true) by (apply (spaces_nth n sp 3 H); lia));
      try (assert (forallb ascii_space (sp 4) = true) by (apply (spaces_nth n sp 4 H); lia));
      try (assert (forallb ascii_space (sp 5) = true) by (apply (spaces_nth n sp 5 H); lia));
      try (assert (forallb ascii_space (sp 6) = true) by (apply (spaces_nth n sp 6 H); lia));
      try (assert (forallb ascii_space (sp 7) = true) by (apply (spaces_nth n sp 7 H); lia));
      try (assert (forallb ascii_space (sp 8) = true) by (apply (spaces_nth n sp 8 H); lia))
  end.

(** The pieces of a form, one after the other, open no call. *)
Ltac no_call_gaps :=
  repeat first
    [ apply no_call_lit; vm_compute; reflexivity
    | apply no_call_gap; assumption
    | apply no_call_word_lit; [assumption | vm_compute; reflexivity]
    | apply free_no_call_lit; [assumption | vm_compute; reflexivity]
    | rewrite <- app_assoc
    | apply no_call_app ].

Section Forms.
Context {T : CharTables}.

Lemma is_nil_false (s : text) : negb (is_nil s) = true -> s <> [].
Proof. now destruct s. Qed.

Lemma ok_plain (r : text) :
  shape_ok (Plain r) = true ->
  contains trigger r = false /\ opens_object r = false /\ ends_with (str ")") r = true.
Proof.
  cbn [shape_ok]. rewrite !andb_true_iff, !negb_true_iff. tauto.
Qed.

Lemma ok_message (n : nat) (sp : gaps) (E : text) :
  spaces n sp && negb (is_nil E) && forallb (mem ident) E = true ->
  spaces n sp = true /\ E <> [] /\ forallb (mem ident) E = true.
Proof.
  rewrite !andb_true_iff. intros [[H0 H1] H2]. repeat split; auto using is_nil_false.
Qed.

Lemma ok_conditional (sp : gaps) (F : text) :
  shape_ok (Conditional sp F) = true ->
  spaces 9 sp = true /\ sp 3 <> [] /\ sp 4 <> [] /\ F <> [] /\
  contains (str ",") F = false /\ contains (str "}") F = false /\
  contains trigger F = false.
Proof.
  cbn [shape_ok]. rewrite !andb_true_iff, !negb_true_iff.
  intros [[[[[[H0 H1] H2] H3] H4] H5] H6].
  repeat split; auto; apply is_nil_false; now apply negb_true_iff.
Qed.

Lemma ok_named (sp : gaps) (N W : text) :
  shape_ok (NamedError sp N W) = true ->
  spaces 4 sp = true /\
  N <> [] /\ forallb ascii_word N = true /\ W <> [] /\ forallb ascii_word W = true.
Proof.
  cbn [shape_ok]. rewrite !andb_true_iff. intros [[[[H0 H1] H2] H3] H4].
  repeat split; auto using is_nil_false.
Qed.

Lemma ends_with_paren (r : text) :
  ends_with (str ")") r = true -> exists r0, r = r0 ++ str ")".
Proof.
  unfold ends_with. change (rev (str ")")) with (str ")"). intros H.
  apply starts_with_spec in H as [x E]. exists (rev x).
  rewrite <- (rev_involutive r), E. cbn [app rev]. reflexivity.
Qed.

(** A text that ends with a closing parenthesis and holds no call opens
    none with what follows it. *)
Lemma no_call_closed (r k : text) :
  contains trigger r = false -> ends_with (str ")") r = true -> no_call r k.
Proof.
  intros C E z z' Er N.
  destruct (starts_with LE (z' ++ k)) eqn:S; [exfalso|reflexivity].
  apply starts_with_app_cases in S as [[a' ->] | [l2 [E2 [N2 S]]]].
  - pose proof (contains_false_suffix trigger r z (LE ++ a') C Er) as H.
    change trigger with LE in H. now rewrite starts_with_app in H.
  - apply ends_with_paren in E as [r0 E]. rewrite E in Er.
    assert (I : In (ch ")") z').
    { destruct (exists_last N) as [z0 [c Ez]]. subst z'.
      rewrite app_assoc in Er. apply app_inj_tail in Er as [_ <-].
      apply in_or_app. right. now left. }
    assert (J : In (ch ")") LE) by (rewrite E2; apply in_or_app; now left).
    vm_compute in J. intuition discriminate.
Qed.

Lemma opens_object_closed (r y : text) :
  ends_with (str ")") r = true -> opens_object (r ++ y) = opens_object r.
Proof.
  intros E. apply ends_with_paren in E as [r0 ->].
  induction r0 as [|c r0 IH]; cbn [app opens_object].
  - reflexivity.
  - now rewrite IH.
Qed.

Lemma not_opens (x : text) : opens_object x = false -> ~ brace_next x.
Proof. intros H B. apply opens_object_spec in B. congruence. Qed.

Lemma before_no_call (k : shape) (rest : text) :
  shape_ok k = true -> no_call (comma :: before k) rest.
Proof.
  intros OK.
  assert (Cm : forall x, no_call x rest -> no_call (comma :: x) rest).
  { intros x H. change (comma :: x) with ([comma] ++ x). apply no_call_app; [|exact H].
    apply no_call_lit. reflexivity. }
  apply Cm. destruct k as [r | sp | sp | sp E | sp E | sp | sp F | sp N W]; cbn [before].
  - destruct (ok_plain r OK) as [C [_ E]]. now apply no_call_closed.
  - cbn [shape_ok] in OK. gap_facts OK. no_call_gaps.
  - cbn [shape_ok] in OK. gap_facts OK. no_call_gaps.
  - destruct (ok_message 4 sp E OK) as [G [_ F]]. gap_facts G.
    pose proof (forallb_ident_word E F). no_call_gaps.
  - destruct (ok_message 5 sp E OK) as [G [_ F]]. gap_facts G.
    pose proof (forallb_ident_word E F). no_call_gaps.
  - cbn [shape_ok] in OK. gap_facts OK. no_call_gaps.
  - destruct (ok_conditional sp F OK) as [G [_ [_ [_ [_ [_ TF]]]]]]. gap_facts G.
    no_call_gaps.
  - destruct (ok_named sp N W OK) as [G [_ [FN [_ FW]]]]. gap_facts G.
    pose proof (forallb_ascii_is_word N FN). pose proof (forallb_ascii_is_word W FW).
    no_call_gaps.
Qed.

Lemma after_no_call (k : shape) (rest : text) :
  shape_ok k = true -> no_call (comma :: after k) rest.
Proof.
  intros OK. destruct k as [r | sp | sp | sp E | sp E | sp | sp F | sp N W]; cbn [after];
    try (apply no_call_lit; reflexivity).
  - now apply (before_no_call (Plain r)).
  - destruct (ok_message 4 sp E OK) as [_ [_ F]].
    apply (no_call_message (str ", new Error(")); [exact F | reflexivity..].
  - destruct (ok_message 5 sp E OK) as [_ [_ F]].
    apply (no_call_message (str ", new Error(")); [exact F | reflexivity..].
  - destruct (ok_named sp N W OK) as [_ [_ [FN [_ FW]]]].
    pose proof (forallb_ascii_is_word N FN). pose proof (forallb_ascii_is_word W FW).
    change (comma :: str " new Error(" ++ W ++ str ".message), { " ++ N ++ str "ErrorType: '"
            ++ N ++ str "Error',")
      with (str ", new Error(" ++ W ++ str ".message), { " ++ N ++ str "ErrorType: '"
            ++ N ++ str "Error',").
    no_call_pieces.
Qed.

(** A rewritten call, and one that passes no object, does not go on with
    a brace past its first comma. *)
Lemma after_closed (k : shape) (rest : text) :
  shape_ok k = true -> ~ brace_next (after k ++ rest).
Proof.
  intros OK. destruct k as [r | sp | sp | sp E | sp E | sp | sp F | sp N W]; cbn [after];
    try not_brace.
  destruct (ok_plain r OK) as [_ [O E]].
  apply not_opens. now rewrite opens_object_closed.
Qed.

End Forms.

(** The shared opening, then the tokens one by one. *)
Ltac gopen :=
  etransitivity; [apply error_opening; unfold L; gside|]; unfold L, ws, ws1.

Ltac gblock :=
  first
    [ gside
    | solve [apply (blocked_weaken ident); [reflexivity | apply blocked_lit; reflexivity]]
    | solve [apply stops_gap; [assumption | assumption | exact ascii_space_not_ident]]
    | solve [apply (stops_app space word);
             [apply forallb_ascii_word; assumption | | reflexivity];
             intros ? ?; apply ascii_word_not_space ] ].

Section Misses.
Context {T : CharTables}.

(** The rules for [errorMessage] find nothing at an identifier's
    [.message]. *)
Lemma gap_message_miss (tl : regex) (c : char) (sp : gaps) (E rest g : text) :
  forallb ascii_space (sp 0) = true -> forallb ascii_space (sp 1) = true ->
  forallb ascii_space (sp 2) = true -> forallb (mem ident) E = true ->
  mem space c = false -> mem ident c = false -> c <> ch "." ->
  run ([ws; L "{"; ws; L "error:"; ws; L "errorMessage"; ws] ++ A (Lit [c]) :: tl)
      (sp 0 ++ str "{" ++ sp 1 ++ str "error:" ++ sp 2 ++ E ++ str ".message" ++ rest, [g]) = [].
Proof.
  intros F0 F1 F2 F Sc Ic Nc. cbn [app].
  gopen.
  destruct (starts_with (str "errorMessage") (E ++ str ".message" ++ rest)) eqn:S;
    [|now apply run_lit_fail].
  change (str ".message" ++ rest) with (ch "." :: str "message" ++ rest) in *.
  apply (prefix_of_run (mem ident)) in S as [v ->]; [|reflexivity..].
  rewrite forallb_app in F. apply andb_true_iff in F as [_ F].
  rewrite <- app_assoc, run_lit.
  change (v ++ ch "." :: str "message" ++ rest)
    with ([] ++ v ++ ch "." :: str "message" ++ rest).
  rewrite run_star_det; [|reflexivity | | side].
  2:{ apply (stops_app space ident); [exact F | exact ident_not_mem_space | reflexivity]. }
  apply run_lit_fail. now apply (starts_with_outside ident).
Qed.

(** The rules that ask for the key [error] find nothing at a key that
    ends in [Error]. *)
Lemma gap_named_miss (tl : regex) (sp : gaps) (N rest g : text) :
  forallb ascii_space (sp 0) = true -> forallb ascii_space (sp 1) = true ->
  N <> [] -> forallb ascii_word N = true ->
  run (ws :: L "{" :: ws :: L "error:" :: tl)
      (sp 0 ++ str "{" ++ sp 1 ++ N ++ str "Error" ++ str ":" ++ rest, [g]) = [].
Proof.
  intros F0 F1 NN FN. unfold ws, L.
  do 2 gstep. rewrite run_star_det; [|gside..].
  apply run_lit_fail.
  destruct (starts_with (str "error:") (N ++ str "Error" ++ str ":" ++ rest)) eqn:S;
    [exfalso|reflexivity].
  apply starts_with_spec in S as [r E].
  change (N ++ str "Error" ++ str ":" ++ rest) with (N ++ str "Error" ++ ch ":" :: rest) in E.
  change (str "error:" ++ r) with (str "error" ++ ch ":" :: r) in E.
  rewrite app_assoc in E.
  apply (split_first ascii_word) in E as [E _]; try reflexivity.
  - apply (f_equal (@length char)) in E. rewrite length_app in E.
    destruct N; [easy | cbn in E; lia].
  - rewrite forallb_app, FN. reflexivity.
Qed.

End Misses.

Section Hits.
Context {T : CharTables}.

(** The end of the conditional rule's pattern, [\s*[^,}]+\s*\}\s*\)], on
    what stands between the colon and the closing parenthesis: whatever
    the engine tries first, its first success ends at the parenthesis. *)
Lemma cond_end (F s8 rest : text) (gs : list text) :
  F <> [] -> forallb (mem not_comma_brace) F = true -> forallb (mem space) s8 = true ->
  exists l,
    run [ws; A (Plus not_comma_brace); ws; L "}"; ws; L ")"]
        (F ++ str "}" ++ s8 ++ str ")" ++ rest, gs) = (rest, gs) :: l.
Proof.
  intros NF FF F8'.
  set (p := [ws; A (Plus not_comma_brace); ws; L "}"; ws; L ")"]).
  destruct (run p (F ++ str "}" ++ s8 ++ str ")" ++ rest, gs)) as [|[r g'] l] eqn:R.
  - exfalso.
    assert (I : In (rest, gs) (run p (F ++ str "}" ++ s8 ++ str ")" ++ rest, gs))).
    { apply In_run. exists (concat [[]; F; []; str "}"; s8; str ")"]). split.
      - cbn [concat]. rewrite app_nil_r. rewrite <- ?app_assoc. reflexivity.
      - apply spans_words_intro. unfold p.
        cbn [spans_words token_spans atom_spans L ws].
        repeat (eexists; split; [split; [|reflexivity]|]); try reflexivity; try assumption.
        now split. }
    rewrite R in I. destruct I.
  - assert (I : In (r, g') (run p (F ++ str "}" ++ s8 ++ str ")" ++ rest, gs)))
      by (rewrite R; now left).
    apply In_run in I as [w [E S]]. unfold p in S. open_spans S.
    exists l. f_equal. f_equal.
    repeat rewrite app_assoc in E.
    match type of E with
    | _ = ((((?a ++ _) ++ ?xl) ++ _) ++ _) =>
        assert (E' : F ++ rbrace :: (s8 ++ ch ")" :: rest) = a ++ rbrace :: (xl ++ ch ")" :: r))
          by (rewrite <- ?app_assoc in E; rewrite <- ?app_assoc; exact E)
    end.
    clear E.
    apply (split_first (fun x => negb (char_eqb x rbrace))) in E' as [_ [_ E]];
      try reflexivity; try (apply not_In_forallb; absent).
    apply (split_first (mem space)) in E as [_ [_ E]]; try reflexivity; try assumption.
    now subst r.
Qed.

(** The group [(\w+Error)], then the rest of the rule, on a key that ends
    in [Error]. *)
Lemma gap_named_run (sp : gaps) (N W rest X : text) :
  spaces 4 sp = true ->
  N <> [] -> forallb ascii_word N = true -> W <> [] -> forallb ascii_word W = true ->
  exists l,
    run (skipn 3 (search (rule 6)))
        (sp 0 ++ str "{" ++ sp 1 ++ N ++ str "Error" ++ str ":" ++ sp 2 ++ W
         ++ str ".message" ++ sp 3 ++ str "," ++ rest, [X]) =
    (rest, [X; N ++ str "Error"; W]) :: l.
Proof.
  intros G NN FN NW FW. gap_facts G.
  pose proof (forallb_ascii_word N FN) as FN'.
  pose proof (forallb_ascii_word W FW) as FW'.
  destruct (run_named [L ":"; ws; Grp [Plus word]; L ".message"; ws; L ","]
              N (sp 2 ++ W ++ str ".message" ++ sp 3 ++ str "," ++ rest) [X] NN FN')
    as [l E].
  exists l.
  cbn [rule nth PATTERNS search skipn]. unfold ws at 1 2. unfold L at 1.
  do 2 gstep. rewrite run_star_det; [|gside..].
  etransitivity; [exact E|].
  change (ch ":" :: sp 2 ++ W ++ str ".message" ++ sp 3 ++ str "," ++ rest)
    with (str ":" ++ sp 2 ++ W ++ str ".message" ++ sp 3 ++ str "," ++ rest).
  unfold ws, L. do 2 gstep. rewrite run_group_det; [|gblock..].
  do 3 gstep. reflexivity.
Qed.

End Hits.

Ltac expose := cbn [rule nth PATTERNS search skipn].

Section Rules.
Context {T : CharTables}.

(** The rules that stand before the rule written for a form find nothing
    in a call of that form, whatever follows it. *)
Lemma before_dead (j r : nat) (k : shape) (g rest : text) :
  shape_ok k = true -> target k = Some r -> j < r ->
  run (skipn 3 (search (rule j))) (before k ++ rest, [g]) = [].
Proof.
  intros OK Tg Lt.
  destruct k as [r0 | sp | sp | sp E | sp E | sp | sp F | sp N W]; cbn [target] in Tg;
    [discriminate|..]; injection Tg as <-; cbn [before]; rewrite <- ?app_assoc.
  - lia.
  - cbn [shape_ok] in OK. gap_facts OK.
    destruct j as [|j]; [|lia]. expose. gopen.
    do 2 gstep. now apply run_lit_fail.
  - destruct (ok_message 4 sp E OK) as [G [NE FE]]. gap_facts G.
    destruct j as [|[|j]]; [| |lia]; expose.
    + apply (gap_message_miss [] (ch ",")); gside.
    + apply (gap_message_miss [ws; L ")"] (ch "}")); gside.
  - destruct (ok_message 5 sp E OK) as [G [NE FE]]. gap_facts G.
    destruct j as [|[|[|j]]]; [| | |lia]; expose.
    + apply (gap_message_miss [] (ch ",")); gside.
    + apply (gap_message_miss [ws; L ")"] (ch "}")); gside.
    + gopen. rewrite run_group_det; [|gblock..]. do 2 gstep. now apply run_lit_fail.
  - cbn [shape_ok] in OK. gap_facts OK.
    change (str "result.error") with (str "result" ++ str ".error"). rewrite <- ?app_assoc.
    destruct j as [|[|[|[|j]]]]; [| | | |lia]; expose; gopen.
    + now apply run_lit_fail.
    + now apply run_lit_fail.
    + rewrite run_group_det; [|gblock..]. now apply run_lit_fail.
    + rewrite run_group_det; [|gblock..]. now apply run_lit_fail.
  - destruct (ok_conditional sp F OK) as [G [N3 [N4 [NF [CF [BF TF]]]]]]. gap_facts G.
    assert (Miss : forall x tl, ascii_space x = false ->
              starts_with (str "err" ++ x :: tl)
                (str "err" ++ sp 3 ++ str "instanceof" ++ sp 4 ++ str "Error" ++ sp 5
                 ++ str "?" ++ sp 6 ++ str "err.message" ++ sp 7 ++ str ":" ++ F ++ str "}"
                 ++ sp 8 ++ str ")" ++ rest) = false).
    { intros x tl Sx. rewrite starts_with_both. now apply starts_with_gap. }
    destruct j as [|[|[|[|[|j]]]]]; [| | | | |lia]; expose; gopen.
    + apply run_lit_fail. now apply (Miss (ch "o")).
    + apply run_lit_fail. now apply (Miss (ch "o")).
    + rewrite run_group_det; [|gblock..]. apply run_lit_fail. now apply starts_with_gap.
    + rewrite run_group_det; [|gblock..]. apply run_lit_fail. now apply starts_with_gap.
    + now apply run_lit_fail.
  - destruct (ok_named sp N W OK) as [G [NN [FN _]]]. gap_facts G.
    do 6 (destruct j as [|j]; [now apply (gap_named_miss _ sp N _ g)|]). lia.
Qed.

(** The rule written for a form runs from the comma to the end of the
    call, and its replacement is the rewritten call. *)
Lemma before_hit (r : nat) (k : shape) (X rest : text) :
  shape_ok k = true -> target k = Some r ->
  exists gs l,
    run (skipn 3 (search (rule r))) (before k ++ rest, [X]) = (rest, gs) :: l /\
    replace (rule r) (mkmatch rest gs) = LE ++ X ++ comma :: after k.
Proof.
  intros OK Tg.
  destruct k as [r0 | sp | sp | sp E | sp E | sp | sp F | sp N W]; cbn [target] in Tg;
    [discriminate|..]; injection Tg as <-; cbn [before after]; rewrite <- ?app_assoc.
  - cbn [shape_ok] in OK. gap_facts OK.
    exists [X], []. split; [|reflexivity]. expose. gopen. do 3 gstep. reflexivity.
  - cbn [shape_ok] in OK. gap_facts OK.
    exists [X], []. split; [|reflexivity]. expose. gopen. do 5 gstep. reflexivity.
  - destruct (ok_message 4 sp E OK) as [G [NE FE]]. gap_facts G.
    exists [X; E], []. split; [|reflexivity]. expose. gopen.
    rewrite run_group_det; [|gblock..]. do 3 gstep. reflexivity.
  - destruct (ok_message 5 sp E OK) as [G [NE FE]]. gap_facts G.
    exists [X; E], []. split; [|reflexivity]. expose. gopen.
    rewrite run_group_det; [|gblock..]. do 5 gstep. reflexivity.
  - cbn [shape_ok] in OK. gap_facts OK.
    exists [X], []. split; [|reflexivity]. expose. gopen. do 5 gstep. reflexivity.
  - destruct (ok_conditional sp F OK) as [G [N3 [N4 [NF [CF [BF TF]]]]]]. gap_facts G.
    destruct (cond_end F (sp 8) rest [X] NF (contains_ncb F CF BF)) as [l Run];
      [now apply forallb_ascii_space|].
    exists [X], l. split; [|reflexivity]. expose. gopen.
    do 11 gstep. exact Run.
  - destruct (ok_named sp N W OK) as [G [NN [FN [NW FW]]]].
    destruct (gap_named_run sp N W rest X G NN FN NW FW) as [l Run].
    exists [X; N ++ str "Error"; W], l. split; [exact Run|].
    cbn [replace rule nth PATTERNS group m_groups Nat.sub]. rewrite <- !app_assoc. reflexivity.
Qed.

End Rules.

(** ** One rule over the whole content, then all of them *)

Section Calls.
Context {T : CharTables}.

Lemma rule_open (j : nat) :
  j < length PATTERNS -> search (rule j) = call3 ++ skipn 3 (search (rule j)).
Proof.
  intros J. pose proof PATTERNS_open as OP. rewrite Forall_forall in OP.
  destruct (OP (rule j)) as [tl E]; [unfold rule; now apply nth_In|].
  rewrite E. reflexivity.
Qed.

Lemma rule_needs_brace (j : nat) (s : text) (gs : list text) :
  j < length PATTERNS -> ~ brace_next s -> run (skipn 3 (search (rule j))) (s, gs) = [].
Proof.
  intros J NB. pose proof PATTERNS_open as OP. rewrite Forall_forall in OP.
  destruct (OP (rule j)) as [tl E]; [unfold rule; now apply nth_In|].
  rewrite E. cbn [call3 app skipn]. now apply run_needs_brace.
Qed.

Lemma call_ok_parts (c : call) :
  call_ok c = true ->
  contains trigger (lead c) = false /\ first_arg c <> [] /\ no_comma (first_arg c) /\
  shape_ok (form c) = true.
Proof.
  unfold call_ok. rewrite !andb_true_iff, !negb_true_iff. intros [[[H1 H2] H3] H4].
  repeat split; auto.
  - destruct (first_arg c); [discriminate | discriminate].
  - now apply contains_no_comma.
Qed.

(** One rule at one call: the call is rewritten when the rule is the one
    written for its form, and passed over otherwise. *)
Lemma call_step (j : nat) (c : call) (rest : text) :
  j < length PATTERNS -> call_ok c = true ->
  sub (search (rule j)) (replace (rule j))
      (lead c ++ LE ++ first_arg c ++ comma :: stage j (form c) ++ rest) =
    lead c ++ LE ++ first_arg c ++ comma :: stage (S j) (form c)
    ++ sub (search (rule j)) (replace (rule j)) rest /\
  length (findall (search (rule j))
            (lead c ++ LE ++ first_arg c ++ comma :: stage j (form c) ++ rest)) =
    (if aimed j c then 1 else 0) + length (findall (search (rule j)) rest).
Proof.
  intros J OK. destruct (call_ok_parts c OK) as [Cl [NX [CX SK]]].
  destruct (rule_ok_nth j J) as [HP _]. rewrite (rule_open j J) in *.
  set (rj := skipn 3 (search (rule j))) in *.
  assert (Over : forall t,
            no_call (comma :: t) rest -> (forall g, run rj (t ++ rest, [g]) = []) ->
            sub (call3 ++ rj) (replace (rule j)) (lead c ++ LE ++ first_arg c ++ comma :: t ++ rest)
            = lead c ++ LE ++ first_arg c ++ comma :: t ++ sub (call3 ++ rj) (replace (rule j)) rest /\
            length (findall (call3 ++ rj) (lead c ++ LE ++ first_arg c ++ comma :: t ++ rest))
            = 0 + length (findall (call3 ++ rj) rest)).
  { intros t NC Fail.
    destruct (pass_over_call rj (replace (rule j)) (lead c) (first_arg c) t rest
                HP Cl CX NC Fail) as [-> ->]. now split. }
  unfold stage, aimed. destruct (target (form c)) as [r|] eqn:Tg.
  - destruct (Nat.ltb_spec r j) as [Lt | Ge].
    + (* rewritten by an earlier rule *)
      assert (L2 : Nat.ltb r (S j) = true) by (apply Nat.ltb_lt; lia).
      assert (Ne : Nat.eqb r j = false) by (apply Nat.eqb_neq; lia).
      rewrite L2, Ne. apply Over; [now apply after_no_call|].
      intros g. apply rule_needs_brace; [exact J | now apply after_closed].
    + destruct (Nat.eqb_spec r j) as [-> | Ne].
      * (* the rule written for the form *)
        assert (L2 : Nat.ltb j (S j) = true) by (apply Nat.ltb_lt; lia). rewrite L2.
        destruct (before_hit j (form c) (first_arg c) rest SK Tg) as [gs [l [Run Rep]]].
        destruct (rewrite_call rj (replace (rule j)) (lead c) (first_arg c) (before (form c))
                    rest gs l HP Cl NX CX Run) as [-> ->].
        rewrite Rep. cbn [length Nat.add]. norm_app. rewrite <- ?app_assoc. now split.
      * (* a form of a later rule *)
        assert (L2 : Nat.ltb r (S j) = false) by (apply Nat.ltb_ge; lia). rewrite L2.
        apply Over; [now apply before_no_call|].
        intros g. apply (before_dead j r); [exact SK | exact Tg | lia].
  - (* no object passed *)
    apply Over; [now apply before_no_call|].
    intros g. apply rule_needs_brace; [exact J|].
    destruct (form c) as [r | sp | sp | sp E | sp E | sp | sp F | sp N W]; try discriminate.
    now apply (after_closed (Plain r)).
Qed.

Lemma render_cons (f : shape -> text) (c : call) (doc : list call) (post : text) :
  render f (c :: doc) post =
  lead c ++ LE ++ first_arg c ++ comma :: f (form c) ++ render f doc post.
Proof. reflexivity. Qed.

(** One rule over the content: the calls of its form are rewritten, the
    others are as they were, and [re.findall] counts the former. *)
Lemma pass_step (j : nat) (doc : list call) (post : text) :
  j < length PATTERNS -> forallb call_ok doc = true -> contains trigger post = false ->
  sub (search (rule j)) (replace (rule j)) (render (stage j) doc post) =
    render (stage (S j)) doc post /\
  length (findall (search (rule j)) (render (stage j) doc post)) =
    length (filter (aimed j) doc).
Proof.
  intros J OK Cpost. induction doc as [|c doc IH].
  - cbn [render filter length].
    pose proof (clean_free _ post (proj1 (rule_ok_nth j J)) Cpost) as C.
    now rewrite (clean_sub _ _ _ C), (clean_findall _ _ C).
  - cbn [forallb] in OK. apply andb_true_iff in OK as [Oc OK].
    destruct (IH OK) as [IS IF]. rewrite !render_cons.
    destruct (call_step j c (render (stage j) doc post) J Oc) as [-> ->].
    rewrite IS, IF. split; [reflexivity|].
    cbn [filter]. destruct (aimed j c); reflexivity.
Qed.

Lemma apply_pattern_count (p : pattern) (c : text) (n : nat) :
  apply_pattern (c, n) p =
  (sub (search p) (replace p) c, n + length (findall (search p) c)).
Proof.
  unfold apply_pattern. destruct (findall (search p) c) eqn:F; [|reflexivity].
  rewrite (findall_nil_sub _ _ _ F). cbn [length]. now rewrite Nat.add_0_r.
Qed.

Lemma render_ext (f g : shape -> text) (doc : list call) (post : text) :
  (forall k, f k = g k) -> render f doc post = render g doc post.
Proof.
  intros E. induction doc as [|c doc IH]; [reflexivity|]. cbn [render]. now rewrite E, IH.
Qed.

Lemma filter_count (f : call -> bool) (c : call) (doc : list call) :
  length (filter f (c :: doc)) = (if f c then 1 else 0) + length (filter f doc).
Proof. cbn [filter]. now destruct (f c). Qed.

Lemma aimed_once (c : call) :
  (if aimed 0 c then 1 else 0) + (if aimed 1 c then 1 else 0)
  + (if aimed 2 c then 1 else 0) + (if aimed 3 c then 1 else 0)
  + (if aimed 4 c then 1 else 0) + (if aimed 5 c then 1 else 0)
  + (if aimed 6 c then 1 else 0) + (if aimed 7 c then 1 else 0) =
  (if rewritable c then 1 else 0).
Proof.
  unfold aimed, rewritable. now destruct (form c).
Qed.

Lemma aimed_total (doc : list call) :
  length (filter (aimed 0) doc) + length (filter (aimed 1) doc)
  + length (filter (aimed 2) doc) + length (filter (aimed 3) doc)
  + length (filter (aimed 4) doc) + length (filter (aimed 5) doc)
  + length (filter (aimed 6) doc) + length (filter (aimed 7) doc) =
  length (filter rewritable doc).
Proof.
  induction doc as [|c doc IH]; [reflexivity|].
  rewrite !filter_count. pose proof (aimed_once c). lia.
Qed.

(** X18. A content made of calls of the forms the rules are written for,
    with any ASCII white space (line breaks as well) wherever their
    patterns have [\s*] or [\s+], and of calls that pass no object
    literal, led and followed by text that holds no call: one pass rewrites
    every call of a rule's form as that rule prescribes, in the one layout
    the replacement has, leaves the other calls and all the text between as
    they are, and counts one fix for each call rewritten. *)
Theorem calls_rewritten (doc : list call) (post : text) :
  forallb call_ok doc = true -> contains trigger post = false ->
  fix_content (render before doc post) =
  (render after doc post, length (filter rewritable doc)).
Proof.
  intros OK Cpost.
  rewrite (render_ext before (stage 0)) by (intros k; now destruct k).
  rewrite (render_ext after (stage 8)) by (intros k; now destruct k).
  rewrite <- aimed_total.
  unfold fix_content, apply_patterns.
  change PATTERNS with [rule 0; rule 1; rule 2; rule 3; rule 4; rule 5; rule 6; rule 7].
  cbn [fold_left].
  assert (Step : forall j n, j < length PATTERNS ->
            apply_pattern (render (stage j) doc post, n) (rule j) =
            (render (stage (S j)) doc post, n + length (filter (aimed j) doc))).
  { intros j n J. rewrite apply_pattern_count.
    destruct (pass_step j doc post J OK Cpost) as [-> ->]. reflexivity. }
  rewrite !Step by (cbn; lia). reflexivity.
Qed.

End Calls.

(** * What the run reports *)

Section Report.
Context {T : CharTables}.

Lemma In_insert_sorted (x y : text) (l : list text) :
  In x (insert_sorted y l) <-> x = y \/ In x l.
Proof.
  induction l as [|z l IH]; cbn [insert_sorted In].
  - intuition.
  - destruct (text_leb y z); cbn [In]; [intuition | rewrite IH; intuition].
Qed.

Lemma In_sorted (x : text) (l : list text) : In x (sorted l) <-> In x l.
Proof.
  unfold sorted. induction l as [|y l IH]; cbn [fold_right In]; [tauto|].
  rewrite In_insert_sorted, IH. intuition.
Qed.

Lemma fix_step_out (d : path) (st : run_state) (q : path) (line : text) :
  In line (st_out st) -> In line (st_out (fix_step d st q)).
Proof.
  intros I. unfold fix_step.
  destruct (fix_file (st_world st) q) as [[w' printed] [[|] n]]; cbn [st_out];
    apply in_or_app; now left.
Qed.

Lemma loop_out (d : path) (files : list path) (st : run_state) (line : text) :
  In line (st_out st) -> In line (st_out (fold_left (fix_step d) files st)).
Proof.
  revert st; induction files as [|q files IH]; intros st I; [exact I|].
  cbn [fold_left]. apply IH. now apply fix_step_out.
Qed.

(** Every file the loop lists as fixed has its line printed, with a count
    of at least one. *)
Lemma loop_fixed_line (d : path) (files : list path) (st : run_state) (x : text) :
  In x (fixed_files (fold_left (fix_step d) files st)) ->
  In x (fixed_files st) \/
  exists n, 1 <= n /\
    In (fixed_mark ++ str " Fixed " ++ dec n ++ str " issue(s) in " ++ x)
       (st_out (fold_left (fix_step d) files st)).
Proof.
  revert st; induction files as [|q files IH]; intros st I; [now left|].
  cbn [fold_left] in *. apply IH in I as [I | I]; [|now right].
  unfold fix_step in I.
  pose proof (fix_file_modified_count (st_world st) q) as M.
  destruct (fix_file (st_world st) q) as [[w' printed] [[|] n]] eqn:FF; cbn [fixed_files snd] in *.
  - apply in_app_or in I as [I | [<- | []]]; [now left|].
    right. exists n. split; [now apply M|].
    apply loop_out. unfold fix_step. rewrite FF. cbn [st_out].
    apply in_or_app. right. apply in_or_app. right. now left.
  - now left.
Qed.

(** X19. Every path [main] lists as fixed is the path of a selected file
    relative to the directory of the script, so that it starts with
    [src/]; the run has printed its line with a count of at least one, and
    the final listing names it under [Fixed files:]. *)
Theorem fixed_file_reported (w : world) (script_dir : path) (x : text) :
  In x (fixed_files (snd (run_fixes w script_dir))) ->
  In (script_dir ++ str "/" ++ x) (fst (run_fixes w script_dir)) /\
  starts_with (str "src/") x = true /\
  (exists n, 1 <= n /\
     In (fixed_mark ++ str " Fixed " ++ dec n ++ str " issue(s) in " ++ x)
        (snd (main w script_dir))) /\
  In (str "Fixed files:") (snd (main w script_dir)) /\
  In (str "  - " ++ x) (snd (main w script_dir)).
Proof.
  intros I. unfold main. unfold run_fixes in *. cbn [fst snd] in *.
  match type of I with
  | In x (fixed_files (fold_left _ ?fs ?st0)) =>
      set (st := fold_left (fix_step script_dir) fs st0) in *; set (files := fs) in *
  end.
  assert (Q : exists q, In q files /\ x = relative_to script_dir q).
  { apply loop_fixed in I as [[] | Q]. exact Q. }
  destruct Q as [q [Q ->]].
  apply in_find_files in Q as Sel. destruct Sel as [_ [U _]].
  pose proof (under_spec script_dir q (under_src _ _ U)) as Eq.
  split; [now rewrite <- Eq|]. split.
  - unfold under in U. apply starts_with_spec in U as [r Er].
    rewrite Er in Eq at 1. rewrite <- !app_assoc in Eq.
    apply app_inv_head in Eq. change (str "/src" ++ str "/" ++ r) with (str "/" ++ str "src/" ++ r) in Eq.
    apply app_inv_head in Eq. rewrite <- Eq. apply starts_with_app.
  - split.
    + apply loop_fixed_line in I as [[] | [n [N L]]]. exists n. split; [exact N|].
      apply in_or_app. now left.
    + remember (fixed_files st) as fs eqn:FS. destruct fs as [|y l]; [destruct I|].
      split; apply in_or_app; right; apply in_or_app; right; apply in_or_app; left.
      * now left.
      * right. apply (in_map (fun f => str "  - " ++ f)). now apply In_sorted.
Qed.

Lemma empty_list {A : Type} (l : list A) : (forall x, ~ In x l) -> l = [].
Proof. destruct l as [|a l]; [reflexivity|]. intros H. destruct (H a). now left. Qed.

(** X20. When the path of the script's directory itself holds a
    deny-listed name, every file below it is skipped: the selector returns
    nothing, the run leaves the tree as it is and prints that it found no
    file. *)
Theorem skipped_root_selects_nothing (w : world) (script_dir : path) :
  should_skip_file script_dir = true ->
  find_files_with_logger_errors w (script_dir ++ str "/src") = [] /\
  fst (main w script_dir) = w /\
  In (str "Found 0 files with logger.error() calls") (snd (main w script_dir)).
Proof.
  intros S.
  assert (E : find_files_with_logger_errors w (script_dir ++ str "/src") = []).
  { apply empty_list. intros p I. apply in_find_files in I as [NS [U _]].
    unfold under in U. apply starts_with_spec in U as [r ->].
    assert (S' : should_skip_file (((script_dir ++ str "/src") ++ str "/") ++ r) = true).
    { unfold should_skip_file in *. rewrite existsb_exists in *. destruct S as [n [J C]].
      exists n. split; [exact J|]. rewrite <- !app_assoc. now apply contains_app_l. }
    congruence. }
  split; [exact E|]. unfold main, run_fixes. rewrite E. cbn [fold_left fst snd st_world st_out].
  split; [reflexivity|]. apply in_or_app. left. cbn [length]. do 5 right. left. reflexivity.
Qed.

End Report.

(** * A call in any surroundings

    What a rule does with a call of its form when any text stands before
    and after it in the file, other calls included. *)




Definition qmark : char := Eval cbv in ch "?".



(** Every question mark of [p] has a comma or a closing brace after it. *)
Definition settled_text (p : text) : Prop :=
  forall x y, p = x ++ qmark :: y -> In comma y \/ In rbrace y.

Section Reach.
Context {T : CharTables}.













End Reach.

Section Counting.
Context {T : CharTables}.





Lemma settled_nil : settled_text [].
Proof. intros x y E. now destruct x. Qed.


End Counting.

(** ** A form of call and its rule

    What follows the first comma of the call before the rewrite ([B]) and
    after it ([Af]), and the position [r] of the rule written for it. *)

Section AnyLead.
Context {T : CharTables}.
Variables (B Af : text) (r : nat).

Hypothesis r_in : r < length PATTERNS.
Hypothesis B_no_call : forall rest, no_call (comma :: B) rest.
Hypothesis B_dead :
  forall j g rest, j < r -> run (skipn 3 (search (rule j))) (B ++ rest, [g]) = [].
Hypothesis B_hit :
  forall X rest, exists gs l,
    run (skipn 3 (search (rule r))) (B ++ rest, [X]) = (rest, gs) :: l /\
    replace (rule r) (mkmatch rest gs) = LE ++ X ++ comma :: Af.
Hypothesis Af_no_call : forall rest, no_call (comma :: Af) rest.
Hypothesis Af_closed : forall rest, ~ brace_next (Af ++ rest).












End AnyLead.

(** ** The two calls of the claims, with any white space *)

Section Spaces.
Context {T : CharTables}.







End Spaces.




Section Openings.
Context {T : CharTables}.


End Openings.


(** *** [{ error: result.error }] *)

Section ResultCall.
Context {T : CharTables}.
Variable sp : nat -> text.
Hypothesis gaps_ok : forall i, forallb is_space (sp i) = true.






End ResultCall.

(** *** [{ error: err instanceof Error ? err.message : F }] *)

Section ConditionalCall.
Context {T : CharTables}.
Variables (sp : nat -> text) (F : text).
Hypothesis gaps_ok : forall i, forallb is_space (sp i) = true.
Hypothesis gap3 : sp 3 <> [].
Hypothesis gap4 : sp 4 <> [].
Hypothesis F_some : F <> [].
Hypothesis F_comma : contains (str ",") F = false.
Hypothesis F_brace : contains (str "}") F = false.
Hypothesis F_call : contains trigger F = false.







End ConditionalCall.

Section CallClaims.
Context {T : CharTables}.



End CallClaims.

(** * Concrete runs

    The texts below are ASCII, on which every table gives the same result;
    the runs take the tables of an interpreter that knows no white space
    and no letter beyond ASCII. *)

#[global] Instance ascii_tables : CharTables :=
  {| uni_space := fun _ => false; uni_alnum := fun _ => false;
     uni_printable := fun _ => false |}.

Definition repo : path := str "/repo".

Definition a_ts : path := str "/repo/src/services/a.ts".
Definition a_content : text :=
  str "logger.error('a', { error: errorMessage }); logger.error('b', { error: errorMessage });".

Definition plain_ts : path := str "/repo/src/plain.ts".
Definition plain_content : text := str "export const x = 1;".

Definition vendored_ts : path := str "/repo/src/node_modules/pkg/index.ts".
Definition vendored_content : text := str "logger.error('v', { error: errorMessage });".

Definition locked_ts : path := str "/repo/src/locked.ts".
Definition locked_content : text := str "logger.error('l', { error: result.error });".
Definition denied : exn := Exception (str "[Errno 13] Permission denied: '/repo/src/locked.ts'").

Definition ok_ts : path := str "/repo/src/ok.tsx".
Definition ok_content : text := str "logger.error('fine', err);".

Definition sample_world : world := [
  (a_ts, mkfile (Ok a_content) None);
  (plain_ts, mkfile (Ok plain_content) None);
  (vendored_ts, mkfile (Ok vendored_content) None);
  (locked_ts, mkfile (Ok locked_content) (Some (denied, Ok locked_content)));
  (ok_ts, mkfile (Ok ok_content) None)
].












(** C4, the claim as stated fails. [plain.ts] lies below the root and holds
    no trigger; three files are selected, it is none of them, and the
    summary prints three files scanned. *)
Lemma untriggered_file_counterexample :
  In plain_ts (rglob sample_world (str "/repo/src") (str ".ts")) /\
  read_file sample_world plain_ts = Ok plain_content /\
  contains trigger plain_content = false /\
  fst (run_fixes sample_world repo) = [a_ts; locked_ts; ok_ts] /\
  In (str "Total files scanned: 3") (snd (main sample_world repo)).
Proof.
  repeat split; try (vm_compute; reflexivity).
  - vm_compute. tauto.
  - vm_compute. do 13 right. left. reflexivity.
Qed.

Lemma untriggered_file_not_selected_witness :
  ~ In plain_ts (fst (run_fixes sample_world repo)) /\
  In (str "Total files scanned: " ++ dec (length (fst (run_fixes sample_world repo))))
     (snd (main sample_world repo)) /\
  ~ In (relative_to repo plain_ts) (fixed_files (snd (run_fixes sample_world repo))) /\
  read_file (fst (main sample_world repo)) plain_ts = Ok plain_content.
Proof.
  apply (untriggered_file_not_selected sample_world repo plain_ts plain_content);
    reflexivity.
Defined.

Lemma isolated_rule_count_witness :
  snd (snd (fix_file sample_world a_ts)) = length (findall (search (rule 1)) a_content) /\
  length (findall (search (rule 1)) a_content) = 2.
Proof.
  split; [|reflexivity].
  apply (isolated_rule_count sample_world a_ts a_content 1).
  - reflexivity.
  - vm_compute. reflexivity.
  - cbn. lia.
  - intros j Hj Hn.
    do 8 (destruct j as [|j];
          [first [exfalso; apply Hn; reflexivity | split; vm_compute; reflexivity]|]).
    cbn in Hj. lia.
Defined.

Lemma denied_path_never_selected_witness :
  contains (str "node_modules") vendored_ts = true /\
  read_file sample_world vendored_ts = Ok vendored_content /\
  contains trigger vendored_content = true /\
  ~ In vendored_ts (find_files_with_logger_errors sample_world (str "/repo/src")).
Proof.
  repeat split; try reflexivity.
  apply (denied_path_never_selected sample_world (str "/repo/src") vendored_ts
           (str "node_modules")); [left; reflexivity | reflexivity].
Defined.


Lemma fix_file_writes_iff_changed_witness :
  fix_file sample_world ok_ts = (sample_world, [], (false, 0)) /\
  fix_file sample_world a_ts =
    (fst (write_file sample_world a_ts (fst (fix_content a_content))), [],
     (true, snd (fix_content a_content))) /\
  read_file (fst (fst (fix_file sample_world a_ts))) a_ts = Ok (fst (fix_content a_content)).
Proof.
  split.
  - apply (fix_file_writes_iff_changed sample_world ok_ts ok_content); [reflexivity|].
    vm_compute. reflexivity.
  - destruct (fix_file_writes_iff_changed sample_world a_ts a_content eq_refl) as [_ H].
    destruct H as [_ [_ H]].
    + apply text_eqb_neq. vm_compute. reflexivity.
    + apply H. vm_compute. reflexivity.
Defined.

(** C10, the claim as stated fails. [locked.ts] refuses the write: its
    final content differs from the original and one fix is counted, and
    [fix_file] reports it (not changed, zero fixes). *)
Lemma fix_file_result_invariant_counterexample :
  read_file sample_world locked_ts = Ok locked_content /\
  fix_content locked_content = (str "logger.error('l', new Error(result.error));", 1) /\
  text_eqb (fst (fix_content locked_content)) locked_content = false /\
  snd (write_file sample_world locked_ts (fst (fix_content locked_content))) = Raise denied /\
  snd (fix_file sample_world locked_ts) = (false, 0).
Proof. repeat split; vm_compute; reflexivity. Qed.

Lemma fix_file_result_invariant_witness :
  snd (fix_file sample_world a_ts) = (true, 2) /\ 1 <= 2 /\
  (exists original,
     read_file sample_world a_ts = Ok original /\ fst (fix_content original) <> original /\
     snd (write_file sample_world a_ts (fst (fix_content original))) = Ok tt) /\
  snd (fix_file sample_world ok_ts) = (false, 0).
Proof.
  assert (E : snd (fix_file sample_world a_ts) = (true, 2)) by (vm_compute; reflexivity).
  destruct (fix_file_result_invariant sample_world a_ts true 2 E) as [[H _] [H1 _]].
  split; [exact E|]. split; [exact (H1 eq_refl)|]. split; [exact (H eq_refl)|].
  vm_compute. reflexivity.
Defined.

(** ** Further runs *)

Lemma fix_file_without_trigger_witness :
  fix_content plain_content = (plain_content, 0) /\
  fix_file sample_world plain_ts = (sample_world, [], (false, 0)).
Proof.
  apply (fix_file_without_trigger sample_world plain_ts plain_content); reflexivity.
Defined.

Lemma non_object_call_untouched_witness :
  fix_content (str "try { run(); } catch (err) { " ++ str "logger.error(" ++ str "'fine'"
               ++ str "," ++ str " err); }") =
  (str "try { run(); } catch (err) { " ++ str "logger.error(" ++ str "'fine'"
   ++ str "," ++ str " err); }", 0).
Proof.
  apply (non_object_call_untouched (str "try { run(); } catch (err) { ") (str "'fine'")
           (str " err); }"));
    reflexivity.
Defined.

(** The first match of the second rule in [a_content]. *)
Definition a_match : match_obj :=
  mkmatch (str "; logger.error('b', { error: errorMessage });") [str "'a'"].

Lemma replacement_keeps_first_argument_witness :
  In a_match (findall (search (rule 1)) a_content) /\
  group a_match 1 = str "'a'" /\
  group a_match 1 <> [] /\
  contains (str ",") (group a_match 1) = false /\
  (exists before t,
     a_content =
     before ++ str "logger.error(" ++ group a_match 1 ++ str "," ++ t ++ m_rest a_match) /\
  (exists x,
     replace (rule 1) a_match = str "logger.error(" ++ group a_match 1 ++ str ", " ++ x).
Proof.
  assert (I : In a_match (findall (search (rule 1)) a_content))
    by (vm_compute; left; reflexivity).
  split; [exact I|]. split; [reflexivity|].
  apply (replacement_keeps_first_argument (rule 1) a_content); [|exact I].
  right. left. reflexivity.
Defined.

Lemma error_message_first_rewritten_witness :
  fix_content (str "if (errorMessage) { " ++ str "logger.error(" ++ str "'Upload failed'"
               ++ str ", { error: errorMessage," ++ str " userId }); }") =
  (str "if (errorMessage) { " ++ str "logger.error(" ++ str "'Upload failed'"
   ++ str ", new Error(errorMessage), {" ++ str " userId }); }", 1).
Proof.
  apply (error_message_first_rewritten (str "if (errorMessage) { ") (str "'Upload failed'")
           (str " userId }); }"));
    first [discriminate | reflexivity].
Defined.

Lemma error_message_call_rewritten_witness :
  fix_content (str "if (errorMessage) { " ++ str "logger.error(" ++ str "'Upload failed'"
               ++ str ", { error: errorMessage })" ++ str "; }") =
  (str "if (errorMessage) { " ++ str "logger.error(" ++ str "'Upload failed'"
   ++ str ", new Error(errorMessage))" ++ str "; }", 1).
Proof.
  apply (error_message_call_rewritten (str "if (errorMessage) { ") (str "'Upload failed'")
           (str "; }"));
    first [discriminate | reflexivity].
Defined.

Lemma message_first_rewritten_witness :
  fix_content (str "if (dbError) { " ++ str "logger.error(" ++ str "'Query failed'"
               ++ str ", { error: " ++ str "dbError" ++ str ".message," ++ str " table }); }") =
  (str "if (dbError) { " ++ str "logger.error(" ++ str "'Query failed'"
   ++ str ", new Error(" ++ str "dbError" ++ str ".message), {" ++ str " table }); }", 1).
Proof.
  apply (message_first_rewritten (str "if (dbError) { ") (str "'Query failed'")
           (str "dbError") (str " table }); }"));
    first [discriminate | reflexivity].
Defined.

Lemma message_call_rewritten_witness :
  fix_content (str "if (dbError) { " ++ str "logger.error(" ++ str "'Query failed'"
               ++ str ", { error: " ++ str "dbError" ++ str ".message })" ++ str "; }") =
  (str "if (dbError) { " ++ str "logger.error(" ++ str "'Query failed'"
   ++ str ", new Error(" ++ str "dbError" ++ str ".message))" ++ str "; }", 1).
Proof.
  apply (message_call_rewritten (str "if (dbError) { ") (str "'Query failed'")
           (str "dbError") (str "; }"));
    first [discriminate | reflexivity].
Defined.

Lemma named_error_call_rewritten_witness :
  fix_content (str "if (e2) { " ++ str "logger.error(" ++ str "'Post failed'"
               ++ str ", { " ++ str "post" ++ str "Error: " ++ str "e2" ++ str ".message,"
               ++ str " postId }); }") =
  (str "if (e2) { " ++ str "logger.error(" ++ str "'Post failed'"
   ++ str ", new Error(" ++ str "e2" ++ str ".message), { " ++ str "post"
   ++ str "ErrorType: '" ++ str "post" ++ str "Error'," ++ str " postId }); }", 1).
Proof.
  apply (named_error_call_rewritten (str "if (e2) { ") (str "'Post failed'")
           (str "post") (str "e2") (str " postId }); }"));
    first [discriminate | reflexivity].
Defined.

Lemma selected_once_witness :
  find_files_with_logger_errors sample_world (str "/repo/src") = [a_ts; locked_ts; ok_ts] /\
  NoDup (find_files_with_logger_errors sample_world (str "/repo/src")).
Proof.
  split; [reflexivity|].
  apply (selected_once sample_world (str "/repo/src")).
  repeat constructor; intros H; vm_compute in H; intuition discriminate.
Defined.

Lemma skipped_part_skips_path_witness :
  should_skip_file (str "node_modules") = true /\
  should_skip_file (str "/repo/src/" ++ str "node_modules" ++ str "/pkg/index.ts") = true.
Proof.
  split; [reflexivity|].
  apply (skipped_part_skips_path (str "/repo/src/") (str "node_modules") (str "/pkg/index.ts")).
  reflexivity.
Defined.

(** The layouts of the calls below: one space between the tokens and none
    before the closing parenthesis, or the object opened on a line of its
    own. *)
Definition nl : char := 10%N.

Definition on_one_line (last : nat) : gaps :=
  fun i => if Nat.eqb i last then [] else str " ".

Definition on_two_lines : gaps :=
  fun i => match i with 1 => nl :: str "  " | 3 => [] | _ => str " " end.

(** A content of four calls: a conditional, an identifier's message with a
    further property on the next line, a call that passes the error
    itself, and a [result.error]. *)
Definition sample_calls : list call := [
  mkcall (str "try { a(); } catch (err) { ") (str "'A failed'")
         (Conditional (on_one_line 8) (str " 'Unknown' "));
  mkcall (str "; } if (dbError) { ") (str "'Query failed'")
         (MessageFirst on_two_lines (str "dbError"));
  mkcall (nl :: str "  table }); } ") (str "'fine'") (Plain (str " err)"));
  mkcall (str "; ") (str "'Save failed'") (ResultError (on_one_line 4))
].

Lemma calls_rewritten_witness :
  render before sample_calls (str ";") =
    str "try { a(); } catch (err) { logger.error('A failed', { error: err instanceof Error ? err.message : 'Unknown' }); } if (dbError) { logger.error('Query failed', {"
    ++ nl :: str "  error: dbError.message,"
    ++ nl :: str "  table }); } logger.error('fine', err); logger.error('Save failed', { error: result.error });" /\
  fix_content
    (str "try { a(); } catch (err) { logger.error('A failed', { error: err instanceof Error ? err.message : 'Unknown' }); } if (dbError) { logger.error('Query failed', {"
     ++ nl :: str "  error: dbError.message,"
     ++ nl :: str "  table }); } logger.error('fine', err); logger.error('Save failed', { error: result.error });") =
  (str "try { a(); } catch (err) { logger.error('A failed', err instanceof Error ? err : new Error(String(err))); } if (dbError) { logger.error('Query failed', new Error(dbError.message), {"
   ++ nl :: str "  table }); } logger.error('fine', err); logger.error('Save failed', new Error(result.error));",
   3).
Proof.
  split; [reflexivity|].
  exact (calls_rewritten sample_calls (str ";") eq_refl eq_refl).
Defined.

Lemma fixed_file_reported_witness :
  fixed_files (snd (run_fixes sample_world repo)) = [str "src/services/a.ts"] /\
  In (repo ++ str "/" ++ str "src/services/a.ts") (fst (run_fixes sample_world repo)) /\
  starts_with (str "src/") (str "src/services/a.ts") = true /\
  (exists n, 1 <= n /\
     In (fixed_mark ++ str " Fixed " ++ dec n ++ str " issue(s) in " ++ str "src/services/a.ts")
        (snd (main sample_world repo))) /\
  In (str "Fixed files:") (snd (main sample_world repo)) /\
  In (str "  - " ++ str "src/services/a.ts") (snd (main sample_world repo)).
Proof.
  split; [vm_compute; reflexivity|].
  apply (fixed_file_reported sample_world repo (str "src/services/a.ts")).
  vm_compute. left. reflexivity.
Defined.

(** A checkout below a directory named [build]. *)
Definition build_dir : path := str "/home/dev/build/app".

Definition build_world : world := [
  (str "/home/dev/build/app/src/a.ts", mkfile (Ok a_content) None)
].

Lemma skipped_root_selects_nothing_witness :
  read_file build_world (str "/home/dev/build/app/src/a.ts") = Ok a_content /\
  contains trigger a_content = true /\
  find_files_with_logger_errors build_world (build_dir ++ str "/src") = [] /\
  fst (main build_world build_dir) = build_world /\
  In (str "Found 0 files with logger.error() calls") (snd (main build_world build_dir)).
Proof.
  split; [reflexivity|]. split; [reflexivity|].
  apply (skipped_root_selects_nothing build_world build_dir). reflexivity.
Defined.
